(** * Shader translation and pipeline cache: a shallow embedding

    The development follows three source files:

    - [video_core/shader/generator/glsl_shader_decompiler.cpp] (the legacy
      PICA decompiler: control-flow analyzer and GLSL text generator),
      embedded in [Module Legacy];
    - [shader_recompiler/backend/spirv/emit_spirv_floating_point.cpp] (the
      SPIR-V floating point emitters), embedded in [Module Spirv];
    - [video_core/renderer_opengl/gl_shader_cache.cpp] (the OpenGL pipeline
      cache), embedded in [Module ShaderCache]. *)

From Stdlib Require Import ZArith Lia String Ascii List DecimalString.
From Stdlib Require Import Floats.SpecFloat.
From stdpp Require Import base gmap sets list strings.

Open Scope Z_scope.

(** ** Results of fallible code

    [Throw] is a thrown [DecompileFail]; [Undefined] marks behaviour the C++
    source leaves undefined or aborts on (an index outside a [std::array], a
    failed [ASSERT], [UNREACHABLE()]); [OutOfFuel] is the only outcome that
    does not correspond to the program stopping. *)
Inductive Result (A : Type) : Type :=
| Ok (a : A)
| Throw (what : string)
| Undefined (why : string)
| OutOfFuel.

Arguments Ok {A} a.
Arguments Throw {A} what.
Arguments Undefined {A} why.
Arguments OutOfFuel {A}.

#[global] Instance Result_ret : MRet Result := fun A a => Ok a.

#[global] Instance Result_bind : MBind Result := fun A B k r =>
  match r with
  | Ok a => k a
  | Throw what => Throw what
  | Undefined why => Undefined why
  | OutOfFuel => OutOfFuel
  end.

#[global] Instance Result_fmap : FMap Result := fun A B f r =>
  match r with
  | Ok a => Ok (f a)
  | Throw what => Throw what
  | Undefined why => Undefined why
  | OutOfFuel => OutOfFuel
  end.

(** Unsigned 32-bit wrap-around of [u32] arithmetic. *)
Definition u32 (n : Z) : Z := n mod 2 ^ 32.

(** [std::to_string] and [fmt]'s [{}] on an unsigned integer. *)
Definition to_string (n : Z) : string := NilZero.string_of_int (Z.to_int n).

Module Legacy.

(** ** Exit methods *)

(** Describes the behaviour of code path of a given entry point and a return
    point. *)
Inductive ExitMethod : Type :=
| Undetermined  (* Internal value. Only occur when analyzing JMP loop. *)
| AlwaysReturn  (* All code paths reach the return point. *)
| Conditional   (* Code path reaches the return point or an END instruction conditionally. *)
| AlwaysEnd.    (* All code paths reach a END instruction. *)

#[global] Instance ExitMethod_eq_dec : EqDecision ExitMethod.
Proof. solve_decision. Defined.

(** Merges exit method of two parallel branches. *)
Definition ParallelExit (a b : ExitMethod) : ExitMethod :=
  if decide (a = Undetermined) then b
  else if decide (b = Undetermined) then a
  else if decide (a = b) then a
  else Conditional.

(** Cascades exit method of two blocks of code.  The source's
    [DEBUG_ASSERT(a != ExitMethod::AlwaysEnd)] compiles to nothing in release
    builds; [SeriesExit_pre] records it. *)
Definition SeriesExit_pre (a : ExitMethod) : Prop := a <> AlwaysEnd.

Definition SeriesExit (a b : ExitMethod) : ExitMethod :=
  if decide (a = Undetermined) then Undetermined
  else if decide (a = AlwaysReturn) then b
  else if decide (b = Undetermined \/ b = AlwaysEnd) then AlwaysEnd
  else Conditional.

(** ** Instruction views

    The decompiler reads every program word through the bit-field views of
    the nihstro header ([nihstro/shader_bytecode.h]), which is a third-party
    header and not a source of this repository.  A word is therefore
    represented by the values of the views the decompiler uses, one record
    field per accessor, named as in the source. *)

(** [OpCode::Id]; ids the decompiler never names are [OtherId]. *)
Inductive OpCodeId : Type :=
| ADD | MUL | FLR | MAX | MIN | DP3 | DP4 | DPH | DPHI | RCP | RSQ | MOVA | MOV
| SGE | SGEI | SLT | SLTI | CMP | EX2 | LG2 | MAD | MADI
| END | JMPC | JMPU | CALL | CALLC | CALLU | NOP | IFU | IFC | LOOP
| EMIT | SETEMIT
| OtherId (raw : Z).

#[global] Instance OpCodeId_eq_dec : EqDecision OpCodeId.
Proof. solve_decision. Defined.

(** [OpCode::Type]. *)
Inductive OpCodeType : Type := Arithmetic | MultiplyAdd | OtherType.

(** [OpCode::Info]: [SrcInversed] is [(subtype & OpCode::Info::SrcInversed) != 0]. *)
Record Info : Type := {
  type : OpCodeType;
  SrcInversed : bool;
  name : string;
}.

Record OpCode : Type := {
  Value : OpCodeId;
  EffectiveOpCode : OpCodeId;
  GetInfo : Info;
}.

Inductive RegisterType : Type :=
| Input | Output | Temporary | FloatUniform | OtherRegisterType.

Record SourceRegister : Type := {
  src_GetRegisterType : RegisterType;
  src_GetIndex : Z;
}.

(** [dest_value] is the raw register number the source compares with [0x10]
    and [0x20]. *)
Record DestRegister : Type := {
  dest_value : Z;
  dest_GetRegisterType : RegisterType;
  dest_GetIndex : Z;
}.

(** [Instruction::Common::CompareOpType::Op]; the two codes the decompiler
    has no entry for are [OtherCompareOp]. *)
Inductive CompareOp : Type :=
| Equal | NotEqual | LessThan | LessEqual | GreaterThan | GreaterEqual
| OtherCompareOp (raw : Z).

#[global] Instance CompareOp_eq_dec : EqDecision CompareOp.
Proof. solve_decision. Defined.

Record CompareOpType : Type := {
  compare_op_x : CompareOp;
  compare_op_y : CompareOp;
}.

Record Common : Type := {
  operand_desc_id : Z;
  GetSrc1 : bool -> SourceRegister;
  GetSrc2 : bool -> SourceRegister;
  address_register_index : Z;
  compare_op : CompareOpType;
  dest : DestRegister;
}.

Record Mad : Type := {
  mad_operand_desc_id : Z;
  mad_GetSrc1 : bool -> SourceRegister;
  mad_GetSrc2 : bool -> SourceRegister;
  mad_GetSrc3 : bool -> SourceRegister;
  mad_address_register_index : Z;
  mad_dest : DestRegister;
}.

(** [Instruction::FlowControlType::Op]. *)
Inductive FlowControlOp : Type := Or | And | JustX | JustY | OtherFlowControlOp.

Record FlowControlType : Type := {
  num_instructions : Z;
  dest_offset : Z;
  op : FlowControlOp;
  bool_uniform_id : Z;
  int_uniform_id : Z;
  refx : bool;
  refy : bool;
}.

Record Instruction : Type := {
  hex : Z;
  opcode : OpCode;
  common : Common;
  mad : Mad;
  flow_control : FlowControlType;
}.

(** [SwizzlePattern::Selector]. *)
Inductive Selector : Type :=
| Selector_x | Selector_y | Selector_z | Selector_w | OtherSelector.

Record SwizzlePattern : Type := {
  negate_src1 : bool;
  negate_src2 : bool;
  negate_src3 : bool;
  SelectorSrc1 : Z -> Selector;
  SelectorSrc2 : Z -> Selector;
  SelectorSrc3 : Z -> Selector;
  DestComponentEnabled : Z -> bool;
}.

(** [ProgramCode] and [SwizzleData] are [std::array]s of words. *)
Definition ProgramCode : Type := list Instruction.
Definition SwizzleData : Type := list SwizzlePattern.

(** [RegGetter] is [std::function<std::string(u32)>]. *)
Definition RegGetter : Type := Z -> string.

(** ** Ordered sets

    [std::set<u32>] and [std::set<Subroutine>] are kept as strictly
    increasing lists, so that iteration visits the elements in the order the
    C++ containers do. *)

(** [std::set<u32>::insert]. *)
Fixpoint labels_insert (label : Z) (labels : list Z) : list Z :=
  match labels with
  | [] => [label]
  | l :: rest =>
      if decide (label < l) then label :: labels
      else if decide (label = l) then labels
      else l :: labels_insert label rest
  end.

(** [labels.lower_bound(key)]: the first element not less than [key]. *)
Fixpoint lower_bound (key : Z) (labels : list Z) : option Z :=
  match labels with
  | [] => None
  | l :: rest => if decide (key <= l) then Some l else lower_bound key rest
  end.

(** A subroutine is a range of code refereced by a CALL, IF or LOOP
    instruction. *)
Record Subroutine : Type := {
  begin : Z;               (* Entry point of the subroutine. *)
  end_ : Z;                (* Return point of the subroutine. *)
  exit_method : ExitMethod;(* Exit method of the subroutine. *)
  labels : list Z;         (* Addresses refereced by JMP instructions. *)
}.

(** Generates a name suitable for GLSL source code. *)
Definition GetName (s : Subroutine) : string :=
  "sub_" +:+ to_string (begin s) +:+ "_" +:+ to_string (end_ s).

(** [Subroutine::operator<]: [std::tie(begin, end) < std::tie(rhs.begin, rhs.end)]. *)
Definition range_lt (a b : Z * Z) : Prop :=
  a.1 < b.1 \/ (a.1 = b.1 /\ a.2 < b.2).

#[global] Instance range_lt_dec a b : Decision (range_lt a b).
Proof. unfold range_lt. apply _. Defined.

Definition range (s : Subroutine) : Z * Z := (begin s, end_ s).

(** [subroutines.find(Subroutine{begin, end})]. *)
Fixpoint subroutines_find (key : Z * Z) (subroutines : list Subroutine)
  : option Subroutine :=
  match subroutines with
  | [] => None
  | s :: rest =>
      if decide (range s = key) then Some s else subroutines_find key rest
  end.

(** [*subroutines.insert(subroutine).first]: the element the returned
    iterator points to, and the set.  An element with an equivalent key
    stays in place. *)
Fixpoint subroutines_insert (sub : Subroutine) (subroutines : list Subroutine)
  : Subroutine * list Subroutine :=
  match subroutines with
  | [] => (sub, [sub])
  | s :: rest =>
      if decide (range_lt (range sub) (range s)) then (sub, sub :: subroutines)
      else if decide (range s = range sub) then (s, subroutines)
      else
        let '(found, rest) := subroutines_insert sub rest in
        (found, s :: rest)
  end.

(** ** The control flow analyzer *)

Section Decompiler.

(** [MAX_PROGRAM_CODE_LENGTH] is declared in [video_core/shader/shader.h],
    outside the sources at hand; it is both the length of the [ProgramCode]
    array and the value of [PROGRAM_END]. *)
Variable MAX_PROGRAM_CODE_LENGTH : Z.

Definition PROGRAM_END : Z := MAX_PROGRAM_CODE_LENGTH.

(** [program_code[offset]] on a [std::array]: an index outside the array is
    undefined behaviour. *)
Definition code_at (program_code : ProgramCode) (offset : Z) : Result Instruction :=
  if decide (0 <= offset < MAX_PROGRAM_CODE_LENGTH) then
    match program_code !! Z.to_nat offset with
    | Some instr => Ok instr
    | None => Undefined "program_code index out of range"
    end
  else Undefined "program_code index out of range".

(** The private members of [ControlFlowAnalyzer]. *)
Record Analyzer : Type := {
  subroutines : list Subroutine;
  exit_method_map : gmap (Z * Z) ExitMethod;
}.

(** [exit_method = value], where [exit_method] is the reference
    [iter->second] into [exit_method_map] taken on entry to [Scan]. *)
Definition set_exit_method (st : Analyzer) (key : Z * Z) (value : ExitMethod)
  : Analyzer :=
  {| subroutines := subroutines st;
     exit_method_map := <[key := value]> (exit_method_map st) |}.

Definition with_subroutines (st : Analyzer) (subs : list Subroutine) : Analyzer :=
  {| subroutines := subs; exit_method_map := exit_method_map st |}.

(** What [Scan] hands back: its return value, the [labels] set it received
    by reference, and the analyzer's members. *)
Definition Scanned : Type := ExitMethod * list Z * Analyzer.

(** [return exit_method = value;] *)
Definition scan_return (key : Z * Z) (value : ExitMethod) (labels : list Z)
    (st : Analyzer) : Result Scanned :=
  Ok (value, labels, set_exit_method st key value).

(** [Scan], the body of its [for] loop from a given [offset] on
    ([ScanLoop]), and [AddSubroutine].  One unit of fuel is spent on every
    call and on every iteration of the loop. *)
Fixpoint Scan (program_code : ProgramCode) (fuel : nat) (begin end_ : Z)
    (labels : list Z) (st : Analyzer) {struct fuel} : Result Scanned :=
  match fuel with
  | O => OutOfFuel
  | S fuel =>
      match exit_method_map st !! (begin, end_) with
      | Some exit_method => Ok (exit_method, labels, st)
      | None =>
          ScanLoop program_code fuel (begin, end_) begin labels
            (set_exit_method st (begin, end_) Undetermined)
      end
  end
with ScanLoop (program_code : ProgramCode) (fuel : nat) (key : Z * Z)
    (offset : Z) (labels : list Z) (st : Analyzer) {struct fuel}
    : Result Scanned :=
  match fuel with
  | O => OutOfFuel
  | S fuel =>
      let end_ := key.2 in
      if decide (offset <> end_ /\ offset <> PROGRAM_END) then
        instr ← code_at program_code offset;
        let fc := flow_control instr in
        match Value (opcode instr) with
        | END => scan_return key AlwaysEnd labels st
        | JMPC | JMPU =>
            let labels := labels_insert (dest_offset fc) labels in
            '(no_jmp, labels, st) ←
              Scan program_code fuel (u32 (offset + 1)) end_ labels st;
            '(jmp, labels, st) ←
              Scan program_code fuel (dest_offset fc) end_ labels st;
            scan_return key (ParallelExit no_jmp jmp) labels st
        | CALL =>
            '(call, st) ←
              AddSubroutine program_code fuel (dest_offset fc)
                (u32 (dest_offset fc + num_instructions fc)) st;
            if decide (exit_method call = AlwaysEnd) then
              scan_return key AlwaysEnd labels st
            else
              '(after_call, labels, st) ←
                Scan program_code fuel (u32 (offset + 1)) end_ labels st;
              scan_return key (SeriesExit (exit_method call) after_call) labels st
        | LOOP =>
            '(loop, st) ←
              AddSubroutine program_code fuel (u32 (offset + 1))
                (u32 (dest_offset fc + 1)) st;
            if decide (exit_method loop = AlwaysEnd) then
              scan_return key AlwaysEnd labels st
            else
              '(after_loop, labels, st) ←
                Scan program_code fuel (u32 (dest_offset fc + 1)) end_ labels st;
              scan_return key (SeriesExit (exit_method loop) after_loop) labels st
        | CALLC | CALLU =>
            '(call, st) ←
              AddSubroutine program_code fuel (dest_offset fc)
                (u32 (dest_offset fc + num_instructions fc)) st;
            '(after_call, labels, st) ←
              Scan program_code fuel (u32 (offset + 1)) end_ labels st;
            scan_return key
              (SeriesExit (ParallelExit (exit_method call) AlwaysReturn) after_call)
              labels st
        | IFU | IFC =>
            '(if_sub, st) ←
              AddSubroutine program_code fuel (u32 (offset + 1)) (dest_offset fc) st;
            '(else_method, st) ←
              (if decide (num_instructions fc <> 0) then
                 '(else_sub, st) ←
                   AddSubroutine program_code fuel (dest_offset fc)
                     (u32 (dest_offset fc + num_instructions fc)) st;
                 Ok (exit_method else_sub, st)
               else Ok (AlwaysReturn, st));
            let both := ParallelExit (exit_method if_sub) else_method in
            if decide (both = AlwaysEnd) then
              scan_return key AlwaysEnd labels st
            else
              '(after_call, labels, st) ←
                Scan program_code fuel
                  (u32 (dest_offset fc + num_instructions fc)) end_ labels st;
              scan_return key (SeriesExit both after_call) labels st
        | _ => ScanLoop program_code fuel key (u32 (offset + 1)) labels st
        end
      else scan_return key AlwaysReturn labels st
  end
with AddSubroutine (program_code : ProgramCode) (fuel : nat) (begin end_ : Z)
    (st : Analyzer) {struct fuel} : Result (Subroutine * Analyzer) :=
  match fuel with
  | O => OutOfFuel
  | S fuel =>
      match subroutines_find (begin, end_) (subroutines st) with
      | Some sub => Ok (sub, st)
      | None =>
          '(exit_method, labels, st) ← Scan program_code fuel begin end_ [] st;
          if decide (exit_method = Undetermined) then
            Throw "Recursive function detected"
          else
            let subroutine :=
              {| begin := begin; end_ := end_;
                 exit_method := exit_method; labels := labels |} in
            let '(inserted, subs) := subroutines_insert subroutine (subroutines st) in
            Ok (inserted, with_subroutines st subs)
      end
  end.

(** The constructor [ControlFlowAnalyzer(program_code, main_offset)],
    followed by [MoveSubroutines()]. *)
Definition ControlFlowAnalyzer (program_code : ProgramCode) (fuel : nat)
    (main_offset : Z) : Result (list Subroutine) :=
  (* Recursively finds all subroutines. *)
  '(program_main, st) ←
    AddSubroutine program_code fuel main_offset PROGRAM_END
      {| subroutines := []; exit_method_map := ∅ |};
  if decide (exit_method program_main <> AlwaysEnd) then
    Throw "Program does not always end"
  else Ok (subroutines st).

(** ** The shader writer *)

Record ShaderWriter : Type := {
  shader_source : string;
  scope : Z;
}.

Definition spaces (n : Z) : string :=
  string_of_list_ascii (repeat " "%char (Z.to_nat n)).

(** [scope] is never negative where the generator writes a line: each
    [--shader.scope] undoes an earlier [++shader.scope]. *)
Definition AddExpression (text : string) (w : ShaderWriter) : ShaderWriter :=
  let source :=
    if decide (text <> "") then shader_source w +:+ spaces (scope w * 4)
    else shader_source w in
  {| shader_source := source +:+ text; scope := scope w |}.

Definition newline : string := String "010"%char "".

Definition AddNewLine (w : ShaderWriter) : ShaderWriter :=
  {| shader_source := shader_source w +:+ newline; scope := scope w |}.

(** [AddLine], applied to the text [fmt::format] has produced. *)
Definition AddLine (text : string) (w : ShaderWriter) : ShaderWriter :=
  AddNewLine (AddExpression text w).

Definition add_scope (d : Z) (w : ShaderWriter) : ShaderWriter :=
  {| shader_source := shader_source w; scope := scope w + d |}.

(** An adaptor for getting swizzle pattern string from nihstro interfaces. *)
Definition selector_char (s : Selector) : Result string :=
  match s with
  | Selector_x => Ok "x"
  | Selector_y => Ok "y"
  | Selector_z => Ok "z"
  | Selector_w => Ok "w"
  | OtherSelector => Undefined "UNREACHABLE"
  end.

Definition GetSelectorSrc (getter : Z -> Selector) : Result string :=
  c0 ← selector_char (getter 0);
  c1 ← selector_char (getter 1);
  c2 ← selector_char (getter 2);
  c3 ← selector_char (getter 3);
  Ok (c0 +:+ c1 +:+ c2 +:+ c3).

Definition GetSelectorSrc1 (pattern : SwizzlePattern) : Result string :=
  GetSelectorSrc (SelectorSrc1 pattern).
Definition GetSelectorSrc2 (pattern : SwizzlePattern) : Result string :=
  GetSelectorSrc (SelectorSrc2 pattern).
Definition GetSelectorSrc3 (pattern : SwizzlePattern) : Result string :=
  GetSelectorSrc (SelectorSrc3 pattern).

(** ** The GLSL generator *)

(** A [LOG_ERROR] or [LOG_INFO] call; logging does not feed back into the
    translation, so an entry keeps the level and the format string only. *)
Inductive LogEntry : Type :=
| LOG_ERROR (format : string)
| LOG_INFO (format : string).

(** The mutable part of [GLSLGenerator], with the log the calls write to. *)
Record Generator : Type := {
  shader : ShaderWriter;
  log : list LogEntry;
}.

Definition emit (text : string) (g : Generator) : Generator :=
  {| shader := AddLine text (shader g); log := log g |}.

Definition rescope (d : Z) (g : Generator) : Generator :=
  {| shader := add_scope d (shader g); log := log g |}.

Definition log_error (format : string) (g : Generator) : Generator :=
  {| shader := shader g; log := log g ++ [LOG_ERROR format] |}.

(** Generates condition evaluation code for the flow control instruction. *)
Definition EvaluateCondition (flow_control : FlowControlType) : Result string :=
  let result_x :=
    if refx flow_control then "conditional_code.x" else "!conditional_code.x" in
  let result_y :=
    if refy flow_control then "conditional_code.y" else "!conditional_code.y" in
  match op flow_control with
  | JustX => Ok result_x
  | JustY => Ok result_y
  | Or | And =>
      let and_or :=
        match op flow_control with Or => "any" | _ => "all" end in
      let bvec :=
        if refx flow_control && refy flow_control then "conditional_code"
        else if negb (refx flow_control) && negb (refy flow_control) then
          "not(conditional_code)"
        else "bvec2(" +:+ result_x +:+ ", " +:+ result_y +:+ ")" in
      Ok (and_or +:+ "(" +:+ bvec +:+ ")")
  | OtherFlowControlOp => Undefined "UNREACHABLE"
  end.

(** Generates code representing a bool uniform *)
Definition GetUniformBool (index : Z) : string :=
  "uniforms.b[" +:+ to_string index +:+ "]".

Section GeneratorMembers.

(** The constant members of [GLSLGenerator]. *)
Variable subroutines_ : list Subroutine.
Variable program_code : ProgramCode.
Variable swizzle_data : SwizzleData.
Variable main_offset : Z.
Variable inputreg_getter : RegGetter.
Variable outputreg_getter : RegGetter.
Variable sanitize_mul : bool.

(** Gets the Subroutine object corresponding to the specified address. *)
Definition GetSubroutine (begin end_ : Z) : Result Subroutine :=
  match subroutines_find (begin, end_) subroutines_ with
  | Some sub => Ok sub
  | None => Undefined "ASSERT(iter != subroutines.end())"
  end.

(** The character [("xyz")[i]] of a string literal, whose last element is
    the terminating zero. *)
Definition xyz_at (i : Z) : Result string :=
  if decide (i = 0) then Ok "x"
  else if decide (i = 1) then Ok "y"
  else if decide (i = 2) then Ok "z"
  else if decide (i = 3) then Ok (String "000"%char "")
  else Undefined "string literal index out of range".

(** Generates code representing a source register. *)
Definition GetSourceRegister (source_reg : SourceRegister)
    (address_register_index : Z) : Result string :=
  let index := u32 (src_GetIndex source_reg) in
  match src_GetRegisterType source_reg with
  | Input => Ok (inputreg_getter index)
  | Temporary => Ok ("reg_tmp" +:+ to_string index)
  | FloatUniform =>
      if decide (address_register_index <> 0) then
        c ← xyz_at (u32 (address_register_index - 1));
        Ok ("get_offset_register(" +:+ to_string index +:+
            ", address_registers." +:+ c +:+ ")")
      else Ok ("uniforms.f[" +:+ to_string index +:+ "]")
  | _ => Undefined "UNREACHABLE"
  end.

(** Generates code representing a destination register. *)
Definition GetDestRegister (dest_reg : DestRegister) : Result string :=
  let index := u32 (dest_GetIndex dest_reg) in
  match dest_GetRegisterType dest_reg with
  | Output => Ok (outputreg_getter index)
  | Temporary => Ok ("reg_tmp" +:+ to_string index)
  | _ => Undefined "UNREACHABLE"
  end.

(** Adds code that calls a subroutine. *)
Definition CallSubroutine (subroutine : Subroutine) (g : Generator) : Generator :=
  if decide (exit_method subroutine = AlwaysEnd) then
    emit "return true;" (emit (GetName subroutine +:+ "();") g)
  else if decide (exit_method subroutine = Conditional) then
    emit ("if (" +:+ GetName subroutine +:+ "()) { return true; }") g
  else emit (GetName subroutine +:+ "();") g.

(** The first loop of [SetDest]: the swizzle of the enabled destination
    components among the first [dest_num_components], and their number. *)
Fixpoint dest_mask (swizzle : SwizzlePattern) (n : nat) : string * Z :=
  match n with
  | O => (".", 0)
  | S i =>
      let '(dest_mask_swizzle, dest_mask_num_components) := dest_mask swizzle i in
      if DestComponentEnabled swizzle (Z.of_nat i) then
        (dest_mask_swizzle +:+
           string_of_list_ascii (take 1 (drop i (list_ascii_of_string "xyzw"))),
         dest_mask_num_components + 1)
      else (dest_mask_swizzle, dest_mask_num_components)
  end.

(** Writes code that does an assignment operation. *)
Definition SetDest (swizzle : SwizzlePattern) (reg value : string)
    (dest_num_components value_num_components : Z) (g : Generator) : Generator :=
  let '(dest_mask_swizzle, dest_mask_num_components) :=
    dest_mask swizzle (Z.to_nat dest_num_components) in
  if decide (reg = "" \/ dest_mask_num_components = 0) then g
  else
    let dest :=
      reg +:+ (if decide (dest_num_components <> 1) then dest_mask_swizzle else "") in
    let src :=
      if decide (value_num_components = 1) then
        if decide (dest_mask_num_components <> 1) then
          "vec" +:+ to_string dest_mask_num_components +:+ "(" +:+ value +:+ ")"
        else value
      else if decide (value_num_components <> dest_mask_num_components) then
        "(" +:+ value +:+ ")" +:+ dest_mask_swizzle
      else value in
    emit (dest +:+ " = " +:+ src +:+ ";") g.

(** [swizzle_data[swizzle_offset]] on a [std::array]. *)
Definition swizzle_at (swizzle_offset : Z) : Result SwizzlePattern :=
  if decide (0 <= swizzle_offset) then
    match swizzle_data !! Z.to_nat swizzle_offset with
    | Some pattern => Ok pattern
    | None => Undefined "swizzle_data index out of range"
    end
  else Undefined "swizzle_data index out of range".

(** An operand expression: [negate ? "-" : ""], the register, a dot and
    the selector. *)
Definition operand (negate : bool) (reg selector : Result string) : Result string :=
  r ← reg;
  s ← selector;
  Ok ((if negate then "-" else "") +:+ r +:+ "." +:+ s).

(** The operand strings [src1], [src2] and [dest_reg] built at the head of
    the [OpCode::Type::Arithmetic] case. *)
Definition ArithmeticOperands (instr : Instruction) (swizzle : SwizzlePattern)
    : Result (string * string * string) :=
  let is_inverted := SrcInversed (GetInfo (opcode instr)) in
  let c := common instr in
  src1 ← operand (negate_src1 swizzle)
            (GetSourceRegister (GetSrc1 c is_inverted)
               (if is_inverted then 0 else address_register_index c))
            (GetSelectorSrc1 swizzle);
  src2 ← operand (negate_src2 swizzle)
            (GetSourceRegister (GetSrc2 c is_inverted)
               (if is_inverted then address_register_index c else 0))
            (GetSelectorSrc2 swizzle);
  dest_reg ← GetDestRegister (dest c);
  Ok (src1, src2, dest_reg).

(** The operand strings [src1], [src2], [src3] and [dest_reg] of the
    [MAD] and [MADI] case. *)
Definition MultiplyAddOperands (instr : Instruction) (swizzle : SwizzlePattern)
    : Result (string * string * string * string) :=
  let is_inverted := bool_decide (EffectiveOpCode (opcode instr) = MADI) in
  let m := mad instr in
  src1 ← operand (negate_src1 swizzle)
            (GetSourceRegister (mad_GetSrc1 m is_inverted) 0)
            (GetSelectorSrc1 swizzle);
  src2 ← operand (negate_src2 swizzle)
            (GetSourceRegister (mad_GetSrc2 m is_inverted)
               (if is_inverted then 0 else mad_address_register_index m))
            (GetSelectorSrc2 swizzle);
  src3 ← operand (negate_src3 swizzle)
            (GetSourceRegister (mad_GetSrc3 m is_inverted)
               (if is_inverted then mad_address_register_index m else 0))
            (GetSelectorSrc3 swizzle);
  let dest_reg :=
    if decide (dest_value (mad_dest m) < 16) then
      outputreg_getter (u32 (dest_GetIndex (mad_dest m)))
    else if decide (dest_value (mad_dest m) < 32) then
      "reg_tmp" +:+ to_string (dest_GetIndex (mad_dest m))
    else "" in
  Ok (src1, src2, src3, dest_reg).

(** The table [cmp_ops] of the [CMP] case: the scalar operator and the
    vector function of each compare mode. *)
Definition cmp_ops : list (CompareOp * (string * string)) :=
  [ (Equal, ("==", "equal"));
    (NotEqual, ("!=", "notEqual"));
    (LessThan, ("<", "lessThan"));
    (LessEqual, ("<=", "lessThanEqual"));
    (GreaterThan, (">", "greaterThan"));
    (GreaterEqual, (">=", "greaterThanEqual")) ].

(** [cmp_ops.find(op)]; [None] is [cmp_ops.end()]. *)
Definition cmp_ops_find (op : CompareOp) : option (string * string) :=
  snd <$> List.find (fun entry => bool_decide (fst entry = op)) cmp_ops.

(** The [OpCode::Type::Arithmetic] case of [CompileInstr], after the three
    operand strings have been built. *)
Definition CompileArithmetic (instr : Instruction) (swizzle : SwizzlePattern)
    (src1 src2 dest_reg : string) (g : Generator) : Result Generator :=
  match EffectiveOpCode (opcode instr) with
  | ADD => Ok (SetDest swizzle dest_reg (src1 +:+ " + " +:+ src2) 4 4 g)
  | MUL =>
      if sanitize_mul then
        Ok (SetDest swizzle dest_reg
              ("sanitize_mul(" +:+ src1 +:+ ", " +:+ src2 +:+ ")") 4 4 g)
      else Ok (SetDest swizzle dest_reg (src1 +:+ " * " +:+ src2) 4 4 g)
  | FLR => Ok (SetDest swizzle dest_reg ("floor(" +:+ src1 +:+ ")") 4 4 g)
  | MAX =>
      if sanitize_mul then
        Ok (SetDest swizzle dest_reg
              ("mix(" +:+ src2 +:+ ", " +:+ src1 +:+ ", greaterThan(" +:+ src1
               +:+ ", " +:+ src2 +:+ "))") 4 4 g)
      else
        Ok (SetDest swizzle dest_reg
              ("max(" +:+ src1 +:+ ", " +:+ src2 +:+ ")") 4 4 g)
  | MIN =>
      if sanitize_mul then
        Ok (SetDest swizzle dest_reg
              ("mix(" +:+ src2 +:+ ", " +:+ src1 +:+ ", lessThan(" +:+ src1
               +:+ ", " +:+ src2 +:+ "))") 4 4 g)
      else
        Ok (SetDest swizzle dest_reg
              ("min(" +:+ src1 +:+ ", " +:+ src2 +:+ ")") 4 4 g)
  | DP3 | DP4 | DPH | DPHI =>
      let opcode := EffectiveOpCode (opcode instr) in
      let dot :=
        if decide (opcode = DP3) then
          if sanitize_mul then
            "dot(vec3(sanitize_mul(" +:+ src1 +:+ ", " +:+ src2 +:+ ")), vec3(1.0))"
          else "dot(vec3(" +:+ src1 +:+ "), vec3(" +:+ src2 +:+ "))"
        else
          if sanitize_mul then
            let src1_ :=
              if decide (opcode = DPH \/ opcode = DPHI) then
                "vec4(" +:+ src1 +:+ ".xyz, 1.0)"
              else src1 in
            "dot(sanitize_mul(" +:+ src1_ +:+ ", " +:+ src2 +:+ "), vec4(1.0))"
          else "dot(" +:+ src1 +:+ ", " +:+ src2 +:+ ")" in
      Ok (SetDest swizzle dest_reg dot 4 1 g)
  | RCP =>
      let g :=
        if negb sanitize_mul then
          (* When accurate multiplication is OFF, NaN are not really handled.
             This is a workaround to cheaply avoid NaN. *)
          emit ("if (" +:+ src1 +:+ ".x != 0.0)") g
        else g in
      Ok (SetDest swizzle dest_reg ("(1.0 / " +:+ src1 +:+ ".x)") 4 1 g)
  | RSQ =>
      let g :=
        if negb sanitize_mul then
          emit ("if (" +:+ src1 +:+ ".x > 0.0)") g
        else g in
      Ok (SetDest swizzle dest_reg ("inversesqrt(" +:+ src1 +:+ ".x)") 4 1 g)
  | MOVA =>
      Ok (SetDest swizzle "address_registers" ("ivec2(" +:+ src1 +:+ ")") 2 2 g)
  | MOV => Ok (SetDest swizzle dest_reg src1 4 4 g)
  | SGE | SGEI =>
      Ok (SetDest swizzle dest_reg
            ("vec4(greaterThanEqual(" +:+ src1 +:+ ", " +:+ src2 +:+ "))") 4 4 g)
  | SLT | SLTI =>
      Ok (SetDest swizzle dest_reg
            ("vec4(lessThan(" +:+ src1 +:+ ", " +:+ src2 +:+ "))") 4 4 g)
  | CMP =>
      let op_x := compare_op_x (compare_op (common instr)) in
      let op_y := compare_op_y (compare_op (common instr)) in
      match cmp_ops_find op_x, cmp_ops_find op_y with
      | None, _ => Ok (log_error "Unknown compare mode {:x}" g)
      | Some _, None => Ok (log_error "Unknown compare mode {:x}" g)
      | Some found_x, Some found_y =>
          if decide (op_x <> op_y) then
            Ok (emit ("conditional_code.y = " +:+ src1 +:+ ".y " +:+ found_y.1
                      +:+ " " +:+ src2 +:+ ".y;")
                  (emit ("conditional_code.x = " +:+ src1 +:+ ".x " +:+ found_x.1
                         +:+ " " +:+ src2 +:+ ".x;") g))
          else
            Ok (emit ("conditional_code = " +:+ found_x.2 +:+ "(vec2(" +:+ src1
                      +:+ "), vec2(" +:+ src2 +:+ "));") g)
      end
  | EX2 => Ok (SetDest swizzle dest_reg ("exp2(" +:+ src1 +:+ ".x)") 4 1 g)
  | LG2 => Ok (SetDest swizzle dest_reg ("log2(" +:+ src1 +:+ ".x)") 4 1 g)
  | _ =>
      (* LOG_ERROR("Unhandled arithmetic instruction: ...") precedes the throw;
         the generator and its log are discarded with it. *)
      Throw "Unhandled instruction"
  end.

(** The [OpCode::Type::MultiplyAdd] case of [CompileInstr]. *)
Definition CompileMultiplyAdd (instr : Instruction) (swizzle : SwizzlePattern)
    (g : Generator) : Result Generator :=
  if decide (EffectiveOpCode (opcode instr) = MAD
             \/ EffectiveOpCode (opcode instr) = MADI) then
    '(src1, src2, src3, dest_reg) ← MultiplyAddOperands instr swizzle;
    if sanitize_mul then
      Ok (SetDest swizzle dest_reg
            ("sanitize_mul(" +:+ src1 +:+ ", " +:+ src2 +:+ ") + " +:+ src3) 4 4 g)
    else
      Ok (SetDest swizzle dest_reg
            (src1 +:+ " * " +:+ src2 +:+ " + " +:+ src3) 4 4 g)
  else
    Throw "Unhandled instruction".

(** The flow control cases of [CompileInstr] (the [default] branch of the
    switch over the instruction type).  Returns the updated local [offset]
    with the generator. *)
Definition CompileFlowControl (instr : Instruction) (offset : Z) (g : Generator)
    : Result (Z * Generator) :=
  let fc := flow_control instr in
  match Value (opcode instr) with
  | END => Ok (u32 (PROGRAM_END - 1), emit "return true;" g)
  | JMPC | JMPU =>
      condition ←
        (if decide (Value (opcode instr) = JMPC) then EvaluateCondition fc
         else
           let invert_test := Z.odd (num_instructions fc) in
           Ok ((if invert_test then "!" else "") +:+
               GetUniformBool (bool_uniform_id fc)));
      let g := emit ("if (" +:+ condition +:+ ") {") g in
      let g := rescope 1 g in
      let g := emit ("{ jmp_to = " +:+ to_string (dest_offset fc) +:+ "u; break; }") g in
      let g := rescope (-1) g in
      Ok (offset, emit "}" g)
  | CALL | CALLC | CALLU =>
      condition ←
        (if decide (Value (opcode instr) = CALLC) then EvaluateCondition fc
         else if decide (Value (opcode instr) = CALLU) then
           Ok (GetUniformBool (bool_uniform_id fc))
         else Ok "");
      let g :=
        if decide (condition = "") then emit "{" g
        else emit ("if (" +:+ condition +:+ ") {") g in
      let g := rescope 1 g in
      call_sub ← GetSubroutine (dest_offset fc)
                   (u32 (dest_offset fc + num_instructions fc));
      let g := CallSubroutine call_sub g in
      let offset :=
        if decide (Value (opcode instr) = CALL /\ exit_method call_sub = AlwaysEnd)
        then u32 (PROGRAM_END - 1) else offset in
      let g := rescope (-1) g in
      Ok (offset, emit "}" g)
  | NOP => Ok (offset, g)
  | IFC | IFU =>
      condition ←
        (if decide (Value (opcode instr) = IFC) then EvaluateCondition fc
         else Ok (GetUniformBool (bool_uniform_id fc)));
      let if_offset := u32 (offset + 1) in
      let else_offset := dest_offset fc in
      let endif_offset := u32 (dest_offset fc + num_instructions fc) in
      let g := emit ("if (" +:+ condition +:+ ") {") g in
      let g := rescope 1 g in
      if_sub ← GetSubroutine if_offset else_offset;
      let g := CallSubroutine if_sub g in
      let offset := u32 (else_offset - 1) in
      '(offset, g) ←
        (if decide (num_instructions fc <> 0) then
           let g := rescope (-1) g in
           let g := emit "} else {" g in
           let g := rescope 1 g in
           else_sub ← GetSubroutine else_offset endif_offset;
           let g := CallSubroutine else_sub g in
           let offset := u32 (endif_offset - 1) in
           if decide (exit_method if_sub = AlwaysEnd
                      /\ exit_method else_sub = AlwaysEnd) then
             Ok (u32 (PROGRAM_END - 1), g)
           else Ok (offset, g)
         else Ok (offset, g));
      let g := rescope (-1) g in
      Ok (offset, emit "}" g)
  | LOOP =>
      let int_uniform := "uniforms.i[" +:+ to_string (int_uniform_id fc) +:+ "]" in
      let g := emit ("address_registers.z = int(" +:+ int_uniform +:+ ".y);") g in
      let loop_var := "loop" +:+ to_string offset in
      let g :=
        emit ("for (uint " +:+ loop_var +:+ " = 0u; " +:+ loop_var +:+ " <= "
              +:+ int_uniform +:+ ".x; address_registers.z += int(" +:+ int_uniform
              +:+ ".z), ++" +:+ loop_var +:+ ") {") g in
      let g := rescope 1 g in
      loop_sub ← GetSubroutine (u32 (offset + 1)) (u32 (dest_offset fc + 1));
      let g := CallSubroutine loop_sub g in
      let offset := dest_offset fc in
      let g := rescope (-1) g in
      let g := emit "}" g in
      if decide (exit_method loop_sub = AlwaysEnd) then
        Ok (u32 (PROGRAM_END - 1), g)
      else Ok (offset, g)
  | EMIT | SETEMIT =>
      Ok (offset, log_error "Geometry shader operation detected in vertex shader" g)
  | _ =>
      (* LOG_ERROR("Unhandled instruction: ...") precedes the throw. *)
      Throw "Unhandled instruction"
  end.

(** Compiles a single instruction from PICA to GLSL.  Returns the offset of
    the next instruction to execute. *)
Definition CompileInstr (offset : Z) (g : Generator) : Result (Z * Generator) :=
  instr ← code_at program_code offset;
  let swizzle_offset :=
    match type (GetInfo (opcode instr)) with
    | MultiplyAdd => mad_operand_desc_id (mad instr)
    | _ => operand_desc_id (common instr)
    end in
  swizzle ← swizzle_at swizzle_offset;
  let g :=
    emit ("// " +:+ to_string offset +:+ ": " +:+ name (GetInfo (opcode instr))) g in
  '(offset, g) ←
    match type (GetInfo (opcode instr)) with
    | Arithmetic =>
        '(src1, src2, dest_reg) ← ArithmeticOperands instr swizzle;
        g ← CompileArithmetic instr swizzle src1 src2 dest_reg g;
        Ok (offset, g)
    | MultiplyAdd =>
        g ← CompileMultiplyAdd instr swizzle g;
        Ok (offset, g)
    | OtherType => CompileFlowControl instr offset g
    end;
  Ok (u32 (offset + 1), g).

(** The loop bound [begin > end ? PROGRAM_END : end] of [CompileRange]. *)
Definition range_bound (begin end_ : Z) : Z :=
  if decide (begin > end_) then PROGRAM_END else end_.

(** The [for] loop of [CompileRange] from a given [program_counter] on; one
    unit of fuel per iteration. *)
Fixpoint CompileRangeLoop (fuel : nat) (program_counter bound : Z) (g : Generator)
    : Result (Z * Generator) :=
  match fuel with
  | O => OutOfFuel
  | S fuel =>
      if decide (program_counter < bound) then
        '(program_counter, g) ← CompileInstr program_counter g;
        CompileRangeLoop fuel program_counter bound g
      else Ok (program_counter, g)
  end.

(** Compiles a range of instructions from PICA to GLSL.  Returns the offset
    of the next instruction to compile, PROGRAM_END if the program
    terminates. *)
Definition CompileRange (fuel : nat) (begin end_ : Z) (g : Generator)
    : Result (Z * Generator) :=
  CompileRangeLoop fuel begin (range_bound begin end_) g.

(** The range-based [for] over [labels] in [Generate], entered at [label].
    The loop inserts into the set it iterates over; the iterator then moves
    on to the least element above [label]. *)
Fixpoint CompileLabels (fuel : nat) (subroutine : Subroutine) (label : Z)
    (labels : list Z) (g : Generator) : Result Generator :=
  match fuel with
  | O => OutOfFuel
  | S fuel =>
      let g := emit ("case " +:+ to_string label +:+ "u: {") g in
      let g := rescope 1 g in
      let next_label :=
        match lower_bound (u32 (label + 1)) labels with
        | None => end_ subroutine
        | Some next => next
        end in
      '(compile_end, g) ← CompileRange fuel label next_label g;
      let '(labels, g) :=
        if decide (compile_end > next_label /\ compile_end <> PROGRAM_END) then
          (* This happens only when there is a label inside a IF/LOOP block *)
          (labels_insert compile_end labels,
           emit ("{ jmp_to = " +:+ to_string compile_end +:+ "u; break; }") g)
        else (labels, g) in
      let g := rescope (-1) g in
      let g := emit "}" g in
      match lower_bound (label + 1) labels with
      | None => Ok g
      | Some next => CompileLabels fuel subroutine next labels g
      end
  end.

(** The definition of one subroutine (the body of the last loop of
    [Generate]). *)
Definition GenerateSubroutine (fuel : nat) (subroutine : Subroutine) (g : Generator)
    : Result Generator :=
  let labels := labels subroutine in
  let g := emit ("bool " +:+ GetName subroutine +:+ "() {") g in
  let g := rescope 1 g in
  g ←
    (if decide (labels = []) then
       '(compile_end, g) ← CompileRange fuel (begin subroutine) (end_ subroutine) g;
       if decide (compile_end <> PROGRAM_END) then Ok (emit "return false;" g)
       else Ok g
     else
       let labels := labels_insert (begin subroutine) labels in
       let g := emit ("uint jmp_to = " +:+ to_string (begin subroutine) +:+ "u;") g in
       let g := emit "while (true) {" g in
       let g := rescope 1 g in
       let g := emit "switch (jmp_to) {" g in
       g ←
         match labels with
         | [] => Ok g
         | first :: _ => CompileLabels fuel subroutine first labels g
         end;
       let g := emit "default: return false;" g in
       let g := emit "}" g in
       let g := rescope (-1) g in
       let g := emit "}" g in
       Ok (emit "return false;" g));
  let g := rescope (-1) g in
  Ok (emit ("}" +:+ newline) g).

Fixpoint GenerateSubroutines (fuel : nat) (subs : list Subroutine) (g : Generator)
    : Result Generator :=
  match subs with
  | [] => Ok g
  | subroutine :: rest =>
      g ← GenerateSubroutine fuel subroutine g;
      GenerateSubroutines fuel rest g
  end.

(** [for (int i = 0; i < 16; ++i) shader.AddLine("vec4 reg_tmp{} = ...", i);] *)
Definition declare_reg_tmp (g : Generator) : Generator :=
  foldl (fun g i =>
           emit ("vec4 reg_tmp" +:+ to_string i +:+ " = vec4(0.0, 0.0, 0.0, 1.0);") g)
    g (seqZ 0 16).

Definition Generate (fuel : nat) (g : Generator) : Result Generator :=
  let g :=
    if sanitize_mul then
      let g := emit "vec4 sanitize_mul(vec4 lhs, vec4 rhs) {" g in
      let g := rescope 1 g in
      let g := emit "vec4 product = lhs * rhs;" g in
      let g :=
        emit ("return mix(product, mix(mix(vec4(0.0), product, isnan(rhs)), product, "
              +:+ "isnan(lhs)), isnan(product));") g in
      let g := rescope (-1) g in
      emit ("}" +:+ newline) g
    else g in
  let g := emit "vec4 get_offset_register(int base_index, int offset) {" g in
  let g := rescope 1 g in
  let g := emit "int fixed_offset = offset >= -128 && offset <= 127 ? offset : 0;" g in
  let g := emit "uint index = uint((base_index + fixed_offset) & 0x7F);" g in
  let g := emit "return index < 96u ? uniforms.f[index] : vec4(1.0);" g in
  let g := rescope (-1) g in
  let g := emit ("}" +:+ newline) g in
  (* Add declarations for registers *)
  let g := emit "bvec2 conditional_code = bvec2(false);" g in
  let g := emit "ivec3 address_registers = ivec3(0);" g in
  let g := declare_reg_tmp g in
  let g := {| shader := AddNewLine (shader g); log := log g |} in
  (* Add declarations for all subroutines *)
  let g :=
    foldl (fun g subroutine => emit ("bool " +:+ GetName subroutine +:+ "();") g)
      g subroutines_ in
  let g := {| shader := AddNewLine (shader g); log := log g |} in
  (* Add the main entry point *)
  let g := emit "bool exec_shader() {" g in
  let g := rescope 1 g in
  main ← GetSubroutine main_offset PROGRAM_END;
  let g := CallSubroutine main g in
  let g := rescope (-1) g in
  let g := emit ("}" +:+ newline) g in
  (* Add definitions for all subroutines *)
  GenerateSubroutines fuel subroutines_ g.

(** The constructor of [GLSLGenerator] followed by [MoveShaderCode()]. *)
Definition GLSLGenerator (fuel : nat) : Result string :=
  g ← Generate fuel
         {| shader := {| shader_source := ""; scope := 0 |}; log := [] |};
  Ok (shader_source (shader g)).

End GeneratorMembers.

(** The public entry point.  The [catch] clause names [DecompileFail] only,
    so any other outcome passes through it unchanged. *)
Definition DecompileProgram (fuel : nat) (program_code : ProgramCode)
    (swizzle_data : SwizzleData) (main_offset : Z)
    (inputreg_getter outputreg_getter : RegGetter) (sanitize_mul : bool)
    : Result string :=
  match
    subroutines ← ControlFlowAnalyzer program_code fuel main_offset;
    GLSLGenerator subroutines program_code swizzle_data main_offset
      inputreg_getter outputreg_getter sanitize_mul fuel
  with
  | Throw what =>
      (* LOG_INFO(HW_GPU, "Shader decompilation failed: {}", exception.what()) *)
      Ok ""
  | outcome => outcome
  end.

End Decompiler.

(** ** Sample words and arrays

    Concrete views, used to run the definitions above. *)

Definition temporary (index : Z) : SourceRegister :=
  {| src_GetRegisterType := Temporary; src_GetIndex := index |}.

Definition temporary_dest (index : Z) : DestRegister :=
  {| dest_value := 16 + index; dest_GetRegisterType := Temporary;
     dest_GetIndex := index |}.

Definition sample_common (x y : CompareOp) : Common :=
  {| operand_desc_id := 0;
     GetSrc1 := fun _ => temporary 1;
     GetSrc2 := fun _ => temporary 2;
     address_register_index := 0;
     compare_op := {| compare_op_x := x; compare_op_y := y |};
     dest := temporary_dest 0 |}.

Definition sample_mad : Mad :=
  {| mad_operand_desc_id := 0;
     mad_GetSrc1 := fun _ => temporary 1;
     mad_GetSrc2 := fun _ => temporary 2;
     mad_GetSrc3 := fun _ => temporary 3;
     mad_address_register_index := 0;
     mad_dest := temporary_dest 0 |}.

Definition sample_flow_control (dest num : Z) : FlowControlType :=
  {| num_instructions := num; dest_offset := dest; op := JustX;
     bool_uniform_id := 0; int_uniform_id := 0; refx := true; refy := true |}.

(** A word of the given type and opcode. *)
Definition word (ty : OpCodeType) (id : OpCodeId) (mnemonic : string)
    (x y : CompareOp) (dest num : Z) : Instruction :=
  {| hex := 0;
     opcode := {| Value := id; EffectiveOpCode := id;
                  GetInfo := {| type := ty; SrcInversed := false;
                                name := mnemonic |} |};
     common := sample_common x y;
     mad := sample_mad;
     flow_control := sample_flow_control dest num |}.

Definition arithmetic (id : OpCodeId) (mnemonic : string) : Instruction :=
  word Arithmetic id mnemonic Equal Equal 0 0.

Definition compare (x y : CompareOp) : Instruction :=
  word Arithmetic CMP "cmp" x y 0 0.

Definition flow (id : OpCodeId) (mnemonic : string) (dest num : Z) : Instruction :=
  word OtherType id mnemonic Equal Equal dest num.

Definition nop : Instruction := flow NOP "nop" 0 0.

(** An array of [n] words that starts with [words] and goes on with NOPs. *)
Definition array (n : nat) (words : list Instruction) : ProgramCode :=
  words ++ repeat nop (n - length words).

Definition identity_selector (i : Z) : Selector :=
  if decide (i = 0) then Selector_x
  else if decide (i = 1) then Selector_y
  else if decide (i = 2) then Selector_z
  else Selector_w.

(** A swizzle pattern that negates nothing, selects [xyzw] and writes the
    components [enabled] allows. *)
Definition swizzle_of (enabled : Z -> bool) : SwizzlePattern :=
  {| negate_src1 := false; negate_src2 := false; negate_src3 := false;
     SelectorSrc1 := identity_selector;
     SelectorSrc2 := identity_selector;
     SelectorSrc3 := identity_selector;
     DestComponentEnabled := enabled |}.

Definition full_mask : SwizzlePattern := swizzle_of (fun _ => true).
Definition empty_mask : SwizzlePattern := swizzle_of (fun _ => false).

Definition vs_in (index : Z) : string := "vs_in_reg" +:+ to_string index.
Definition vs_out (index : Z) : string := "vs_out_reg" +:+ to_string index.

Definition fresh : Generator :=
  {| shader := {| shader_source := ""; scope := 0 |}; log := [] |}.

(** ** The exit-method merge laws *)

(** C1.  [ParallelExit] returns the other argument when one is
    [Undetermined], the common value when both agree, and [Conditional] for
    every other mix; [SeriesExit] returns its second argument after
    [AlwaysReturn], [Undetermined] after [Undetermined], and otherwise
    [AlwaysEnd] when the second argument is [Undetermined] or [AlwaysEnd] and
    [Conditional] in the remaining cases. *)
Theorem exit_method_merge_laws :
  (forall X, ParallelExit Undetermined X = X) /\
  (forall X, ParallelExit X Undetermined = X) /\
  (forall X, ParallelExit X X = X) /\
  (forall a b, a <> Undetermined -> b <> Undetermined -> a <> b ->
     ParallelExit a b = Conditional) /\
  ParallelExit AlwaysEnd Conditional = Conditional /\
  (forall X, SeriesExit AlwaysReturn X = X) /\
  (forall X, SeriesExit Undetermined X = Undetermined) /\
  (forall a b, a <> AlwaysReturn -> a <> Undetermined ->
     b = Undetermined \/ b = AlwaysEnd -> SeriesExit a b = AlwaysEnd) /\
  (forall a b, a <> AlwaysReturn -> a <> Undetermined ->
     b <> Undetermined -> b <> AlwaysEnd -> SeriesExit a b = Conditional).
Proof.
  repeat split; try (by intros []).
  - by intros [] [] ???.
  - by intros [] [] ?? [?|?].
  - by intros [] [] ????.
Qed.

Lemma exit_method_merge_laws_witness :
  ParallelExit AlwaysReturn AlwaysEnd = Conditional /\
  SeriesExit Conditional AlwaysEnd = AlwaysEnd /\
  SeriesExit Conditional AlwaysReturn = Conditional.
Proof.
  destruct exit_method_merge_laws as (_ & _ & _ & Hmix & _ & _ & _ & Hend & Hcond).
  split; [apply Hmix; discriminate|].
  split; [apply Hend; [discriminate..|by right]|apply Hcond; discriminate].
Defined.

(** ** The text of single instructions *)

(** The line [CompileInstr] writes ahead of every instruction. *)
Definition comment (offset : Z) (instr : Instruction) : string :=
  "// " +:+ to_string offset +:+ ": " +:+ name (GetInfo (opcode instr)).

(** The six compare modes [cmp_ops] has an entry for. *)
Definition supported (op : CompareOp) : Prop :=
  match op with OtherCompareOp _ => False | _ => True end.

Section CompileInstrFacts.

Variable MAX_PROGRAM_CODE_LENGTH : Z.
Variable subroutines : list Subroutine.
Variable program_code : ProgramCode.
Variable swizzle_data : SwizzleData.
Variable inputreg_getter outputreg_getter : RegGetter.

Local Abbreviation CompileInstr_ sanitize_mul :=
  (CompileInstr MAX_PROGRAM_CODE_LENGTH subroutines program_code swizzle_data
     inputreg_getter outputreg_getter sanitize_mul).

(** The word at [offset] is an arithmetic instruction whose swizzle pattern
    is [swizzle] and whose operands read [src1], [src2] and [dest_reg]. *)
Definition ArithmeticAt (offset : Z) (instr : Instruction)
    (swizzle : SwizzlePattern) (src1 src2 dest_reg : string) : Prop :=
  code_at MAX_PROGRAM_CODE_LENGTH program_code offset = Ok instr /\
  type (GetInfo (opcode instr)) = Arithmetic /\
  swizzle_at swizzle_data (operand_desc_id (common instr)) = Ok swizzle /\
  ArithmeticOperands inputreg_getter outputreg_getter instr swizzle
    = Ok (src1, src2, dest_reg).

(** The word at [offset] is a multiply-add instruction. *)
Definition MultiplyAddAt (offset : Z) (instr : Instruction)
    (swizzle : SwizzlePattern) (src1 src2 src3 dest_reg : string) : Prop :=
  code_at MAX_PROGRAM_CODE_LENGTH program_code offset = Ok instr /\
  type (GetInfo (opcode instr)) = MultiplyAdd /\
  (EffectiveOpCode (opcode instr) = MAD \/ EffectiveOpCode (opcode instr) = MADI) /\
  swizzle_at swizzle_data (mad_operand_desc_id (mad instr)) = Ok swizzle /\
  MultiplyAddOperands inputreg_getter outputreg_getter instr swizzle
    = Ok (src1, src2, src3, dest_reg).

Lemma CompileInstr_Arithmetic sanitize_mul offset g instr swizzle src1 src2 dest_reg :
  ArithmeticAt offset instr swizzle src1 src2 dest_reg ->
  CompileInstr_ sanitize_mul offset g =
    (g ← CompileArithmetic sanitize_mul instr swizzle src1 src2 dest_reg
           (emit (comment offset instr) g);
     Ok (u32 (offset + 1), g)).
Proof.
  intros (Hcode & Htype & Hswizzle & Hoperands).
  unfold CompileInstr. rewrite Hcode. cbn [mbind Result_bind].
  rewrite Htype, Hswizzle. cbn [mbind Result_bind].
  rewrite Hoperands. cbn [mbind Result_bind]. fold (comment offset instr).
  by destruct (CompileArithmetic _ _ _ _ _ _ _).
Qed.

Lemma CompileInstr_MultiplyAdd sanitize_mul offset g instr swizzle
    src1 src2 src3 dest_reg :
  MultiplyAddAt offset instr swizzle src1 src2 src3 dest_reg ->
  CompileInstr_ sanitize_mul offset g =
    Ok (u32 (offset + 1),
        SetDest swizzle dest_reg
          (if sanitize_mul then
             "sanitize_mul(" +:+ src1 +:+ ", " +:+ src2 +:+ ") + " +:+ src3
           else src1 +:+ " * " +:+ src2 +:+ " + " +:+ src3) 4 4
          (emit (comment offset instr) g)).
Proof.
  intros (Hcode & Htype & Hop & Hswizzle & Hoperands).
  unfold CompileInstr. rewrite Hcode. cbn [mbind Result_bind].
  rewrite Htype, Hswizzle. cbn [mbind Result_bind].
  unfold CompileMultiplyAdd. rewrite decide_True by done.
  rewrite Hoperands. cbn [mbind Result_bind]. fold (comment offset instr).
  by destruct sanitize_mul.
Qed.

(** What [SetDest] writes for a four-component value into a four-component
    register. *)
Lemma SetDest_4_4 swizzle reg value g :
  SetDest swizzle reg value 4 4 g =
    let '(mask, n) := dest_mask swizzle 4 in
    if decide (reg = "" \/ n = 0) then g
    else
      emit ((reg +:+ mask) +:+ " = " +:+
            (if decide (n = 4) then value else "(" +:+ value +:+ ")" +:+ mask)
            +:+ ";") g.
Proof.
  unfold SetDest. change (Z.to_nat 4) with 4%nat.
  destruct (dest_mask swizzle 4) as [mask n].
  destruct (decide (reg = "" \/ n = 0)); [done|].
  rewrite decide_True by done. rewrite decide_False by done.
  destruct (decide (n = 4)) as [->|Hn].
  - by rewrite decide_False by (intros ?; done).
  - by rewrite decide_True by congruence.
Qed.

(** [SetDest] writes nothing when the swizzle pattern enables no
    destination component. *)
Lemma dest_mask_none swizzle n :
  (forall i, DestComponentEnabled swizzle i = false) ->
  dest_mask swizzle n = (".", 0).
Proof.
  intros Hnone. induction n as [|n IH]; [done|].
  cbn [dest_mask]. by rewrite IH, Hnone.
Qed.

Lemma SetDest_masked swizzle reg value dest_num value_num g :
  (forall i, DestComponentEnabled swizzle i = false) ->
  SetDest swizzle reg value dest_num value_num g = g.
Proof.
  intros Hnone. unfold SetDest. rewrite dest_mask_none by done.
  by rewrite decide_True by (by right).
Qed.

(** C6, as amended.  For a MUL instruction the value handed to [SetDest] is
    the call [sanitize_mul(src1, src2)] when [sanitize_mul] is set and the
    product [src1 * src2] when it is clear; for MAD and MADI it is that call
    or product followed by [+ src3].  [SetDest] writes the assignment that
    carries the value exactly when the destination register is named and the
    swizzle pattern enables one of its four components; otherwise the
    instruction leaves only its comment line. *)
Theorem sanitize_mul_selects_multiplication sanitize_mul offset g instr swizzle :
  code_at MAX_PROGRAM_CODE_LENGTH program_code offset = Ok instr ->
  (forall src1 src2 dest_reg,
     ArithmeticAt offset instr swizzle src1 src2 dest_reg ->
     EffectiveOpCode (opcode instr) = MUL ->
     CompileInstr_ sanitize_mul offset g =
       Ok (u32 (offset + 1),
           SetDest swizzle dest_reg
             (if sanitize_mul then
                "sanitize_mul(" +:+ src1 +:+ ", " +:+ src2 +:+ ")"
              else src1 +:+ " * " +:+ src2) 4 4
             (emit (comment offset instr) g))) /\
  (forall src1 src2 src3 dest_reg,
     MultiplyAddAt offset instr swizzle src1 src2 src3 dest_reg ->
     CompileInstr_ sanitize_mul offset g =
       Ok (u32 (offset + 1),
           SetDest swizzle dest_reg
             (if sanitize_mul then
                "sanitize_mul(" +:+ src1 +:+ ", " +:+ src2 +:+ ") + " +:+ src3
              else src1 +:+ " * " +:+ src2 +:+ " + " +:+ src3) 4 4
             (emit (comment offset instr) g))) /\
  (forall reg value g,
     SetDest swizzle reg value 4 4 g =
       let '(mask, n) := dest_mask swizzle 4 in
       if decide (reg = "" \/ n = 0) then g
       else
         emit ((reg +:+ mask) +:+ " = " +:+
               (if decide (n = 4) then value else "(" +:+ value +:+ ")" +:+ mask)
               +:+ ";") g).
Proof.
  intros _. split; [|split].
  - intros src1 src2 dest_reg Hat Hop.
    rewrite (CompileInstr_Arithmetic _ _ _ _ _ _ _ _ Hat).
    unfold CompileArithmetic. rewrite Hop. by destruct sanitize_mul.
  - intros src1 src2 src3 dest_reg Hat.
    by apply CompileInstr_MultiplyAdd.
  - apply SetDest_4_4.
Qed.


Lemma cmp_ops_find_supported op :
  supported op <-> is_Some (cmp_ops_find op).
Proof.
  destruct op; cbn; split; try done; try (by eexists).
  intros [entry Hentry]. unfold cmp_ops_find in Hentry. cbn in Hentry.
  repeat (rewrite bool_decide_eq_false_2 in Hentry by discriminate; cbn in Hentry).
  discriminate.
Qed.


(** C10.  For a CMP instruction one of whose compare modes has no entry in
    [cmp_ops], the generator writes the comment line and nothing else, logs
    one error, and goes on to the next word; an arithmetic word whose
    effective opcode has no case of its own throws [DecompileFail]. *)
Theorem CMP_unknown_operator_is_skipped sanitize_mul offset g instr swizzle
    src1 src2 dest_reg :
  ArithmeticAt offset instr swizzle src1 src2 dest_reg ->
  (EffectiveOpCode (opcode instr) = CMP ->
   ~ (supported (compare_op_x (compare_op (common instr))) /\
      supported (compare_op_y (compare_op (common instr)))) ->
   CompileInstr_ sanitize_mul offset g =
     Ok (u32 (offset + 1),
         {| shader := AddLine (comment offset instr) (shader g);
            log := log g ++ [LOG_ERROR "Unknown compare mode {:x}"] |})) /\
  (EffectiveOpCode (opcode instr)
     ∉ [ADD; MUL; FLR; MAX; MIN; DP3; DP4; DPH; DPHI; RCP; RSQ; MOVA; MOV;
        SGE; SGEI; SLT; SLTI; CMP; EX2; LG2] ->
   CompileInstr_ sanitize_mul offset g = Throw "Unhandled instruction").
Proof.
  intros Hat. split.
  - intros Hop Hunknown.
    rewrite (CompileInstr_Arithmetic _ _ _ _ _ _ _ _ Hat).
    unfold CompileArithmetic. rewrite Hop.
    destruct (cmp_ops_find (compare_op_x _)) as [found_x|] eqn:Hx; [|done].
    destruct (cmp_ops_find (compare_op_y _)) as [found_y|] eqn:Hy; [|done].
    destruct Hunknown. split; apply cmp_ops_find_supported; by eexists.
  - intros Hop. rewrite (CompileInstr_Arithmetic _ _ _ _ _ _ _ _ Hat).
    unfold CompileArithmetic.
    destruct (EffectiveOpCode (opcode instr)); try done;
      exfalso; apply Hop; set_solver.
Qed.

End CompileInstrFacts.

(** *** Single instructions, run *)

(** The sample arithmetic word, alone at the head of a program, reads
    [reg_tmp1] and [reg_tmp2] and writes [reg_tmp0]. *)
Lemma ArithmeticAt_sample id mnemonic x y enabled :
  ArithmeticAt 4096 (array 4096 [word Arithmetic id mnemonic x y 0 0])
    [swizzle_of enabled] vs_in vs_out 0 (word Arithmetic id mnemonic x y 0 0)
    (swizzle_of enabled) "reg_tmp1.xyzw" "reg_tmp2.xyzw" "reg_tmp0".
Proof. by repeat split. Defined.

Lemma sanitize_mul_selects_multiplication_witness :
  CompileInstr 4096 [] (array 4096 [arithmetic MUL "mul"]) [full_mask]
    vs_in vs_out true 0 fresh
  = Ok (1, emit "reg_tmp0.xyzw = sanitize_mul(reg_tmp1.xyzw, reg_tmp2.xyzw);"
             (emit "// 0: mul" fresh)) /\
  CompileInstr 4096 [] (array 4096 [arithmetic MUL "mul"]) [full_mask]
    vs_in vs_out false 0 fresh
  = Ok (1, emit "reg_tmp0.xyzw = reg_tmp1.xyzw * reg_tmp2.xyzw;"
             (emit "// 0: mul" fresh)).
Proof.
  split.
  - destruct (sanitize_mul_selects_multiplication 4096 []
                (array 4096 [arithmetic MUL "mul"]) [full_mask] vs_in vs_out
                true 0 fresh (arithmetic MUL "mul") full_mask eq_refl)
      as (Hmul & _ & _).
    rewrite (Hmul _ _ _ (ArithmeticAt_sample MUL "mul" Equal Equal _) eq_refl).
    reflexivity.
  - destruct (sanitize_mul_selects_multiplication 4096 []
                (array 4096 [arithmetic MUL "mul"]) [full_mask] vs_in vs_out
                false 0 fresh (arithmetic MUL "mul") full_mask eq_refl)
      as (Hmul & _ & _).
    rewrite (Hmul _ _ _ (ArithmeticAt_sample MUL "mul" Equal Equal _) eq_refl).
    reflexivity.
Defined.

(** A MUL whose swizzle pattern enables no destination component: with
    [sanitize_mul] set, the instruction leaves its comment line and no call
    of the helper; with [sanitize_mul] clear, no product either. *)
Lemma MUL_with_empty_mask_writes_no_multiplication :
  (shader_source ∘ shader ∘ snd <$>
     CompileInstr 4096 [] (array 4096 [arithmetic MUL "mul"]) [empty_mask]
       vs_in vs_out true 0 fresh) = Ok ("// 0: mul" +:+ newline) /\
  (shader_source ∘ shader ∘ snd <$>
     CompileInstr 4096 [] (array 4096 [arithmetic MUL "mul"]) [empty_mask]
       vs_in vs_out false 0 fresh) = Ok ("// 0: mul" +:+ newline).
Proof. split; vm_compute; reflexivity. Qed.



Lemma CMP_unknown_operator_is_skipped_witness :
  CompileInstr 4096 [] (array 4096 [compare (OtherCompareOp 6) Equal]) [full_mask]
    vs_in vs_out false 0 fresh
  = Ok (1, {| shader := AddLine "// 0: cmp" (shader fresh);
              log := [LOG_ERROR "Unknown compare mode {:x}"] |}) /\
  CompileInstr 4096 [] (array 4096 [arithmetic (OtherId 4) "dst"]) [full_mask]
    vs_in vs_out false 0 fresh
  = Throw "Unhandled instruction".
Proof.
  split.
  - destruct (CMP_unknown_operator_is_skipped 4096 []
                (array 4096 [compare (OtherCompareOp 6) Equal]) [full_mask]
                vs_in vs_out false 0 fresh _ _ _ _ _
                (ArithmeticAt_sample CMP "cmp" (OtherCompareOp 6) Equal _))
      as [Hskip _].
    rewrite Hskip; [reflexivity..|]. by intros [[] _].
  - destruct (CMP_unknown_operator_is_skipped 4096 []
                (array 4096 [arithmetic (OtherId 4) "dst"]) [full_mask]
                vs_in vs_out false 0 fresh _ _ _ _ _
                (ArithmeticAt_sample (OtherId 4) "dst" Equal Equal _))
      as [_ Hthrow].
    apply Hthrow.
    rewrite !not_elem_of_cons. repeat split; [discriminate..|apply not_elem_of_nil].
Defined.

(** ** Termination of the analysis and rejection of recursion *)

(** The outcome is a result, a [DecompileFail] or undefined behaviour, and a
    result satisfies [Q]. *)
Definition Post {A : Type} (Q : A -> Prop) (r : Result A) : Prop :=
  match r with
  | Ok a => Q a
  | OutOfFuel => False
  | _ => True
  end.

Lemma Post_bind {A B : Type} (Q : A -> Prop) (R : B -> Prop) r (k : A -> Result B) :
  Post Q r -> (forall a, Q a -> Post R (k a)) -> Post R (r ≫= k).
Proof. destruct r; cbn; auto. Qed.

Lemma Post_terminates {A : Type} (Q : A -> Prop) (r : Result A) :
  Post Q r -> r <> OutOfFuel.
Proof. by destruct r. Qed.

(** The outcome is not undefined behaviour, and a [DecompileFail] in it is
    the recursion failure. *)
Definition Clean {A : Type} (r : Result A) : Prop :=
  match r with
  | Undefined _ => False
  | Throw what => what = "Recursive function detected"
  | _ => True
  end.

Lemma Clean_bind {A B : Type} (r : Result A) (k : A -> Result B) :
  Clean r -> (forall a, Clean (k a)) -> Clean (r ≫= k).
Proof. destruct r; cbn; auto. Qed.

Section Termination.

Variable MAX_PROGRAM_CODE_LENGTH : Z.
Variable program_code : ProgramCode.

(** [PROGRAM_END] is a [u32] constant. *)
Hypothesis PROGRAM_END_u32 : MAX_PROGRAM_CODE_LENGTH < 2 ^ 32.

Local Abbreviation Scan_ := (Scan MAX_PROGRAM_CODE_LENGTH program_code).
Local Abbreviation ScanLoop_ := (ScanLoop MAX_PROGRAM_CODE_LENGTH program_code).
Local Abbreviation AddSubroutine_ :=
  (AddSubroutine MAX_PROGRAM_CODE_LENGTH program_code).

(** The return points a scan of the program can be asked for: the end of
    the program and the three offsets a flow control word can name. *)
Definition return_points : gset Z :=
  list_to_set
    (PROGRAM_END MAX_PROGRAM_CODE_LENGTH ::
     flat_map
       (fun instr =>
          let fc := flow_control instr in
          [dest_offset fc; u32 (dest_offset fc + 1);
           u32 (dest_offset fc + num_instructions fc)])
       program_code).

(** The ranges whose scan reads a word: they begin inside the program. *)
Definition ranges : gset (Z * Z) :=
  cprod (list_to_set (seqZ 0 MAX_PROGRAM_CODE_LENGTH) : gset Z) return_points.

(** The number of ranges not yet in [exit_method_map]. *)
Definition free (st : Analyzer) : nat :=
  size (ranges ∖ dom (exit_method_map st)).

Definition grows (st st' : Analyzer) : Prop :=
  dom (exit_method_map st) ⊆ dom (exit_method_map st').

Lemma free_grows st st' : grows st st' -> (free st' <= free st)%nat.
Proof. intros Hsub. unfold free. apply subseteq_size. set_solver. Qed.

Lemma elem_of_ranges begin end_ :
  (begin, end_) ∈ ranges <->
  0 <= begin < MAX_PROGRAM_CODE_LENGTH /\ end_ ∈ return_points.
Proof.
  unfold ranges. rewrite elem_of_gset_cprod. cbn.
  rewrite elem_of_list_to_set, elem_of_seqZ. intuition lia.
Qed.

Lemma free_set_exit_method st key value :
  key ∈ ranges -> exit_method_map st !! key = None ->
  (free (set_exit_method st key value) < free st)%nat.
Proof.
  intros Hkey Hnone. unfold free. apply subset_size. cbn.
  rewrite dom_insert_L. apply not_elem_of_dom in Hnone. set_solver.
Qed.

Lemma grows_set_exit_method st key value : grows st (set_exit_method st key value).
Proof. unfold grows. cbn. rewrite dom_insert_L. set_solver. Qed.

Lemma grows_trans st1 st2 st3 : grows st1 st2 -> grows st2 st3 -> grows st1 st3.
Proof. unfold grows. set_solver. Qed.

Lemma code_at_return_points offset instr :
  code_at MAX_PROGRAM_CODE_LENGTH program_code offset = Ok instr ->
  0 <= offset < MAX_PROGRAM_CODE_LENGTH /\
  dest_offset (flow_control instr) ∈ return_points /\
  u32 (dest_offset (flow_control instr) + 1) ∈ return_points /\
  u32 (dest_offset (flow_control instr) + num_instructions (flow_control instr))
    ∈ return_points.
Proof.
  unfold code_at. case_decide as Hrange; [|done].
  destruct (program_code !! Z.to_nat offset) as [found|] eqn:Hfound; [|done].
  intros [= ->]. split; [done|].
  apply list_elem_of_lookup_2 in Hfound.
  unfold return_points. rewrite !elem_of_list_to_set, !elem_of_cons.
  repeat split; right; apply list_elem_of_In, in_flat_map;
    exists instr; (split; [by apply list_elem_of_In|]); cbn; tauto.
Qed.

Lemma Post_mono {A : Type} (Q Q' : A -> Prop) (r : Result A) :
  Post Q r -> (forall a, Q a -> Q' a) -> Post Q' r.
Proof. destruct r; cbn; auto. Qed.

(** Fuel that suffices for a call when [k] ranges are free. *)
Definition budget_Scan (k : nat) : nat :=
  (k * (Z.to_nat MAX_PROGRAM_CODE_LENGTH + 3) + 2)%nat.

Definition budget_AddSubroutine (k : nat) : nat := (budget_Scan k + 1)%nat.

Definition budget_ScanLoop (k : nat) (offset : Z) : nat :=
  (Z.to_nat (MAX_PROGRAM_CODE_LENGTH - offset) + budget_AddSubroutine k + 1)%nat.

Lemma budget_Scan_mono k k' :
  (k' <= k)%nat -> (budget_Scan k' <= budget_Scan k)%nat.
Proof. unfold budget_Scan. nia. Qed.

Lemma budget_Scan_step k k' :
  (k' < k)%nat ->
  (budget_Scan k' + Z.to_nat MAX_PROGRAM_CODE_LENGTH + 3 <= budget_Scan k)%nat.
Proof. unfold budget_Scan. nia. Qed.

Lemma budget_Scan_pos k : (2 <= budget_Scan k)%nat.
Proof. unfold budget_Scan. lia. Qed.

Ltac budget :=
  unfold budget_ScanLoop, budget_AddSubroutine in *;
  repeat match goal with
         | H : grows _ _ |- _ => apply free_grows, budget_Scan_mono in H
         end;
  lia.

Lemma grows_refl st : grows st st.
Proof. unfold grows. set_solver. Qed.

Lemma Post_scan_return st st' key value labels :
  grows st st' ->
  Post (fun r => grows st r.2) (scan_return key value labels st').
Proof.
  intros Hgrows. cbn. eapply grows_trans; [done|apply grows_set_exit_method].
Qed.

Lemma grows_with_subroutines st st' subs :
  grows st st' -> grows st (with_subroutines st' subs).
Proof. done. Qed.

Lemma grows_set st st' key value :
  grows st st' -> grows st (set_exit_method st' key value).
Proof.
  intros Hgrows. eapply grows_trans; [done|apply grows_set_exit_method].
Qed.

Ltac grown :=
  solve [ cbn; eauto 8 using grows_trans, grows_refl, grows_with_subroutines,
            grows_set ].

Ltac call H :=
  eapply Post_bind;
  [ apply H; [done|grown]
  | first [intros [[? ?] ?] ?|intros [? ?] ?]; cbn in * ].

Lemma u32_next offset :
  0 <= offset < MAX_PROGRAM_CODE_LENGTH -> u32 (offset + 1) = offset + 1.
Proof. intros ?. unfold u32. apply Z.mod_small. lia. Qed.

Lemma analysis_budget fuel :
  (forall begin end_ labels st,
     end_ ∈ return_points -> (budget_Scan (free st) <= fuel)%nat ->
     Post (fun r => grows st r.2) (Scan_ fuel begin end_ labels st)) /\
  (forall key offset labels st,
     key.2 ∈ return_points -> 0 <= offset <= MAX_PROGRAM_CODE_LENGTH ->
     (budget_ScanLoop (free st) offset <= fuel)%nat ->
     Post (fun r => grows st r.2) (ScanLoop_ fuel key offset labels st)) /\
  (forall key offset labels st,
     ~ 0 <= offset < MAX_PROGRAM_CODE_LENGTH -> (1 <= fuel)%nat ->
     Post (fun r => grows st r.2) (ScanLoop_ fuel key offset labels st)) /\
  (forall begin end_ st,
     end_ ∈ return_points -> (budget_AddSubroutine (free st) <= fuel)%nat ->
     Post (fun r => grows st r.2) (AddSubroutine_ fuel begin end_ st)).
Proof.
  induction fuel as [|fuel (IHScan & IHLoop & IHOut & IHAdd)].
  { repeat split; intros; exfalso;
      try (pose proof (budget_Scan_pos (free st))); budget. }
  repeat split.
  - intros begin end_ labels st Hend Hfuel. cbn [Scan].
    destruct (exit_method_map st !! (begin, end_)) as [found|] eqn:Hfound.
    { cbn. grown. }
    pose proof (grows_set_exit_method st (begin, end_) Undetermined) as Hmark.
    destruct (decide (0 <= begin < MAX_PROGRAM_CODE_LENGTH)) as [Hin|Hout].
    + eapply Post_mono.
      * apply IHLoop; [done|lia|].
        pose proof (free_set_exit_method st (begin, end_) Undetermined) as Hless.
        rewrite elem_of_ranges in Hless. specialize (Hless (conj Hin Hend) Hfound).
        apply budget_Scan_step in Hless. clear Hmark. budget.
      * intros r Hr. by eapply grows_trans.
    + eapply Post_mono.
      * apply IHOut; [done|]. pose proof (budget_Scan_pos (free st)). lia.
      * intros r Hr. by eapply grows_trans.
  - intros key offset labels st Hend Hoffset Hfuel. cbn [ScanLoop].
    case_decide as Hgo; [|grown].
    destruct (code_at _ _ offset) as [instr| | |] eqn:Hinstr; cbn; try done.
    2:{ unfold code_at in Hinstr. case_decide; [|done].
        by destruct (program_code !! _). }
    apply code_at_return_points in Hinstr as (Hin & Hdest & Hdest1 & Hdestn).
    rewrite (u32_next offset Hin).
    assert (forall begin end_ labels st',
              end_ ∈ return_points -> grows st st' ->
              Post (fun r => grows st' r.2) (Scan_ fuel begin end_ labels st'))
      as HScan.
    { intros. apply IHScan; [done|]. budget. }
    assert (forall begin end_ st',
              end_ ∈ return_points -> grows st st' ->
              Post (fun r => grows st' r.2) (AddSubroutine_ fuel begin end_ st'))
      as HAdd.
    { intros. apply IHAdd; [done|]. budget. }
    destruct (Value (opcode instr)).
    all: try (apply IHLoop; [done|lia|budget]).
    + (* END *) grown.
    + (* JMPC *) call HScan. call HScan. grown.
    + (* JMPU *) call HScan. call HScan. grown.
    + (* CALL *) call HAdd. case_decide; [grown|]. call HScan. grown.
    + (* CALLC *) call HAdd. call HScan. grown.
    + (* CALLU *) call HAdd. call HScan. grown.
    + (* IFU *) call HAdd.
      eapply Post_bind with (Q := fun r => grows st r.2).
      { case_decide; [|cbn; grown]. call HAdd. grown. }
      intros [? ?] ?; cbn in *. case_decide; [grown|]. call HScan. grown.
    + (* IFC *) call HAdd.
      eapply Post_bind with (Q := fun r => grows st r.2).
      { case_decide; [|cbn; grown]. call HAdd. grown. }
      intros [? ?] ?; cbn in *. case_decide; [grown|]. call HScan. grown.
    + (* LOOP *) call HAdd. case_decide; [grown|]. call HScan. grown.
  - intros key offset labels st Hout Hfuel. cbn [ScanLoop].
    case_decide as Hgo; [|grown].
    unfold code_at. by rewrite decide_False.
  - intros begin end_ st Hend Hfuel. cbn [AddSubroutine].
    destruct (subroutines_find _ _) as [found|]; [cbn; grown|].
    eapply Post_bind; [apply IHScan; [done|budget]|].
    intros [[exit_method labels] st'] Hgrows. cbn in *.
    case_decide; [done|].
    destruct (subroutines_insert _ _) as [inserted subs]. cbn. grown.
Qed.
(** *** Programs whose jumps stay inside the program *)

Definition inside (offset : Z) : Prop := 0 <= offset <= MAX_PROGRAM_CODE_LENGTH.

(** The offset at which a flow control word makes a scan begin lies in the
    program or at its end. *)
Definition targets_inside (instr : Instruction) : Prop :=
  let fc := flow_control instr in
  match Value (opcode instr) with
  | JMPC | JMPU | CALL | CALLC | CALLU => inside (dest_offset fc)
  | LOOP => inside (u32 (dest_offset fc + 1))
  | IFU | IFC =>
      (num_instructions fc <> 0 -> inside (dest_offset fc)) /\
      inside (u32 (dest_offset fc + num_instructions fc))
  | _ => True
  end.

(** The array holds [MAX_PROGRAM_CODE_LENGTH] words and none of them sends
    a scan outside of it. *)
Definition well_formed : Prop :=
  (Z.to_nat MAX_PROGRAM_CODE_LENGTH <= length program_code)%nat /\
  forall instr, instr ∈ program_code -> targets_inside instr.

Lemma code_at_well_formed offset :
  well_formed -> 0 <= offset < MAX_PROGRAM_CODE_LENGTH ->
  exists instr,
    code_at MAX_PROGRAM_CODE_LENGTH program_code offset = Ok instr /\
    targets_inside instr.
Proof.
  intros [Hlength Htargets] Hoffset. unfold code_at.
  rewrite decide_True by done.
  destruct (program_code !! Z.to_nat offset) as [instr|] eqn:Hinstr.
  - exists instr. split; [done|]. by eapply Htargets, list_elem_of_lookup_2.
  - apply lookup_ge_None in Hinstr. lia.
Qed.

Ltac clean IHScan IHLoop IHAdd :=
  repeat first
    [ done
    | apply IHScan
    | apply IHLoop
    | apply IHAdd
    | apply Clean_bind; [|first [intros [[? ?] ?]|intros [? ?]|intros ?]; cbn]
    | case_decide
    | progress unfold inside in *
    | lia ].

Lemma analysis_clean fuel :
  well_formed ->
  (forall begin end_ labels st,
     inside begin -> Clean (Scan_ fuel begin end_ labels st)) /\
  (forall key offset labels st,
     inside offset -> Clean (ScanLoop_ fuel key offset labels st)) /\
  (forall begin end_ st,
     inside begin -> Clean (AddSubroutine_ fuel begin end_ st)).
Proof.
  intros Hwf. induction fuel as [|fuel (IHScan & IHLoop & IHAdd)]; [done|].
  repeat split.
  - intros begin end_ labels st Hbegin. cbn [Scan].
    destruct (exit_method_map st !! _); [done|]. by apply IHLoop.
  - intros key offset labels st Hoffset. cbn [ScanLoop].
    case_decide as Hgo; [|done].
    destruct (code_at_well_formed offset Hwf) as (instr & -> & Htargets).
    { unfold inside, PROGRAM_END in *. lia. }
    cbn [mbind Result_bind]. unfold targets_inside in Htargets.
    assert (inside (u32 (offset + 1))) as Hnext.
    { unfold inside, PROGRAM_END, u32 in *. rewrite Z.mod_small; lia. }
    destruct (Value (opcode instr)); clean IHScan IHLoop IHAdd.
  - intros begin end_ st Hbegin. cbn [AddSubroutine].
    destruct (subroutines_find _ _); [done|].
    apply Clean_bind; [by apply IHScan|]. intros [[exit_method labels] st'].
    cbn. case_decide; [done|]. by destruct (subroutines_insert _ _).
Qed.

Lemma ControlFlowAnalyzer_clean main_offset fuel :
  well_formed -> inside main_offset ->
  match ControlFlowAnalyzer MAX_PROGRAM_CODE_LENGTH program_code fuel main_offset with
  | Undefined _ => False
  | Throw what =>
      what = "Recursive function detected" \/ what = "Program does not always end"
  | _ => True
  end.
Proof.
  intros Hwf Hmain. unfold ControlFlowAnalyzer.
  destruct (analysis_clean fuel Hwf) as (_ & _ & HAdd).
  specialize (HAdd main_offset (PROGRAM_END MAX_PROGRAM_CODE_LENGTH)
                {| subroutines := []; exit_method_map := ∅ |} Hmain).
  destruct (AddSubroutine_ fuel main_offset _ _) as [[program_main st]| | |];
    cbn in *; try done; [|by left].
  case_decide; [by right|done].
Qed.
(** A scan of a range that is in the memo table answers from the table:
    while the range is in progress, that is [Undetermined]. *)
Lemma Scan_memoized fuel begin end_ labels st value :
  exit_method_map st !! (begin, end_) = Some value ->
  Scan_ (S fuel) begin end_ labels st = Ok (value, labels, st).
Proof. intros Hfound. cbn [Scan]. by rewrite Hfound. Qed.

(** A scan of a new range marks the range as in progress before it reads
    the first word. *)
Lemma Scan_marks_in_progress fuel begin end_ labels st :
  exit_method_map st !! (begin, end_) = None ->
  Scan_ (S fuel) begin end_ labels st =
    ScanLoop_ fuel (begin, end_) begin labels
      (set_exit_method st (begin, end_) Undetermined) /\
  exit_method_map (set_exit_method st (begin, end_) Undetermined) !! (begin, end_)
    = Some Undetermined.
Proof.
  intros Hnew. cbn [Scan]. rewrite Hnew. split; [done|].
  cbn. by rewrite lookup_insert_eq.
Qed.

Lemma AddSubroutine_Undetermined fuel begin end_ st labels st' :
  subroutines_find (begin, end_) (subroutines st) = None ->
  Scan_ fuel begin end_ [] st = Ok (Undetermined, labels, st') ->
  AddSubroutine_ (S fuel) begin end_ st = Throw "Recursive function detected".
Proof.
  intros Hnew Hscan. cbn [AddSubroutine]. by rewrite Hnew, Hscan.
Qed.

(** The fuel that suffices for the analysis of [program_code]. *)
Definition enough_fuel : nat :=
  budget_AddSubroutine
    (free {| subroutines := []; exit_method_map := ∅ |}).

Lemma ControlFlowAnalyzer_terminates main_offset fuel :
  (enough_fuel <= fuel)%nat ->
  ControlFlowAnalyzer MAX_PROGRAM_CODE_LENGTH program_code fuel main_offset
    <> OutOfFuel.
Proof.
  intros Hfuel. unfold ControlFlowAnalyzer.
  destruct (analysis_budget fuel) as (_ & _ & _ & HAdd).
  specialize (HAdd main_offset (PROGRAM_END MAX_PROGRAM_CODE_LENGTH)
                {| subroutines := []; exit_method_map := ∅ |}).
  apply Post_terminates in HAdd; [|unfold return_points; set_solver|done].
  destruct (AddSubroutine_ fuel main_offset _ _) as [[program_main st]| | |];
    cbn; try done.
  by case_decide.
Qed.

(** C2.  A scan of a range that is in the memo table returns the entry,
    which is [Undetermined] as long as the range is in progress (a scan
    marks its range so before it reads a word); [AddSubroutine] throws the
    recursion failure when the scan of its range returns [Undetermined], in
    particular when it is asked for a range that is in progress; and the
    analysis of any program from any entry point stops, with the
    subroutines, a [DecompileFail] or a read outside the program array,
    whenever it is given [enough_fuel]; for a program none of whose words
    sends a scan outside the array it stops with the subroutines or with one
    of the two failures of the analyzer. *)
Theorem recursion_is_rejected_and_analysis_terminates :
  (forall fuel begin end_ labels st value,
     exit_method_map st !! (begin, end_) = Some value ->
     Scan_ (S fuel) begin end_ labels st = Ok (value, labels, st)) /\
  (forall fuel begin end_ labels st,
     exit_method_map st !! (begin, end_) = None ->
     Scan_ (S fuel) begin end_ labels st =
       ScanLoop_ fuel (begin, end_) begin labels
         (set_exit_method st (begin, end_) Undetermined) /\
     exit_method_map (set_exit_method st (begin, end_) Undetermined)
       !! (begin, end_) = Some Undetermined) /\
  (forall fuel begin end_ st labels st',
     subroutines_find (begin, end_) (subroutines st) = None ->
     Scan_ fuel begin end_ [] st = Ok (Undetermined, labels, st') ->
     AddSubroutine_ (S fuel) begin end_ st = Throw "Recursive function detected") /\
  (forall fuel begin end_ st,
     subroutines_find (begin, end_) (subroutines st) = None ->
     exit_method_map st !! (begin, end_) = Some Undetermined ->
     AddSubroutine_ (S (S fuel)) begin end_ st
       = Throw "Recursive function detected") /\
  (forall main_offset fuel,
     (enough_fuel <= fuel)%nat ->
     ControlFlowAnalyzer MAX_PROGRAM_CODE_LENGTH program_code fuel main_offset
       <> OutOfFuel) /\
  (forall main_offset fuel,
     (enough_fuel <= fuel)%nat -> well_formed -> inside main_offset ->
     let outcome :=
       ControlFlowAnalyzer MAX_PROGRAM_CODE_LENGTH program_code fuel main_offset in
     (exists subroutines, outcome = Ok subroutines) \/
     outcome = Throw "Recursive function detected" \/
     outcome = Throw "Program does not always end").
Proof.
  split; [apply Scan_memoized|].
  split; [apply Scan_marks_in_progress|].
  split; [apply AddSubroutine_Undetermined|].
  split; [|split; [apply ControlFlowAnalyzer_terminates|]].
  - intros fuel begin end_ st Hnew Hprogress.
    eapply AddSubroutine_Undetermined; [done|].
    by apply Scan_memoized.
  - intros main_offset fuel Hfuel Hwf Hmain outcome.
    pose proof (ControlFlowAnalyzer_terminates main_offset fuel Hfuel) as Hstops.
    pose proof (ControlFlowAnalyzer_clean main_offset fuel Hwf Hmain) as Hclean.
    fold outcome in Hstops, Hclean.
    destruct outcome as [subroutines|what| |]; [by left; eexists| |done..].
    right. by destruct Hclean as [->| ->]; [left|right].
Qed.

End Termination.

(** A subroutine that calls itself: the word at 0 calls the range from 2
    to 4, whose second word calls the same range. *)
Definition self_call : ProgramCode :=
  array 4096
    [flow CALL "call" 2 2; flow END "end" 0 0; nop; flow CALL "call" 2 2].

(** Two subroutines that call each other: the range from 2 to 4 calls the
    range from 4 to 6, which calls the range from 2 to 4. *)
Definition mutual_call : ProgramCode :=
  array 4096
    [flow CALL "call" 2 2; flow END "end" 0 0;
     flow CALL "call" 4 2; nop;
     flow CALL "call" 2 2; nop].

Example self_call_rejected :
  ControlFlowAnalyzer 4096 self_call 16 0 = Throw "Recursive function detected".
Proof. by vm_compute. Qed.

Example mutual_call_rejected :
  ControlFlowAnalyzer 4096 mutual_call 16 0 = Throw "Recursive function detected".
Proof. by vm_compute. Qed.

Lemma recursion_is_rejected_and_analysis_terminates_witness :
  AddSubroutine 4096 self_call 2 2 4
    {| subroutines := [];
       exit_method_map := {[ (0, 4096) := Undetermined; (2, 4) := Undetermined ]} |}
  = Throw "Recursive function detected" /\
  ControlFlowAnalyzer 4096 self_call (enough_fuel 4096 self_call) 0 <> OutOfFuel.
Proof.
  destruct (recursion_is_rejected_and_analysis_terminates 4096 self_call
              ltac:(done)) as (_ & _ & _ & Hprogress & Hstops & _).
  split; [by apply Hprogress|by apply Hstops].
Defined.

(** ** Fuel *)

(** [r'] is the outcome [r] unless [r] ran out of fuel. *)
Definition Stable {A : Type} (r r' : Result A) : Prop :=
  r <> OutOfFuel -> r' = r.

Lemma Stable_refl {A : Type} (r : Result A) : Stable r r.
Proof. done. Qed.

Lemma Stable_bind {A B : Type} (r r' : Result A) (k k' : A -> Result B) :
  Stable r r' -> (forall a, Stable (k a) (k' a)) ->
  Stable (r ≫= k) (r' ≫= k').
Proof.
  intros Hr Hk Hfuel. destruct r as [a| | |]; cbn in *; try done;
    rewrite Hr by done; cbn; [by apply Hk|done..].
Qed.

Section Fuel.

Variable MAX_PROGRAM_CODE_LENGTH : Z.
Variable program_code : ProgramCode.

Local Abbreviation Scan_ := (Scan MAX_PROGRAM_CODE_LENGTH program_code).
Local Abbreviation ScanLoop_ := (ScanLoop MAX_PROGRAM_CODE_LENGTH program_code).
Local Abbreviation AddSubroutine_ :=
  (AddSubroutine MAX_PROGRAM_CODE_LENGTH program_code).

Ltac stable IHScan IHLoop IHAdd :=
  repeat first
    [ apply Stable_refl
    | apply IHScan
    | apply IHLoop
    | apply IHAdd
    | apply Stable_bind; [|first [intros [[? ?] ?]|intros [? ?]|intros ?]; cbn]
    | case_decide ].

(** More fuel does not change an outcome other than [OutOfFuel]. *)
Lemma analysis_fuel_monotone fuel :
  forall fuel', (fuel <= fuel')%nat ->
  (forall begin end_ labels st,
     Stable (Scan_ fuel begin end_ labels st) (Scan_ fuel' begin end_ labels st)) /\
  (forall key offset labels st,
     Stable (ScanLoop_ fuel key offset labels st)
       (ScanLoop_ fuel' key offset labels st)) /\
  (forall begin end_ st,
     Stable (AddSubroutine_ fuel begin end_ st) (AddSubroutine_ fuel' begin end_ st)).
Proof.
  induction fuel as [|fuel IH]; intros fuel' Hfuel;
    [repeat split; intros; intros Hne; by destruct Hne|].
  destruct fuel' as [|fuel']; [lia|].
  destruct (IH fuel' ltac:(lia)) as (IHScan & IHLoop & IHAdd).
  repeat split.
  - intros begin end_ labels st. cbn [Scan].
    destruct (exit_method_map st !! _); stable IHScan IHLoop IHAdd.
  - intros key offset labels st. cbn [ScanLoop].
    case_decide; [|apply Stable_refl].
    apply Stable_bind; [apply Stable_refl|]. intros instr.
    destruct (Value (opcode instr)); stable IHScan IHLoop IHAdd.
  - intros begin end_ st. cbn [AddSubroutine].
    destruct (subroutines_find _ _); stable IHScan IHLoop IHAdd.
Qed.

Lemma ControlFlowAnalyzer_fuel_monotone main_offset fuel fuel' :
  (fuel <= fuel')%nat ->
  Stable (ControlFlowAnalyzer MAX_PROGRAM_CODE_LENGTH program_code fuel main_offset)
    (ControlFlowAnalyzer MAX_PROGRAM_CODE_LENGTH program_code fuel' main_offset).
Proof.
  intros Hfuel. unfold ControlFlowAnalyzer.
  destruct (analysis_fuel_monotone fuel fuel' Hfuel) as (_ & _ & HAdd).
  apply Stable_bind; [apply HAdd|]. intros [? ?]. apply Stable_refl.
Qed.

End Fuel.

(** ** What the entry point returns *)

(** A [DecompileFail] in the outcome carries one of the given messages. *)
Definition Raises {A : Type} (messages : list string) (r : Result A) : Prop :=
  match r with
  | Throw what => what ∈ messages
  | _ => True
  end.

Lemma Raises_bind {A B : Type} messages (r : Result A) (k : A -> Result B) :
  Raises messages r -> (forall a, Raises messages (k a)) ->
  Raises messages (r ≫= k).
Proof. destruct r; cbn; auto. Qed.

Lemma Raises_weaken {A : Type} messages messages' (r : Result A) :
  messages ⊆ messages' -> Raises messages r -> Raises messages' r.
Proof. intros Hsub. destruct r; cbn; auto. Qed.

Ltac raises :=
  repeat first
    [ done
    | apply Raises_bind; [|first [intros [[? ?] ?]|intros [? ?]|intros ?]; cbn]
    | case_decide
    | match goal with |- Raises _ (if ?b then _ else _) => destruct b end
    | match goal with |- Raises _ (match ?x with _ => _ end) => destruct x end
    | progress cbn [Raises]
    | apply list_elem_of_here ].

Section Outcomes.

Variable MAX_PROGRAM_CODE_LENGTH : Z.
Variable program_code : ProgramCode.

Local Abbreviation Scan_ := (Scan MAX_PROGRAM_CODE_LENGTH program_code).
Local Abbreviation ScanLoop_ := (ScanLoop MAX_PROGRAM_CODE_LENGTH program_code).
Local Abbreviation AddSubroutine_ :=
  (AddSubroutine MAX_PROGRAM_CODE_LENGTH program_code).

Lemma code_at_raises offset messages :
  Raises messages (code_at MAX_PROGRAM_CODE_LENGTH program_code offset).
Proof.
  unfold code_at. case_decide; [|done]. by destruct (program_code !! _).
Qed.

Lemma analysis_raises fuel :
  (forall begin end_ labels st,
     Raises ["Recursive function detected"] (Scan_ fuel begin end_ labels st)) /\
  (forall key offset labels st,
     Raises ["Recursive function detected"] (ScanLoop_ fuel key offset labels st)) /\
  (forall begin end_ st,
     Raises ["Recursive function detected"] (AddSubroutine_ fuel begin end_ st)).
Proof.
  induction fuel as [|fuel (IHScan & IHLoop & IHAdd)]; [done|].
  repeat split.
  - intros begin end_ labels st. cbn [Scan].
    destruct (exit_method_map st !! _); [done|]. apply IHLoop.
  - intros key offset labels st. cbn [ScanLoop].
    case_decide; [|done]. apply Raises_bind; [apply code_at_raises|].
    intros instr.
    destruct (Value (opcode instr));
      repeat first
        [ done | apply IHScan | apply IHLoop | apply IHAdd
        | apply Raises_bind; [|first [intros [[? ?] ?]|intros [? ?]]; cbn]
        | case_decide ].
  - intros begin end_ st. cbn [AddSubroutine].
    destruct (subroutines_find _ _); [done|].
    apply Raises_bind; [apply IHScan|]. intros [[exit_method labels] st'].
    cbn. case_decide; [apply list_elem_of_here|]. by destruct (subroutines_insert _ _).
Qed.

Lemma ControlFlowAnalyzer_raises fuel main_offset :
  Raises ["Recursive function detected"; "Program does not always end"]
    (ControlFlowAnalyzer MAX_PROGRAM_CODE_LENGTH program_code fuel main_offset).
Proof.
  unfold ControlFlowAnalyzer. apply Raises_bind.
  - eapply Raises_weaken; [|apply analysis_raises]. set_solver.
  - intros [program_main st]. case_decide; [|done]. cbn. set_solver.
Qed.

Variable subroutines : list Subroutine.
Variable swizzle_data : SwizzleData.
Variable main_offset : Z.
Variable inputreg_getter outputreg_getter : RegGetter.
Variable sanitize_mul : bool.

Local Abbreviation CompileInstr_ :=
  (CompileInstr MAX_PROGRAM_CODE_LENGTH subroutines program_code swizzle_data
     inputreg_getter outputreg_getter sanitize_mul).
Local Abbreviation CompileRangeLoop_ :=
  (CompileRangeLoop MAX_PROGRAM_CODE_LENGTH subroutines program_code swizzle_data
     inputreg_getter outputreg_getter sanitize_mul).
Local Abbreviation CompileLabels_ :=
  (CompileLabels MAX_PROGRAM_CODE_LENGTH subroutines program_code swizzle_data
     inputreg_getter outputreg_getter sanitize_mul).
Local Abbreviation GenerateSubroutine_ :=
  (GenerateSubroutine MAX_PROGRAM_CODE_LENGTH subroutines program_code swizzle_data
     inputreg_getter outputreg_getter sanitize_mul).
Local Abbreviation GenerateSubroutines_ :=
  (GenerateSubroutines MAX_PROGRAM_CODE_LENGTH subroutines program_code swizzle_data
     inputreg_getter outputreg_getter sanitize_mul).
Local Abbreviation GLSLGenerator_ :=
  (GLSLGenerator MAX_PROGRAM_CODE_LENGTH subroutines program_code swizzle_data
     main_offset inputreg_getter outputreg_getter sanitize_mul).

Lemma operand_raises negate reg selector messages :
  Raises messages reg -> Raises messages selector ->
  Raises messages (operand negate reg selector).
Proof. intros. unfold operand. raises. Qed.

Lemma GetSelectorSrc_raises getter messages :
  Raises messages (GetSelectorSrc getter).
Proof.
  unfold GetSelectorSrc, selector_char.
  repeat (apply Raises_bind; [by destruct (getter _)|intros ?]). done.
Qed.

Lemma GetSourceRegister_raises reg index messages :
  Raises messages (GetSourceRegister inputreg_getter reg index).
Proof.
  unfold GetSourceRegister, xyz_at.
  destruct (src_GetRegisterType reg); try done. raises.
Qed.

Lemma CompileInstr_raises offset g :
  Raises ["Unhandled instruction"] (CompileInstr_ offset g).
Proof.
  unfold CompileInstr.
  apply Raises_bind; [apply code_at_raises|]. intros instr.
  apply Raises_bind; [unfold swizzle_at; raises|]. intros swizzle.
  apply Raises_bind; [|by intros [? ?]].
  destruct (type (GetInfo (opcode instr))).
  - apply Raises_bind.
    { unfold ArithmeticOperands, GetSelectorSrc1, GetSelectorSrc2.
      repeat (apply Raises_bind;
              [first [apply operand_raises;
                      [apply GetSourceRegister_raises|apply GetSelectorSrc_raises]
                     |unfold GetDestRegister;
                      by destruct (dest_GetRegisterType _)]|intros ?]).
      done. }
    intros [[src1 src2] dest_reg]. apply Raises_bind; [|done].
    unfold CompileArithmetic.
    destruct (EffectiveOpCode (opcode instr)); raises.
  - apply Raises_bind; [|done]. unfold CompileMultiplyAdd.
    case_decide; [|apply list_elem_of_here].
    apply Raises_bind.
    { unfold MultiplyAddOperands, GetSelectorSrc1, GetSelectorSrc2, GetSelectorSrc3.
      repeat (apply Raises_bind;
              [apply operand_raises;
               [apply GetSourceRegister_raises|apply GetSelectorSrc_raises]
              |intros ?]).
      done. }
    intros [[[src1 src2] src3] dest_reg]. by destruct sanitize_mul.
  - unfold CompileFlowControl, GetSubroutine, EvaluateCondition.
    destruct (Value (opcode instr)); raises.
Qed.

Lemma CompileRangeLoop_raises fuel program_counter bound g :
  Raises ["Unhandled instruction"] (CompileRangeLoop_ fuel program_counter bound g).
Proof.
  revert program_counter g. induction fuel as [|fuel IH]; intros pc g; [done|].
  cbn [CompileRangeLoop]. case_decide; [|done].
  apply Raises_bind; [apply CompileInstr_raises|]. intros [? ?]. apply IH.
Qed.

Lemma CompileLabels_raises fuel subroutine label labels g :
  Raises ["Unhandled instruction"] (CompileLabels_ fuel subroutine label labels g).
Proof.
  revert label labels g. induction fuel as [|fuel IH]; intros label labels g; [done|].
  cbn [CompileLabels].
  apply Raises_bind; [apply CompileRangeLoop_raises|]. intros [compile_end g'].
  case_decide; (destruct (lower_bound (label + 1) _); [apply IH|done]).
Qed.

Lemma GenerateSubroutine_raises fuel subroutine g :
  Raises ["Unhandled instruction"] (GenerateSubroutine_ fuel subroutine g).
Proof.
  unfold GenerateSubroutine. apply Raises_bind; [|done].
  case_decide.
  - apply Raises_bind; [apply CompileRangeLoop_raises|]. intros [? ?].
    by case_decide.
  - apply Raises_bind; [|done].
    destruct (labels_insert _ _); [done|]. apply CompileLabels_raises.
Qed.

Lemma GenerateSubroutines_raises fuel subs g :
  Raises ["Unhandled instruction"] (GenerateSubroutines_ fuel subs g).
Proof.
  revert g. induction subs as [|subroutine rest IH]; intros g; [done|].
  cbn [GenerateSubroutines].
  apply Raises_bind; [apply GenerateSubroutine_raises|]. intros ?. apply IH.
Qed.

Lemma GLSLGenerator_raises fuel :
  Raises ["Unhandled instruction"] (GLSLGenerator_ fuel).
Proof.
  unfold GLSLGenerator, Generate. apply Raises_bind; [|done].
  apply Raises_bind; [unfold GetSubroutine; by destruct (subroutines_find _ _)|].
  intros main. apply GenerateSubroutines_raises.
Qed.

(** The generator has written something. *)
Definition written (g : Generator) : Prop := shader_source (shader g) <> "".

Lemma written_emit text g : written (emit text g).
Proof.
  unfold written, emit, AddLine, AddNewLine. cbn.
  unfold written, emit, AddLine, AddNewLine. cbn.
  match goal with |- ?source +:+ newline <> _ => by destruct source end.
Qed.

Lemma GenerateSubroutine_written fuel subroutine g g' :
  GenerateSubroutine_ fuel subroutine g = Ok g' -> written g'.
Proof.
  unfold GenerateSubroutine.
  match goal with |- (?r ≫= _) = _ -> _ => destruct r end; cbn; try done.
  intros [= <-]. apply written_emit.
Qed.

Lemma GenerateSubroutines_written fuel subs g g' :
  written g -> GenerateSubroutines_ fuel subs g = Ok g' -> written g'.
Proof.
  revert g. induction subs as [|subroutine rest IH]; intros g Hg; cbn.
  - by intros [= <-].
  - destruct (GenerateSubroutine_ fuel subroutine g) as [g1| | |] eqn:Hg1;
      cbn; try done.
    apply IH. by eapply GenerateSubroutine_written.
Qed.

(** A shader the generator returns is not the empty string. *)
Lemma GLSLGenerator_not_empty fuel source :
  GLSLGenerator_ fuel = Ok source -> source <> "".
Proof.
  unfold GLSLGenerator, Generate.
  destruct (GetSubroutine _ _ _) as [main| | |]; cbn; try done.
  match goal with |- (?r ≫= _) = _ -> _ => destruct r as [g'| | |] eqn:Hg' end;
    cbn; try done.
  intros [= <-]. eapply GenerateSubroutines_written; [|done].
  apply written_emit.
Qed.

End Outcomes.

(** X4.  [DecompileProgram] never lets a [DecompileFail] through; it
    returns the empty string exactly when the analyzer or the generator has
    thrown one, and the failure is then one of the three the source names. *)
Lemma DecompileProgram_outcomes MAX_PROGRAM_CODE_LENGTH fuel program_code
    swizzle_data main_offset inputreg_getter outputreg_getter sanitize_mul :
  let inner :=
    subroutines ← ControlFlowAnalyzer MAX_PROGRAM_CODE_LENGTH program_code fuel
                    main_offset;
    GLSLGenerator MAX_PROGRAM_CODE_LENGTH subroutines program_code swizzle_data
      main_offset inputreg_getter outputreg_getter sanitize_mul fuel in
  let outcome :=
    DecompileProgram MAX_PROGRAM_CODE_LENGTH fuel program_code swizzle_data
      main_offset inputreg_getter outputreg_getter sanitize_mul in
  (forall what, outcome <> Throw what) /\
  (outcome = Ok "" <-> exists what, inner = Throw what) /\
  Raises ["Recursive function detected"; "Program does not always end";
          "Unhandled instruction"] inner.
Proof.
  intros inner outcome.
  assert (Raises ["Recursive function detected"; "Program does not always end";
                  "Unhandled instruction"] inner) as Hraises.
  { apply Raises_bind.
    - eapply Raises_weaken; [|apply ControlFlowAnalyzer_raises]. set_solver.
    - intros subroutines. eapply Raises_weaken; [|apply GLSLGenerator_raises].
      set_solver. }
  assert (forall source, inner = Ok source -> source <> "") as Hsource.
  { unfold inner. intros source.
    destruct (ControlFlowAnalyzer _ _ _ _) as [subroutines| | |]; cbn; try done.
    apply GLSLGenerator_not_empty. }
  unfold outcome, DecompileProgram. fold inner.
  destruct inner as [source|what| |] eqn:Hinner; repeat split; try done.
  - intros [= ->]. by destruct (Hsource "").
  - by intros [what [=]].
  - by eexists.
  - by intros [what' [=]].
  - by intros [what' [=]].
Qed.

(** ** A program the generator does not finish *)

Section Divergence.

Variable MAX_PROGRAM_CODE_LENGTH : Z.
Variable subroutines : list Subroutine.
Variable program_code : ProgramCode.
Variable swizzle_data : SwizzleData.
Variable main_offset : Z.
Variable inputreg_getter outputreg_getter : RegGetter.
Variable sanitize_mul : bool.

Local Abbreviation CompileInstr_ :=
  (CompileInstr MAX_PROGRAM_CODE_LENGTH subroutines program_code swizzle_data
     inputreg_getter outputreg_getter sanitize_mul).
Local Abbreviation CompileRangeLoop_ :=
  (CompileRangeLoop MAX_PROGRAM_CODE_LENGTH subroutines program_code swizzle_data
     inputreg_getter outputreg_getter sanitize_mul).
Local Abbreviation CompileRange_ :=
  (CompileRange MAX_PROGRAM_CODE_LENGTH subroutines program_code swizzle_data
     inputreg_getter outputreg_getter sanitize_mul).
Local Abbreviation GenerateSubroutine_ :=
  (GenerateSubroutine MAX_PROGRAM_CODE_LENGTH subroutines program_code swizzle_data
     inputreg_getter outputreg_getter sanitize_mul).
Local Abbreviation GLSLGenerator_ :=
  (GLSLGenerator MAX_PROGRAM_CODE_LENGTH subroutines program_code swizzle_data
     main_offset inputreg_getter outputreg_getter sanitize_mul).

(** An instruction after which [CompileInstr] names the instruction itself
    as the next one keeps [CompileRange] in its loop. *)
Lemma CompileRangeLoop_stuck fuel program_counter bound g :
  program_counter < bound ->
  (forall g, fst <$> CompileInstr_ program_counter g = Ok program_counter) ->
  CompileRangeLoop_ fuel program_counter bound g = OutOfFuel.
Proof.
  intros Hbound Hsame. revert g.
  induction fuel as [|fuel IH]; intros g; [done|].
  cbn [CompileRangeLoop]. rewrite decide_True by done.
  specialize (Hsame g).
  destruct (CompileInstr_ program_counter g) as [[next g']| | |]; try done.
  injection Hsame as ->. apply IH.
Qed.

Lemma GenerateSubroutine_stuck fuel subroutine g :
  labels subroutine = [] ->
  (forall g, CompileRange_ fuel (begin subroutine) (end_ subroutine) g = OutOfFuel) ->
  GenerateSubroutine_ fuel subroutine g = OutOfFuel.
Proof.
  intros Hlabels Hstuck. unfold GenerateSubroutine.
  rewrite decide_True by done. by rewrite Hstuck.
Qed.

Lemma GLSLGenerator_stuck fuel first rest main :
  subroutines = first :: rest ->
  GetSubroutine subroutines main_offset (PROGRAM_END MAX_PROGRAM_CODE_LENGTH)
    = Ok main ->
  labels first = [] ->
  (forall g, CompileRange_ fuel (begin first) (end_ first) g = OutOfFuel) ->
  GLSLGenerator_ fuel = OutOfFuel.
Proof.
  intros Hsubs Hmain Hlabels Hstuck. unfold GLSLGenerator, Generate.
  rewrite Hmain. cbn [mbind Result_bind].
  rewrite Hsubs at 2. cbn [GenerateSubroutines].
  by rewrite GenerateSubroutine_stuck.
Qed.

End Divergence.

(** An IFU at offset 0 whose else branch starts at offset 0, followed by END. *)
Definition backward_if : ProgramCode :=
  array 4096 [flow IFU "ifu" 0 0; flow END "end" 0 0].

Definition backward_if_subroutines : list Subroutine :=
  [ {| begin := 0; end_ := 4096; exit_method := AlwaysEnd; labels := [] |};
    {| begin := 1; end_ := 0; exit_method := AlwaysEnd; labels := [] |} ].

Lemma backward_if_accepted :
  ControlFlowAnalyzer 4096 backward_if 6 0 = Ok backward_if_subroutines.
Proof. by vm_compute. Qed.

Lemma backward_if_same_offset g :
  fst <$> CompileInstr 4096 backward_if_subroutines backward_if [full_mask]
            vs_in vs_out false 0 g = Ok 0.
Proof. by vm_compute. Qed.

Lemma backward_if_generator_stuck fuel :
  GLSLGenerator 4096 backward_if_subroutines backward_if [full_mask] 0
    vs_in vs_out false fuel = OutOfFuel.
Proof.
  eapply GLSLGenerator_stuck; [done|by vm_compute|done|].
  intros g. apply CompileRangeLoop_stuck; [done|].
  apply backward_if_same_offset.
Qed.

(** With any fuel the analysis of [backward_if] either has not finished or
    has accepted the program. *)
Lemma backward_if_analysis fuel :
  ControlFlowAnalyzer 4096 backward_if fuel 0 = OutOfFuel \/
  ControlFlowAnalyzer 4096 backward_if fuel 0 = Ok backward_if_subroutines.
Proof.
  destruct (ControlFlowAnalyzer 4096 backward_if fuel 0) as [subs| | |] eqn:Hsubs;
    [right|right|right|by left];
    destruct (Nat.le_ge_cases fuel 6) as [Hfuel|Hfuel];
    apply (ControlFlowAnalyzer_fuel_monotone 4096 backward_if 0) in Hfuel;
    rewrite Hsubs, backward_if_accepted in Hfuel;
    by rewrite Hfuel.
Qed.

(** C3, on the code.  The analysis accepts [backward_if]: its main
    subroutine resolves to [AlwaysEnd], no recursion is detected and every
    word has a case.  Yet [DecompileProgram] returns nothing for it, the
    empty string no more than a shader: after the IFU at offset 0
    [CompileInstr] names offset 0 as the next instruction, so the loop of
    [CompileRange] compiles the same word for ever.  (Where
    [DecompileProgram] does return, [DecompileProgram_outcomes] describes
    what it returns.) *)
Theorem DecompileProgram_does_not_return_on_backward_if :
  ControlFlowAnalyzer 4096 backward_if 6 0 = Ok backward_if_subroutines /\
  (forall g,
     fst <$> CompileInstr 4096 backward_if_subroutines backward_if [full_mask]
               vs_in vs_out false 0 g = Ok 0) /\
  (forall fuel,
     DecompileProgram 4096 fuel backward_if [full_mask] 0 vs_in vs_out false
     = OutOfFuel).
Proof.
  split; [apply backward_if_accepted|].
  split; [apply backward_if_same_offset|].
  intros fuel. unfold DecompileProgram.
  destruct (backward_if_analysis fuel) as [->| ->]; [done|].
  cbn [mbind Result_bind]. by rewrite backward_if_generator_stuck.
Qed.

(** ** The algebra of exit methods *)

(** X1.  [ParallelExit] is the join of a flat lattice: it is commutative,
    associative and idempotent, [Undetermined] is its unit and
    [Conditional] absorbs every exit method; two branches always end only if
    neither of them does anything else.  [SeriesExit] yields [AlwaysReturn]
    only for two blocks that always return. *)
Theorem ParallelExit_is_a_semilattice :
  (forall a b, ParallelExit a b = ParallelExit b a) /\
  (forall a b c,
     ParallelExit a (ParallelExit b c) = ParallelExit (ParallelExit a b) c) /\
  (forall a, ParallelExit a a = a) /\
  (forall a, ParallelExit Undetermined a = a) /\
  (forall a, ParallelExit Conditional a = Conditional) /\
  (forall a b,
     ParallelExit a b = AlwaysEnd <->
     (a = AlwaysEnd /\ (b = AlwaysEnd \/ b = Undetermined)) \/
     (a = Undetermined /\ b = AlwaysEnd)) /\
  (forall a b,
     SeriesExit a b = AlwaysReturn <-> a = AlwaysReturn /\ b = AlwaysReturn).
Proof.
  repeat split; try (by intros []); try (by intros [] []);
    try (by intros [] [] []).
  - destruct a, b; cbn; intros [=]; auto.
  - by destruct a, b; intros [[? [?|?]]|[? ?]].
  - by destruct a, b.
  - by destruct a, b.
  - by intros [-> ->].
Qed.

(** ** What the analysis leaves behind *)

(** The outcome, if it is a result, satisfies [Q]. *)
Definition Returns {A : Type} (Q : A -> Prop) (r : Result A) : Prop :=
  match r with
  | Ok a => Q a
  | _ => True
  end.

Lemma Returns_bind {A B : Type} (Q : A -> Prop) (R : B -> Prop) r (k : A -> Result B) :
  Returns Q r -> (forall a, Q a -> Returns R (k a)) -> Returns R (r ≫= k).
Proof. destruct r; cbn; auto. Qed.

Lemma Returns_mono {A : Type} (Q R : A -> Prop) (r : Result A) :
  Returns Q r -> (forall a, Q a -> R a) -> Returns R r.
Proof. destruct r; cbn; auto. Qed.

Lemma Returns_True {A : Type} (r : Result A) : Returns (fun _ => True) r.
Proof. by destruct r. Qed.

Lemma subroutines_find_Some key subs sub :
  subroutines_find key subs = Some sub -> sub ∈ subs /\ range sub = key.
Proof.
  induction subs as [|s rest IH]; cbn; [done|].
  case_decide as Hkey.
  - intros [= <-]. split; [apply list_elem_of_here|done].
  - intros Hfound. destruct (IH Hfound) as [Hin Hrange].
    split; [by apply list_elem_of_further|done].
Qed.

(** [insert] followed by [find]: the set holds the element of the returned
    iterator under the key of the inserted one, and every element is the new
    one or an old one. *)
Lemma subroutines_insert_find sub subs :
  let '(found, subs') := subroutines_insert sub subs in
  subroutines_find (range sub) subs' = Some found /\
  (found = sub \/ found ∈ subs) /\
  (forall s, s ∈ subs' -> s = sub \/ s ∈ subs).
Proof.
  induction subs as [|s rest IH]; cbn.
  - rewrite decide_True by done. split; [done|]. split; [by left|].
    intros s' ->%list_elem_of_singleton. by left.
  - case_decide as Hlt; [|case_decide as Heq].
    + cbn. rewrite decide_True by done. split; [done|]. split; [by left|].
      intros s' [->|Hin]%elem_of_cons; [by left|by right].
    + cbn. rewrite decide_True by done. split; [done|].
      split; [right; apply list_elem_of_here|]. by right.
    + destruct (subroutines_insert sub rest) as [found rest'].
      destruct IH as (Hfind & Hfound & Hrest). cbn.
      rewrite decide_False by done. split; [done|]. split.
      * destruct Hfound as [->|Hin]; [by left|right; by apply list_elem_of_further].
      * intros s' [->|Hin]%elem_of_cons; [right; apply list_elem_of_here|].
        destruct (Hrest _ Hin) as [->|Hin']; [by left|].
        right. by apply list_elem_of_further.
Qed.

Section Analysis.

Variable MAX_PROGRAM_CODE_LENGTH : Z.
Variable program_code : ProgramCode.

Local Abbreviation Scan_ := (Scan MAX_PROGRAM_CODE_LENGTH program_code).
Local Abbreviation ScanLoop_ := (ScanLoop MAX_PROGRAM_CODE_LENGTH program_code).
Local Abbreviation AddSubroutine_ :=
  (AddSubroutine MAX_PROGRAM_CODE_LENGTH program_code).

(** No subroutine of the set has the exit method [Undetermined]. *)
Definition determined (subs : list Subroutine) : Prop :=
  forall sub, sub ∈ subs -> exit_method sub <> Undetermined.

Ltac determine IHScan IHLoop IHAdd :=
  repeat first
    [ done
    | apply IHScan
    | apply IHLoop
    | apply IHAdd
    | match goal with
      | |- Returns _ ((if _ then _ else _) ≫= _) =>
          eapply (Returns_bind (fun p => determined (subroutines (snd p))));
            [case_decide;
               [eapply Returns_bind;
                  [by apply IHAdd|by intros [? ?] [? ?]]
               |done]
            |intros [? ?]; cbn; intros]
      end
    | eapply Returns_bind;
        [first [by apply IHScan|by apply IHAdd|apply Returns_True]
        |first [intros [[? ?] ?]|intros [? ?]|intros ?]; cbn; intros;
         destruct_and?]
    | case_decide ].

Lemma analysis_determined fuel :
  (forall begin end_ labels st,
     determined (subroutines st) ->
     Returns (fun '(_, _, st') => determined (subroutines st'))
       (Scan_ fuel begin end_ labels st)) /\
  (forall key offset labels st,
     determined (subroutines st) ->
     Returns (fun '(_, _, st') => determined (subroutines st'))
       (ScanLoop_ fuel key offset labels st)) /\
  (forall begin end_ st,
     determined (subroutines st) ->
     Returns (fun '(sub, st') =>
                determined (subroutines st') /\
                subroutines_find (begin, end_) (subroutines st') = Some sub)
       (AddSubroutine_ fuel begin end_ st)).
Proof.
  induction fuel as [|fuel (IHScan & IHLoop & IHAdd)]; [done|].
  repeat split.
  - intros begin end_ labels st Hst. cbn [Scan].
    destruct (exit_method_map st !! _); [done|]. by apply IHLoop.
  - intros key offset labels st Hst. cbn [ScanLoop].
    case_decide as Hgo; [|done].
    eapply Returns_bind; [apply Returns_True|]. intros instr _.
    destruct (Value (opcode instr)); determine IHScan IHLoop IHAdd.
  - intros begin end_ st Hst. cbn [AddSubroutine].
    destruct (subroutines_find _ _) eqn:Hfound; [done|].
    eapply Returns_bind; [by apply IHScan|].
    intros [[exit_method labels] st'] Hst'. cbn.
    case_decide as Hexit; [done|].
    pose proof (subroutines_insert_find
                  {| begin := begin; end_ := end_;
                     exit_method := exit_method; labels := labels |}
                  (subroutines st')) as Hinsert.
    destruct (subroutines_insert _ _) as [found subs']. cbn.
    destruct Hinsert as (Hfind & _ & Hsubs).
    split; [|done].
    intros sub Hsub. destruct (Hsubs _ Hsub) as [->|Hold]; [done|by apply Hst'].
Qed.

(** X2.  The subroutines the analysis hands to the generator all have a
    determined exit method, and the main subroutine, from [main_offset] to
    [PROGRAM_END], is among them and always ends: the lookup at the head of
    [Generate] does not fail. *)
Theorem analyzed_subroutines_are_determined fuel main_offset subs :
  ControlFlowAnalyzer MAX_PROGRAM_CODE_LENGTH program_code fuel main_offset = Ok subs ->
  (forall sub, sub ∈ subs -> exit_method sub <> Undetermined) /\
  exists program_main,
    GetSubroutine subs main_offset (PROGRAM_END MAX_PROGRAM_CODE_LENGTH)
    = Ok program_main /\
    exit_method program_main = AlwaysEnd.
Proof.
  unfold ControlFlowAnalyzer.
  destruct (analysis_determined fuel) as (_ & _ & HAdd).
  specialize (HAdd main_offset (PROGRAM_END MAX_PROGRAM_CODE_LENGTH)
                {| subroutines := []; exit_method_map := ∅ |}).
  destruct (AddSubroutine_ fuel main_offset _ _) as [[program_main st]| | |];
    cbn; try done.
  case_decide as Hexit; [done|]. intros [= <-].
  destruct HAdd as [Hst Hfound]; [by intros sub Hsub%elem_of_nil|].
  split; [done|]. exists program_main. unfold GetSubroutine.
  rewrite Hfound. split; [done|]. by destruct (exit_method program_main).
Qed.

(** Every entry of [exit_method_map] but the one of [key] is as it was. *)
Definition kept_except (key : Z * Z) (st st' : Analyzer) : Prop :=
  forall k value,
    k <> key ->
    exit_method_map st !! k = Some value ->
    exit_method_map st' !! k = Some value.

Lemma kept_except_set key st st' value :
  exit_method_map st ⊆ exit_method_map st' ->
  kept_except key st (set_exit_method st' key value) /\
  exit_method_map (set_exit_method st' key value) !! key = Some value.
Proof.
  intros Hkept. split; [|apply lookup_insert_eq].
  intros k v Hk Hfound. cbn. rewrite lookup_insert_ne by done.
  by eapply lookup_weaken.
Qed.

Ltac kept :=
  repeat match goal with
         | |- ?m ⊆ ?m => reflexivity
         | H : ?a ⊆ ?b |- ?a ⊆ ?b => exact H
         | H : ?a ⊆ ?b |- ?a ⊆ _ => etrans; [exact H|]
         end.

Ltac memo IHScan IHLoop IHAdd :=
  repeat first
    [ done
    | apply IHLoop
    | apply kept_except_set; kept
    | match goal with
      | |- Returns _ ((if _ then _ else _) ≫= _) =>
          eapply (Returns_bind
                    (fun p => _ ⊆ exit_method_map (snd p)));
            [case_decide;
               [eapply Returns_bind;
                  [by apply IHAdd|intros [? ?] ?; cbn in *; kept]
               |cbn; kept]
            |intros [? ?]; cbn; intros]
      end
    | eapply Returns_bind;
        [first [by apply IHScan|by apply IHAdd]
        |first [intros [[? ?] ?]|intros [? ?]|intros ?]; cbn; intros;
         destruct_and?]
    | case_decide ].

Lemma analysis_recorded fuel :
  (forall begin end_ labels st,
     Returns (fun '(exit_method, _, st') =>
                exit_method_map st ⊆ exit_method_map st' /\
                exit_method_map st' !! (begin, end_) = Some exit_method)
       (Scan_ fuel begin end_ labels st)) /\
  (forall key offset labels st,
     Returns (fun '(exit_method, _, st') =>
                kept_except key st st' /\
                exit_method_map st' !! key = Some exit_method)
       (ScanLoop_ fuel key offset labels st)) /\
  (forall begin end_ st,
     Returns (fun '(_, st') => exit_method_map st ⊆ exit_method_map st')
       (AddSubroutine_ fuel begin end_ st)).
Proof.
  induction fuel as [|fuel (IHScan & IHLoop & IHAdd)]; [done|].
  repeat split.
  - intros begin end_ labels st. cbn [Scan].
    destruct (exit_method_map st !! _) as [value|] eqn:Hentry; [done|].
    eapply Returns_mono; [apply IHLoop|].
    intros [[exit_method labels'] st'] [Hkept Hrecorded]. cbn.
    split; [|done]. apply map_subseteq_spec. intros k value Hfound.
    apply Hkept; [by intros ->; simplify_eq|].
    cbn. rewrite lookup_insert_ne; [done|by intros <-; simplify_eq].
  - intros key offset labels st. cbn [ScanLoop].
    case_decide as Hgo; [|by apply kept_except_set].
    eapply Returns_bind; [apply Returns_True|]. intros instr _.
    destruct (Value (opcode instr)); memo IHScan IHLoop IHAdd.
  - intros begin end_ st. cbn [AddSubroutine].
    destruct (subroutines_find _ _) eqn:Hfound; [by cbn|].
    eapply Returns_bind; [by apply IHScan|].
    intros [[exit_method labels] st'] [Hkept _]. cbn.
    case_decide as Hexit; [done|].
    destruct (subroutines_insert _ _). cbn. exact Hkept.
Qed.

(** X3.  A scan records its result: when [Scan] returns, the entry of its
    range in [exit_method_map] is the exit method it returns, no other entry
    that was there has changed, and a later scan of the range returns the
    same exit method at once, with the labels and the analyzer as they are
    handed in. *)
Theorem Scan_records_its_result fuel begin end_ labels st exit_method labels' st' :
  Scan MAX_PROGRAM_CODE_LENGTH program_code fuel begin end_ labels st
  = Ok (exit_method, labels', st') ->
  exit_method_map st ⊆ exit_method_map st' /\
  exit_method_map st' !! (begin, end_) = Some exit_method /\
  forall fuel' labels'',
    Scan MAX_PROGRAM_CODE_LENGTH program_code (S fuel') begin end_ labels'' st'
    = Ok (exit_method, labels'', st').
Proof.
  intros Hscan. destruct (analysis_recorded fuel) as (HScan & _ & _).
  specialize (HScan begin end_ labels st). rewrite Hscan in HScan.
  destruct HScan as [Hkept Hrecorded]. split; [done|]. split; [done|].
  intros fuel' labels''. cbn [Scan]. by rewrite Hrecorded.
Qed.

End Analysis.

(** ** The discipline of the writer *)

Lemma append_assoc (a b c : string) : (a +:+ b) +:+ c = a +:+ b +:+ c.
Proof.
  induction a as [|x a IH]; [done|].
  change (String x ((a +:+ b) +:+ c) = String x (a +:+ b +:+ c)).
  by rewrite IH.
Qed.

Lemma append_nil_r (a : string) : a +:+ "" = a.
Proof.
  induction a as [|x a IH]; [done|].
  change (String x (a +:+ "") = String x a). by rewrite IH.
Qed.

(** The generator [g'] has the text and the log of [g] with more text and
    more entries after them. *)
Definition extends (g g' : Generator) : Prop :=
  (exists text,
     shader_source (shader g') = shader_source (shader g) +:+ text) /\
  (exists entries, log g' = log g ++ entries).

Lemma extends_refl g : extends g g.
Proof.
  split; [exists ""; by rewrite append_nil_r|exists []; by rewrite app_nil_r].
Qed.

Lemma extends_trans g1 g2 g3 : extends g1 g2 -> extends g2 g3 -> extends g1 g3.
Proof.
  intros [[text1 Htext1] [entries1 Hlog1]] [[text2 Htext2] [entries2 Hlog2]].
  split.
  - exists (text1 +:+ text2). by rewrite Htext2, Htext1, append_assoc.
  - exists (entries1 ++ entries2). by rewrite Hlog2, Hlog1, <- app_assoc.
Qed.

Lemma extends_emit g g' text : extends g g' -> extends g (emit text g').
Proof.
  intros Hg. eapply extends_trans; [exact Hg|]. split; [|exists []; cbn; by rewrite app_nil_r].
  unfold emit, AddLine, AddNewLine, AddExpression. cbn.
  case_decide; eexists; by rewrite !append_assoc.
Qed.

Lemma extends_rescope g g' d : extends g g' -> extends g (rescope d g').
Proof. done. Qed.

Lemma extends_log_error g g' format : extends g g' -> extends g (log_error format g').
Proof.
  intros Hg. eapply extends_trans; [exact Hg|].
  split; [exists ""; cbn; by rewrite append_nil_r|by eexists].
Qed.

Lemma extends_CallSubroutine g g' subroutine :
  extends g g' -> extends g (CallSubroutine subroutine g').
Proof.
  intros Hg. unfold CallSubroutine. repeat case_decide; by repeat apply extends_emit.
Qed.

Lemma extends_SetDest g g' swizzle reg value dest_num value_num :
  extends g g' -> extends g (SetDest swizzle reg value dest_num value_num g').
Proof.
  intros Hg. unfold SetDest. destruct (dest_mask _ _).
  case_decide; [done|]. by apply extends_emit.
Qed.

Lemma extends_new_line g g' :
  extends g g' -> extends g {| shader := AddNewLine (shader g'); log := log g' |}.
Proof.
  intros Hg. eapply extends_trans; [exact Hg|].
  split; [by eexists|exists []; cbn; by rewrite app_nil_r].
Qed.

Lemma scope_emit text g : scope (shader (emit text g)) = scope (shader g).
Proof. done. Qed.

Lemma scope_rescope d g : scope (shader (rescope d g)) = scope (shader g) + d.
Proof. done. Qed.

Lemma scope_log_error format g : scope (shader (log_error format g)) = scope (shader g).
Proof. done. Qed.

Lemma scope_CallSubroutine subroutine g :
  scope (shader (CallSubroutine subroutine g)) = scope (shader g).
Proof. unfold CallSubroutine. by repeat case_decide. Qed.

Lemma scope_SetDest swizzle reg value dest_num value_num g :
  scope (shader (SetDest swizzle reg value dest_num value_num g))
  = scope (shader g).
Proof. unfold SetDest. destruct (dest_mask _ _). by case_decide. Qed.

Lemma scope_new_line g :
  scope (shader {| shader := AddNewLine (shader g); log := log g |})
  = scope (shader g).
Proof. done. Qed.

Lemma scope_foldl {A : Type} (f : Generator -> A -> Generator)
    (items : list A) g :
  (forall g item, scope (shader (f g item)) = scope (shader g)) ->
  scope (shader (foldl f g items)) = scope (shader g).
Proof.
  intros Hf. revert g. induction items as [|item items IH]; intros g; [done|].
  cbn. by rewrite IH, Hf.
Qed.

Lemma extends_foldl {A : Type} (f : Generator -> A -> Generator)
    (items : list A) g g' :
  (forall g g' item, extends g g' -> extends g (f g' item)) ->
  extends g g' -> extends g (foldl f g' items).
Proof.
  intros Hf. revert g'. induction items as [|item items IH]; intros g' Hg'; [done|].
  cbn. by apply IH, Hf.
Qed.

(** [g'] extends [g] at the same level of indentation. *)
Definition steady (g g' : Generator) : Prop :=
  scope (shader g') = scope (shader g) /\ extends g g'.

Lemma steady_refl g : steady g g.
Proof. split; [done|apply extends_refl]. Qed.

Lemma steady_trans g1 g2 g3 : steady g1 g2 -> steady g2 g3 -> steady g1 g3.
Proof.
  intros [Hscope1 Hextends1] [Hscope2 Hextends2].
  split; [congruence|by eapply extends_trans].
Qed.

Ltac scopes :=
  repeat match goal with
         | |- context [scope (shader (emit ?text ?g))] =>
             rewrite (scope_emit text g)
         | |- context [scope (shader (rescope ?d ?g))] =>
             rewrite (scope_rescope d g)
         | |- context [scope (shader (log_error ?format ?g))] =>
             rewrite (scope_log_error format g)
         | |- context [scope (shader (CallSubroutine ?subroutine ?g))] =>
             rewrite (scope_CallSubroutine subroutine g)
         | |- context [scope (shader (SetDest ?s ?r ?v ?d ?n ?g))] =>
             rewrite (scope_SetDest s r v d n g)
         | |- context [scope (shader {| shader := AddNewLine (shader ?g);
                                        log := log ?g |})] =>
             rewrite (scope_new_line g)
         | |- context [scope (shader (foldl ?f ?g ?items))] =>
             rewrite (scope_foldl f items g) by done
         end.

Ltac extended :=
  repeat match goal with
         | |- extends ?g ?g => apply extends_refl
         | |- extends _ (emit _ _) => apply extends_emit
         | |- extends _ (rescope _ _) => apply extends_rescope
         | |- extends _ (log_error _ _) => apply extends_log_error
         | |- extends _ (CallSubroutine _ _) => apply extends_CallSubroutine
         | |- extends _ (SetDest _ _ _ _ _ _) => apply extends_SetDest
         | |- extends _ {| shader := AddNewLine (shader ?g); log := log ?g |} =>
             apply extends_new_line
         | |- extends _ (foldl _ _ _) =>
             apply extends_foldl; [by intros; apply extends_emit|]
         end.

Ltac steadily :=
  repeat first
    [ done
    | progress (split; [scopes; lia|extended])
    | eapply Returns_bind;
        [apply Returns_True
        |first [intros [[[? ?] ?] ?]|intros [[? ?] ?]|intros [? ?]|intros ?];
         intros _; cbn [Returns]]
    | case_decide
    | match goal with
      | |- Returns _ (if ?b then _ else _) => destruct b
      | |- Returns _ (match ?x with _ => _ end) => destruct x
      | |- steady _ (if ?b then _ else _) => destruct b
      | |- steady _ (SetDest _ _ _ _ _ (if ?b then _ else _)) => destruct b
      end
    | progress cbn [Returns] ].

Section Writer.

Variable MAX_PROGRAM_CODE_LENGTH : Z.
Variable subroutines : list Subroutine.
Variable program_code : ProgramCode.
Variable swizzle_data : SwizzleData.
Variable main_offset : Z.
Variable inputreg_getter outputreg_getter : RegGetter.
Variable sanitize_mul : bool.

Local Abbreviation CompileInstr_ :=
  (CompileInstr MAX_PROGRAM_CODE_LENGTH subroutines program_code swizzle_data
     inputreg_getter outputreg_getter sanitize_mul).
Local Abbreviation CompileRangeLoop_ :=
  (CompileRangeLoop MAX_PROGRAM_CODE_LENGTH subroutines program_code swizzle_data
     inputreg_getter outputreg_getter sanitize_mul).
Local Abbreviation CompileLabels_ :=
  (CompileLabels MAX_PROGRAM_CODE_LENGTH subroutines program_code swizzle_data
     inputreg_getter outputreg_getter sanitize_mul).
Local Abbreviation GenerateSubroutine_ :=
  (GenerateSubroutine MAX_PROGRAM_CODE_LENGTH subroutines program_code swizzle_data
     inputreg_getter outputreg_getter sanitize_mul).
Local Abbreviation GenerateSubroutines_ :=
  (GenerateSubroutines MAX_PROGRAM_CODE_LENGTH subroutines program_code swizzle_data
     inputreg_getter outputreg_getter sanitize_mul).
Local Abbreviation Generate_ :=
  (Generate MAX_PROGRAM_CODE_LENGTH subroutines program_code swizzle_data
     main_offset inputreg_getter outputreg_getter sanitize_mul).

Lemma CompileInstr_steady offset g :
  Returns (fun '(_, g') => steady g g') (CompileInstr_ offset g).
Proof.
  unfold CompileInstr.
  eapply Returns_bind; [apply Returns_True|]. intros instr _.
  eapply Returns_bind; [apply Returns_True|]. intros swizzle _.
  set (g0 := emit _ g).
  assert (steady g g0) as Hg0 by (split; [done|by apply extends_emit, extends_refl]).
  eapply (Returns_bind (fun '(_, g') => steady g g')); [|by intros [? ?]].
  eapply Returns_mono with (Q := fun '(_, g') => steady g0 g');
    [|intros [? ?] ?; by eapply steady_trans].
  clearbody g0. clear Hg0.
  destruct (type (GetInfo (opcode instr))).
  - eapply Returns_bind; [apply Returns_True|].
    intros [[src1 src2] dest_reg] _.
    eapply (Returns_bind (fun g' => steady g0 g')); [|by intros ? ?].
    unfold CompileArithmetic.
    destruct (EffectiveOpCode (opcode instr)); steadily.
  - eapply (Returns_bind (fun g' => steady g0 g')); [|by intros ? ?].
    unfold CompileMultiplyAdd. steadily.
  - unfold CompileFlowControl.
    destruct (Value (opcode instr)); try (by steadily).
    all: eapply Returns_bind; [apply Returns_True|]; intros condition _.
    all: eapply Returns_bind; [apply Returns_True|]; intros if_sub _.
    all: eapply (Returns_bind
                   (fun p => scope (shader (snd p)) = scope (shader g0) + 1 /\
                             extends g0 (snd p)));
      [case_decide; [|cbn [Returns snd]; by split; [scopes|extended]];
       eapply Returns_bind; [apply Returns_True|]; intros else_sub _;
       case_decide; cbn [Returns snd]; (split; [scopes; lia|extended])
      |intros [? g1] [Hscope Hextends]; cbn in Hscope, Hextends;
       split; [scopes; lia|by extended]].
Qed.

Lemma CompileRangeLoop_steady fuel program_counter bound g :
  Returns (fun '(_, g') => steady g g')
    (CompileRangeLoop_ fuel program_counter bound g).
Proof.
  revert program_counter g. induction fuel as [|fuel IH]; intros pc g; [done|].
  cbn [CompileRangeLoop]. case_decide; [|by split; [|apply extends_refl]].
  eapply Returns_bind; [apply CompileInstr_steady|]. intros [pc' g'] Hg'.
  eapply Returns_mono; [apply IH|]. intros [? ?] ?. by eapply steady_trans.
Qed.

Lemma CompileLabels_steady fuel subroutine label labels g :
  Returns (fun g' => steady g g')
    (CompileLabels_ fuel subroutine label labels g).
Proof.
  revert label labels g. induction fuel as [|fuel IH]; intros label labels g; [done|].
  cbn [CompileLabels]. unfold CompileRange.
  eapply Returns_bind; [apply CompileRangeLoop_steady|].
  intros [compile_end g'] [Hscope Hextends].
  revert Hscope. scopes. intros Hscope.
  assert (extends g g') as Hg'.
  { eapply extends_trans; [|exact Hextends]. by extended. }
  clear Hextends.
  case_decide.
  - destruct (lower_bound (label + 1) _).
    + eapply Returns_mono; [apply IH|]. intros g'' Hg''.
      eapply steady_trans; [|exact Hg''].
      split; [scopes; lia|by extended].
    + split; [scopes; lia|by extended].
  - destruct (lower_bound (label + 1) _).
    + eapply Returns_mono; [apply IH|]. intros g'' Hg''.
      eapply steady_trans; [|exact Hg''].
      split; [scopes; lia|by extended].
    + split; [scopes; lia|by extended].
Qed.

Lemma GenerateSubroutine_steady fuel subroutine g :
  Returns (fun g' => steady g g') (GenerateSubroutine_ fuel subroutine g).
Proof.
  unfold GenerateSubroutine.
  eapply (Returns_bind
            (fun g' => scope (shader g') = scope (shader g) + 1 /\ extends g g')).
  - case_decide.
    + unfold CompileRange.
      eapply Returns_bind; [apply CompileRangeLoop_steady|].
      intros [compile_end g'] [Hscope Hextends].
      revert Hscope. scopes. intros Hscope.
      assert (extends g g') as Hg'.
      { eapply extends_trans; [|exact Hextends]. by extended. }
      case_decide; cbn [Returns]; (split; [scopes; lia|by extended]).
    + set (g1 := emit "switch (jmp_to) {" _).
      assert (scope (shader g1) = scope (shader g) + 2 /\ extends g g1)
        as [Hscope1 Hextends1] by (subst g1; split; [scopes; lia|by extended]).
      clearbody g1.
      eapply (Returns_bind (fun g' => steady g1 g')).
      * destruct (labels_insert _ _); [apply steady_refl|].
        apply CompileLabels_steady.
      * intros g' [Hscope Hextends]. cbn [Returns].
        assert (extends g g') by by eapply extends_trans.
        split; [scopes; lia|by extended].
  - intros g' [Hscope Hextends]. cbn [Returns].
    split; [scopes; lia|by extended].
Qed.

Lemma GenerateSubroutines_steady fuel subs g :
  Returns (fun g' => steady g g') (GenerateSubroutines_ fuel subs g).
Proof.
  revert g. induction subs as [|subroutine rest IH]; intros g; [apply steady_refl|].
  cbn [GenerateSubroutines].
  eapply Returns_bind; [apply GenerateSubroutine_steady|]. intros g' Hg'.
  eapply Returns_mono; [apply IH|]. intros g'' Hg''. by eapply steady_trans.
Qed.

Lemma Generate_steady fuel g :
  Returns (fun g' => steady g g') (Generate_ fuel g).
Proof.
  unfold Generate.
  set (g1 := if sanitize_mul then _ else g).
  assert (steady g g1) as Hg1.
  { subst g1. destruct sanitize_mul; [|apply steady_refl].
    split; [scopes; lia|by extended; apply extends_refl]. }
  clearbody g1.
  eapply Returns_bind; [apply Returns_True|]. intros program_main _.
  eapply Returns_mono; [apply GenerateSubroutines_steady|].
  intros g' Hg'. eapply steady_trans; [|exact Hg'].
  eapply steady_trans; [exact Hg1|]. clear.
  unfold declare_reg_tmp. split; [scopes; lia|extended].
Qed.

Local Abbreviation GLSLGenerator_ :=
  (GLSLGenerator MAX_PROGRAM_CODE_LENGTH subroutines program_code swizzle_data
     main_offset inputreg_getter outputreg_getter sanitize_mul).

(** X5.  The generator only appends: an instruction, a range and the
    whole of [Generate] leave the text and the log they found with more
    after them, and they leave [scope], the level of indentation, where it
    was: every [++shader.scope] has met its [--shader.scope]. *)
Theorem generator_appends_and_restores_scope :
  (forall offset g next g',
     CompileInstr_ offset g = Ok (next, g') -> steady g g') /\
  (forall fuel begin end_ g next g',
     CompileRange MAX_PROGRAM_CODE_LENGTH subroutines program_code swizzle_data
       inputreg_getter outputreg_getter sanitize_mul fuel begin end_ g
     = Ok (next, g') ->
     steady g g') /\
  (forall fuel subroutine g g',
     GenerateSubroutine_ fuel subroutine g = Ok g' -> steady g g') /\
  (forall fuel g g', Generate_ fuel g = Ok g' -> steady g g').
Proof.
  split; [|split; [|split]].
  - intros offset g next g' Hcall.
    pose proof (CompileInstr_steady offset g) as Hsteady.
    rewrite Hcall in Hsteady. apply Hsteady.
  - intros fuel begin end_ g next g' Hcall.
    pose proof (CompileRangeLoop_steady fuel begin
                  (range_bound MAX_PROGRAM_CODE_LENGTH begin end_) g) as Hsteady.
    unfold CompileRange in Hcall. rewrite Hcall in Hsteady. apply Hsteady.
  - intros fuel subroutine g g' Hcall.
    pose proof (GenerateSubroutine_steady fuel subroutine g) as Hsteady.
    rewrite Hcall in Hsteady. apply Hsteady.
  - intros fuel g g' Hcall.
    pose proof (Generate_steady fuel g) as Hsteady.
    rewrite Hcall in Hsteady. apply Hsteady.
Qed.

End Writer.

(** The text of [lines], each followed by a line feed. *)
Definition text_of (lines : list string) : string :=
  foldr (fun line rest => line +:+ newline +:+ rest) "" lines.

(** The helper functions [Generate] writes first. *)
Definition sanitize_mul_helper : string :=
  text_of
    [ "vec4 sanitize_mul(vec4 lhs, vec4 rhs) {";
      "    vec4 product = lhs * rhs;";
      "    return mix(product, mix(mix(vec4(0.0), product, isnan(rhs)), product, "
        +:+ "isnan(lhs)), isnan(product));";
      "}";
      "" ].

Definition get_offset_register_helper : string :=
  text_of
    [ "vec4 get_offset_register(int base_index, int offset) {";
      "    int fixed_offset = offset >= -128 && offset <= 127 ? offset : 0;";
      "    uint index = uint((base_index + fixed_offset) & 0x7F);";
      "    return index < 96u ? uniforms.f[index] : vec4(1.0);";
      "}";
      "" ].

(** Lines written at the outermost level are appended as they are. *)
Lemma lines_outermost {A} (line : A -> string) items g :
  scope (shader g) = 0 ->
  shader_source (shader (foldl (fun g item => emit (line item) g) g items))
  = shader_source (shader g) +:+ text_of (line <$> items).
Proof.
  revert g. induction items as [|item items IH]; intros g Hscope.
  - cbn. by rewrite append_nil_r.
  - cbn [foldl fmap list_fmap text_of foldr].
    fold (text_of (line <$> items)).
    rewrite IH by (by scopes).
    unfold emit, AddLine, AddNewLine, AddExpression. cbn.
    rewrite Hscope. case_decide; cbn; by rewrite ?append_nil_r, !append_assoc.
Qed.

(** The declarations of the registers [Generate] writes after the helper
    functions, and the empty line that follows them. *)
Definition register_declarations : string :=
  text_of
    [ "bvec2 conditional_code = bvec2(false);";
      "ivec3 address_registers = ivec3(0);";
      "vec4 reg_tmp0 = vec4(0.0, 0.0, 0.0, 1.0);";
      "vec4 reg_tmp1 = vec4(0.0, 0.0, 0.0, 1.0);";
      "vec4 reg_tmp2 = vec4(0.0, 0.0, 0.0, 1.0);";
      "vec4 reg_tmp3 = vec4(0.0, 0.0, 0.0, 1.0);";
      "vec4 reg_tmp4 = vec4(0.0, 0.0, 0.0, 1.0);";
      "vec4 reg_tmp5 = vec4(0.0, 0.0, 0.0, 1.0);";
      "vec4 reg_tmp6 = vec4(0.0, 0.0, 0.0, 1.0);";
      "vec4 reg_tmp7 = vec4(0.0, 0.0, 0.0, 1.0);";
      "vec4 reg_tmp8 = vec4(0.0, 0.0, 0.0, 1.0);";
      "vec4 reg_tmp9 = vec4(0.0, 0.0, 0.0, 1.0);";
      "vec4 reg_tmp10 = vec4(0.0, 0.0, 0.0, 1.0);";
      "vec4 reg_tmp11 = vec4(0.0, 0.0, 0.0, 1.0);";
      "vec4 reg_tmp12 = vec4(0.0, 0.0, 0.0, 1.0);";
      "vec4 reg_tmp13 = vec4(0.0, 0.0, 0.0, 1.0);";
      "vec4 reg_tmp14 = vec4(0.0, 0.0, 0.0, 1.0);";
      "vec4 reg_tmp15 = vec4(0.0, 0.0, 0.0, 1.0);";
      "" ].

(** The lines that declare the subroutines, in the order of the set. *)
Definition subroutine_declarations (subroutines : list Subroutine) : string :=
  text_of ((fun subroutine => "bool " +:+ GetName subroutine +:+ "();") <$> subroutines).

(** X6.  Every shader the generator returns begins with the helper
    functions, the definition of [sanitize_mul] first if and only if
    [sanitize_mul] is set; then come the declarations of the registers, an
    empty line, one declaration for each subroutine of the set, an empty
    line, and the line that opens the entry point [exec_shader], which is
    not indented. *)
Theorem shader_begins_with_helpers MAX_PROGRAM_CODE_LENGTH subroutines
    program_code swizzle_data main_offset inputreg_getter outputreg_getter
    sanitize_mul fuel source :
  GLSLGenerator MAX_PROGRAM_CODE_LENGTH subroutines program_code swizzle_data
    main_offset inputreg_getter outputreg_getter sanitize_mul fuel = Ok source ->
  exists definitions,
    source =
      (if sanitize_mul then sanitize_mul_helper else "") +:+
      get_offset_register_helper +:+
      register_declarations +:+
      subroutine_declarations subroutines +:+
      newline +:+
      "bool exec_shader() {" +:+ newline +:+
      definitions.
Proof.
  unfold GLSLGenerator, Generate.
  set (registers := {| shader := AddNewLine (shader (declare_reg_tmp _));
                       log := _ |}).
  assert (shader_source (shader registers)
          = (if sanitize_mul then sanitize_mul_helper else "")
            +:+ get_offset_register_helper +:+ register_declarations
          /\ scope (shader registers) = 0) as [Hregisters Hscope]
    by (by destruct sanitize_mul).
  clearbody registers.
  set (declared := {| shader := AddNewLine (shader (foldl _ registers subroutines));
                      log := _ |}).
  assert (shader_source (shader declared)
          = shader_source (shader registers)
            +:+ subroutine_declarations subroutines +:+ newline
          /\ scope (shader declared) = 0) as [Hdeclared Hdeclared_scope].
  { subst declared. cbn [shader shader_source scope AddNewLine]. split.
    - rewrite lines_outermost by done. by rewrite !append_assoc.
    - by scopes. }
  clearbody declared.
  destruct (GetSubroutine _ _ _) as [program_main| | |]; cbn [mbind Result_bind];
    try done.
  set (entered := emit "bool exec_shader() {" declared).
  assert (shader_source (shader entered)
          = shader_source (shader declared) +:+ "bool exec_shader() {" +:+ newline)
    as Hentered.
  { subst entered. unfold emit, AddLine, AddNewLine, AddExpression. cbn.
    rewrite Hdeclared_scope. cbn. by rewrite append_nil_r, append_assoc. }
  match goal with
  | |- context [GenerateSubroutines _ _ _ _ _ _ _ _ _ ?g] =>
      pose proof (GenerateSubroutines_steady MAX_PROGRAM_CODE_LENGTH subroutines
                    program_code swizzle_data inputreg_getter outputreg_getter
                    sanitize_mul fuel subroutines g) as Hdefinitions;
      assert (extends entered g) as [[called Hcalled] _] by extended
  end.
  destruct (GenerateSubroutines _ _ _ _ _ _ _ _ _ _) as [g'| | |];
    cbn [mbind Result_bind]; try done.
  intros [= <-]. destruct Hdefinitions as [_ [[text Htext] _]].
  exists (called +:+ text).
  rewrite Htext, Hcalled, Hentered, Hdeclared, Hregisters.
  by rewrite !append_assoc.
Qed.

(** ** A guard without its statement *)

Section Guard.

Variable MAX_PROGRAM_CODE_LENGTH : Z.
Variable subroutines : list Subroutine.
Variable program_code : ProgramCode.
Variable swizzle_data : SwizzleData.
Variable inputreg_getter outputreg_getter : RegGetter.

Lemma SetDest_unnamed swizzle value dest_num value_num g :
  SetDest swizzle "" value dest_num value_num g = g.
Proof.
  unfold SetDest. destruct (dest_mask _ _).
  by rewrite decide_True by (by left).
Qed.

(** X7.  With [sanitize_mul] clear, an RCP or RSQ whose destination is
    not written, because the register has no name or the swizzle pattern
    enables none of its components, still writes its guard: the [if] line
    is the last line of the instruction, and no assignment follows it. *)
Theorem RCP_RSQ_guard_is_written_without_assignment
    offset g instr swizzle src1 src2 dest_reg :
  ArithmeticAt MAX_PROGRAM_CODE_LENGTH program_code swizzle_data
    inputreg_getter outputreg_getter offset instr swizzle src1 src2 dest_reg ->
  dest_reg = "" \/ (forall i, DestComponentEnabled swizzle i = false) ->
  (EffectiveOpCode (opcode instr) = RCP ->
   CompileInstr MAX_PROGRAM_CODE_LENGTH subroutines program_code swizzle_data
     inputreg_getter outputreg_getter false offset g
   = Ok (u32 (offset + 1),
         emit ("if (" +:+ src1 +:+ ".x != 0.0)") (emit (comment offset instr) g))) /\
  (EffectiveOpCode (opcode instr) = RSQ ->
   CompileInstr MAX_PROGRAM_CODE_LENGTH subroutines program_code swizzle_data
     inputreg_getter outputreg_getter false offset g
   = Ok (u32 (offset + 1),
         emit ("if (" +:+ src1 +:+ ".x > 0.0)") (emit (comment offset instr) g))).
Proof.
  intros Hat Hskipped.
  assert (forall value dest_num value_num g',
            SetDest swizzle dest_reg value dest_num value_num g' = g') as Hnone.
  { intros. destruct Hskipped as [->|Hmask];
      [apply SetDest_unnamed|by apply SetDest_masked]. }
  split; intros Hop;
    rewrite (CompileInstr_Arithmetic _ _ _ _ _ _ _ _ _ _ _ _ _ _ Hat);
    unfold CompileArithmetic; rewrite Hop; cbn; by rewrite Hnone.
Qed.

End Guard.

(** *** A program with a branch, run *)

(** An IF at offset 0 whose body is the MUL at offset 1 and whose ELSE body
    is the ADD at offset 2, and an END at offset 3. *)
Definition branching : ProgramCode :=
  array 4096
    [flow IFU "ifu" 2 1; arithmetic MUL "mul"; arithmetic ADD "add";
     flow END "end" 0 0].

Definition branching_subroutines : list Subroutine :=
  [ {| begin := 0; end_ := 4096; exit_method := AlwaysEnd; labels := [] |};
    {| begin := 1; end_ := 2; exit_method := AlwaysReturn; labels := [] |};
    {| begin := 2; end_ := 3; exit_method := AlwaysReturn; labels := [] |} ].

Lemma branching_analyzed :
  ControlFlowAnalyzer 4096 branching 8 0 = Ok branching_subroutines.
Proof. vm_compute. reflexivity. Defined.

Lemma analyzed_subroutines_are_determined_witness :
  exists program_main,
    GetSubroutine branching_subroutines 0 (PROGRAM_END 4096) = Ok program_main /\
    exit_method program_main = AlwaysEnd.
Proof.
  exact (proj2 (analyzed_subroutines_are_determined 4096 branching 8 0
                  branching_subroutines branching_analyzed)).
Defined.

(** The analyzer [ControlFlowAnalyzer] starts from. *)
Definition start : Analyzer := {| subroutines := []; exit_method_map := ∅ |}.

Definition branching_else : Analyzer :=
  {| subroutines := [];
     exit_method_map := {[ (2, 3) := AlwaysReturn ]} |}.

Lemma branching_else_scanned :
  Scan 4096 branching 3 2 3 [] start = Ok (AlwaysReturn, [], branching_else).
Proof. vm_compute. reflexivity. Defined.

Lemma Scan_records_its_result_witness :
  exit_method_map branching_else !! (2, 3) = Some AlwaysReturn /\
  Scan 4096 branching 1 2 3 [7] branching_else
  = Ok (AlwaysReturn, [7], branching_else).
Proof.
  destruct (Scan_records_its_result 4096 branching 3 2 3 [] start
              AlwaysReturn [] branching_else branching_else_scanned)
    as (_ & Hrecorded & Hagain).
  split; [exact Hrecorded|apply Hagain].
Defined.

Lemma generator_appends_and_restores_scope_witness :
  steady fresh
    (emit "reg_tmp0.xyzw = reg_tmp1.xyzw * reg_tmp2.xyzw;"
       (emit "// 1: mul" fresh)).
Proof.
  destruct (generator_appends_and_restores_scope 4096 branching_subroutines
              branching [full_mask] 0 vs_in vs_out false) as (Hinstr & _).
  exact (Hinstr 1 fresh 2 _ eq_refl).
Defined.

(** The shader of [branching], generated with [sanitize_mul] set. *)
Definition branching_shader : string :=
  Eval vm_compute in
    match GLSLGenerator 4096 branching_subroutines branching [full_mask] 0
            vs_in vs_out true 8 with
    | Ok source => source
    | _ => ""
    end.

Lemma branching_generated :
  GLSLGenerator 4096 branching_subroutines branching [full_mask] 0
    vs_in vs_out true 8 = Ok branching_shader.
Proof. vm_compute. reflexivity. Defined.

Lemma shader_begins_with_helpers_witness :
  exists definitions,
    branching_shader =
      sanitize_mul_helper +:+ get_offset_register_helper +:+
      register_declarations +:+
      subroutine_declarations branching_subroutines +:+
      newline +:+
      "bool exec_shader() {" +:+ newline +:+
      definitions.
Proof.
  exact (shader_begins_with_helpers 4096 branching_subroutines branching
           [full_mask] 0 vs_in vs_out true 8 branching_shader
           branching_generated).
Defined.



Lemma RCP_RSQ_guard_is_written_without_assignment_witness :
  CompileInstr 4096 [] (array 4096 [arithmetic RCP "rcp"]) [empty_mask]
    vs_in vs_out false 0 fresh
  = Ok (1, emit "if (reg_tmp1.xyzw.x != 0.0)" (emit "// 0: rcp" fresh)).
Proof.
  destruct (RCP_RSQ_guard_is_written_without_assignment 4096 []
              (array 4096 [arithmetic RCP "rcp"]) [empty_mask] vs_in vs_out
              0 fresh _ _ _ _ _ (ArithmeticAt_sample RCP "rcp" Equal Equal _))
    as [Hrcp _]; [by right|].
  rewrite (Hrcp eq_refl). reflexivity.
Defined.

(** ** Programs whose blocks lie ahead *)

(** The outcome is not a lack of fuel. *)
Definition Stops {A : Type} (r : Result A) : Prop :=
  match r with
  | OutOfFuel => False
  | _ => True
  end.

Lemma Stops_bind {A B : Type} (r : Result A) (k : A -> Result B) :
  Stops r -> (forall a, Stops (k a)) -> Stops (r ≫= k).
Proof. destruct r; cbn; auto. Qed.

Lemma Stops_Returns_bind {A B : Type} (Q : A -> Prop) (r : Result A)
    (k : A -> Result B) :
  Stops r -> Returns Q r -> (forall a, Q a -> Stops (k a)) -> Stops (r ≫= k).
Proof. destruct r; cbn; auto. Qed.

Ltac stops :=
  repeat first
    [ done
    | apply Stops_bind; [|first [intros [[? ?] ?]|intros [? ?]|intros ?]; cbn]
    | case_decide
    | match goal with |- Stops (if ?b then _ else _) => destruct b end
    | match goal with |- Stops (match ?x with _ => _ end) => destruct x end ].

(** The number of labels above [label]. *)
Definition above (label : Z) (labels : list Z) : nat :=
  length (filter (fun l => label < l) labels).

Lemma above_le_length label labels : (above label labels <= length labels)%nat.
Proof. apply length_filter. Qed.

Lemma above_mono a b labels : a <= b -> (above b labels <= above a labels)%nat.
Proof.
  intros Hab. unfold above. induction labels as [|l labels IH]; [done|].
  rewrite !filter_cons. repeat case_decide; cbn; lia.
Qed.

Lemma above_elem a x labels :
  x ∈ labels -> a < x -> (above x labels < above a labels)%nat.
Proof.
  intros Hx Hax. unfold above.
  induction labels as [|l labels IH]; [by apply elem_of_nil in Hx|].
  apply elem_of_cons in Hx as [<-|Hx].
  - rewrite !filter_cons. rewrite decide_False by lia. rewrite decide_True by done.
    cbn. pose proof (above_mono a x labels ltac:(lia)). unfold above in *. lia.
  - specialize (IH Hx). rewrite !filter_cons. repeat case_decide; cbn; lia.
Qed.

Lemma elem_of_labels_insert x c labels :
  x ∈ labels_insert c labels <-> x = c \/ x ∈ labels.
Proof.
  induction labels as [|l labels IH]; cbn.
  - rewrite list_elem_of_singleton. rewrite elem_of_nil. tauto.
  - repeat case_decide; rewrite ?elem_of_cons, ?IH; subst; tauto.
Qed.

Lemma above_labels_insert a c labels :
  (above a (labels_insert c labels)
   <= above a labels + (if decide (a < c)%Z then 1 else 0))%nat.
Proof.
  unfold above. induction labels as [|l labels IH]; cbn [labels_insert].
  - rewrite filter_cons, !filter_nil. case_decide; cbn; lia.
  - repeat case_decide; rewrite ?filter_cons; repeat case_decide;
      cbn [length] in *; lia.
Qed.

Lemma lower_bound_Some key labels x :
  lower_bound key labels = Some x -> key <= x /\ x ∈ labels.
Proof.
  induction labels as [|l labels IH]; cbn; [done|].
  case_decide.
  - intros [= <-]. split; [done|apply list_elem_of_here].
  - intros Hfound. destruct (IH Hfound). split; [done|by apply list_elem_of_further].
Qed.

Lemma u32_pred_succ x : u32 (u32 (x - 1) + 1) = u32 x.
Proof.
  unfold u32. rewrite Zplus_mod_idemp_l. f_equal. lia.
Qed.

Section Forward.

Variable MAX_PROGRAM_CODE_LENGTH : Z.
Variable subroutines : list Subroutine.
Variable program_code : ProgramCode.
Variable swizzle_data : SwizzleData.
Variable main_offset : Z.
Variable inputreg_getter outputreg_getter : RegGetter.
Variable sanitize_mul : bool.

Hypothesis PROGRAM_END_u32 : MAX_PROGRAM_CODE_LENGTH < 2 ^ 32.

Local Abbreviation CompileInstr_ :=
  (CompileInstr MAX_PROGRAM_CODE_LENGTH subroutines program_code swizzle_data
     inputreg_getter outputreg_getter sanitize_mul).
Local Abbreviation CompileRangeLoop_ :=
  (CompileRangeLoop MAX_PROGRAM_CODE_LENGTH subroutines program_code swizzle_data
     inputreg_getter outputreg_getter sanitize_mul).
Local Abbreviation CompileLabels_ :=
  (CompileLabels MAX_PROGRAM_CODE_LENGTH subroutines program_code swizzle_data
     inputreg_getter outputreg_getter sanitize_mul).
Local Abbreviation GenerateSubroutine_ :=
  (GenerateSubroutine MAX_PROGRAM_CODE_LENGTH subroutines program_code swizzle_data
     inputreg_getter outputreg_getter sanitize_mul).
Local Abbreviation GenerateSubroutines_ :=
  (GenerateSubroutines MAX_PROGRAM_CODE_LENGTH subroutines program_code swizzle_data
     inputreg_getter outputreg_getter sanitize_mul).
Local Abbreviation GLSLGenerator_ :=
  (GLSLGenerator MAX_PROGRAM_CODE_LENGTH subroutines program_code swizzle_data
     main_offset inputreg_getter outputreg_getter sanitize_mul).

(** The offset [CompileInstr] returns for an IF or a LOOP at [offset], the
    end of the block the word opens, is above [offset]. *)
Definition steps_forward (offset : Z) (instr : Instruction) : Prop :=
  let fc := flow_control instr in
  match Value (opcode instr) with
  | IFC | IFU =>
      if decide (num_instructions fc <> 0) then
        offset < u32 (dest_offset fc + num_instructions fc)
      else offset < u32 (dest_offset fc)
  | LOOP => offset < u32 (dest_offset fc + 1)
  | _ => True
  end.

Definition forward : Prop :=
  forall offset instr,
    code_at MAX_PROGRAM_CODE_LENGTH program_code offset = Ok instr ->
    steps_forward offset instr.

Lemma code_at_Ok offset instr :
  code_at MAX_PROGRAM_CODE_LENGTH program_code offset = Ok instr ->
  0 <= offset < MAX_PROGRAM_CODE_LENGTH.
Proof. unfold code_at. by case_decide. Qed.

Lemma CompileInstr_stops offset g : Stops (CompileInstr_ offset g).
Proof.
  unfold CompileInstr.
  apply Stops_bind; [unfold code_at; stops|]. intros instr.
  apply Stops_bind; [unfold swizzle_at; stops|]. intros swizzle.
  apply Stops_bind; [|by intros [? ?]].
  destruct (type (GetInfo (opcode instr))).
  - apply Stops_bind.
    { unfold ArithmeticOperands, operand, GetSelectorSrc1, GetSelectorSrc2,
        GetSelectorSrc, GetSourceRegister, GetDestRegister, selector_char, xyz_at.
      stops. }
    intros [[src1 src2] dest_reg]. apply Stops_bind; [|done].
    unfold CompileArithmetic.
    destruct (EffectiveOpCode (opcode instr)); stops.
  - apply Stops_bind; [|done]. unfold CompileMultiplyAdd.
    case_decide; [|done].
    apply Stops_bind.
    { unfold MultiplyAddOperands, operand, GetSelectorSrc1, GetSelectorSrc2,
        GetSelectorSrc3, GetSelectorSrc, GetSourceRegister, selector_char, xyz_at.
      stops. }
    intros [[[src1 src2] src3] dest_reg]. by destruct sanitize_mul.
  - unfold CompileFlowControl, GetSubroutine, EvaluateCondition.
    destruct (Value (opcode instr)); stops.
Qed.

Lemma u32_idem x : u32 (u32 x) = u32 x.
Proof. unfold u32. by rewrite Z.mod_mod. Qed.

Lemma CompileInstr_advances offset g :
  forward ->
  Returns (fun '(next, _) => 0 <= offset < MAX_PROGRAM_CODE_LENGTH /\ offset < next)
    (CompileInstr_ offset g).
Proof.
  intros Hforward. unfold CompileInstr.
  destruct (code_at MAX_PROGRAM_CODE_LENGTH program_code offset)
    as [instr| | |] eqn:Hcode; cbn [mbind Result_bind]; try done.
  pose proof (code_at_Ok _ _ Hcode) as Hoffset.
  pose proof (Hforward _ _ Hcode) as Hahead. unfold steps_forward in Hahead.
  assert (u32 (offset + 1) = offset + 1) as Hnext
    by (unfold u32; rewrite Z.mod_small; lia).
  assert (u32 (PROGRAM_END MAX_PROGRAM_CODE_LENGTH) = MAX_PROGRAM_CODE_LENGTH)
    as Hend by (unfold u32, PROGRAM_END; rewrite Z.mod_small; lia).
  eapply Returns_bind; [apply Returns_True|]. intros swizzle _.
  eapply (Returns_bind (fun '(o, _) => offset < u32 (o + 1)));
    [|by intros [o g'] Ho].
  destruct (type (GetInfo (opcode instr))).
  - eapply Returns_bind; [apply Returns_True|]. intros [[src1 src2] dest_reg] _.
    eapply Returns_bind; [apply Returns_True|]. intros g' _. cbn. lia.
  - eapply Returns_bind; [apply Returns_True|]. intros g' _. cbn. lia.
  - unfold CompileFlowControl.
    destruct (Value (opcode instr));
      repeat first
        [ done
        | progress cbn [Returns]
        | lia
        | rewrite u32_pred_succ, Hend; lia
        | match goal with
          | |- Returns _ ((if _ then _ else _) ≫= _) =>
              eapply (Returns_bind (fun '(o, _) => offset < u32 (o + 1)));
                [|by intros [? ?] ?]
          end
        | eapply Returns_bind;
            [apply Returns_True
            |first [intros [? ?]|intros ?]; intros _]
        | case_decide
        | by rewrite u32_pred_succ, ?u32_idem ].
Qed.

(** The loop of [CompileRange] needs one unit of fuel for each word from
    [program_counter] to the end of the program, and one to leave. *)
Lemma CompileRangeLoop_steps fuel program_counter bound g :
  forward ->
  (Z.to_nat (MAX_PROGRAM_CODE_LENGTH - program_counter) < fuel)%nat ->
  Stops (CompileRangeLoop_ fuel program_counter bound g) /\
  Returns (fun '(next, _) =>
             next = program_counter \/
             (0 <= program_counter < MAX_PROGRAM_CODE_LENGTH /\
              program_counter < next))
    (CompileRangeLoop_ fuel program_counter bound g).
Proof.
  intros Hforward. revert program_counter g.
  induction fuel as [|fuel IH]; intros pc g Hfuel; [lia|].
  cbn [CompileRangeLoop]. case_decide as Hgo; [|split; [done|by left]].
  pose proof (CompileInstr_stops pc g) as Hstops.
  pose proof (CompileInstr_advances pc g Hforward) as Hadvances.
  destruct (CompileInstr_ pc g) as [[pc' g']| | |]; cbn [mbind Result_bind];
    try done.
  destruct Hadvances as [Hpc Hpc'].
  destruct (IH pc' g') as [Hstops' Hreturns']; [lia|].
  split; [done|].
  eapply Returns_mono; [exact Hreturns'|].
  intros [next g''] [->|[_ Hnext]]; right; lia.
Qed.

Lemma CompileRangeLoop_stops fuel program_counter bound g :
  forward ->
  (Z.to_nat MAX_PROGRAM_CODE_LENGTH < fuel)%nat ->
  Stops (CompileRangeLoop_ fuel program_counter bound g) /\
  Returns (fun '(next, _) =>
             next = program_counter \/
             (0 <= program_counter < MAX_PROGRAM_CODE_LENGTH /\
              program_counter < next))
    (CompileRangeLoop_ fuel program_counter bound g).
Proof.
  intros Hforward Hfuel.
  destruct (decide (0 <= program_counter)) as [Hpc|Hpc];
    [apply CompileRangeLoop_steps; [done|lia]|].
  destruct fuel as [|fuel]; [lia|].
  cbn [CompileRangeLoop]. case_decide as Hgo; [|split; [done|by left]].
  pose proof (CompileInstr_stops program_counter g) as Hstops.
  pose proof (CompileInstr_advances program_counter g Hforward) as Hadvances.
  destruct (CompileInstr_ program_counter g) as [[pc' g']| | |];
    cbn [mbind Result_bind]; try done.
  destruct Hadvances. lia.
Qed.

(** What is left of the loop over the labels at [label]: the labels above
    it and, since a new label comes out of a range that has been compiled,
    the words from [label] to the end of the program. *)
Definition weight (label : Z) (labels : list Z) : nat :=
  (above label labels + Z.to_nat (MAX_PROGRAM_CODE_LENGTH - Z.max 0 label))%nat.

Lemma weight_next label labels compile_end labels' next :
  compile_end = label \/
    (0 <= label < MAX_PROGRAM_CODE_LENGTH /\ label < compile_end) ->
  labels' = labels \/ labels' = labels_insert compile_end labels ->
  lower_bound (label + 1) labels' = Some next ->
  (weight next labels' < weight label labels)%nat.
Proof.
  intros Hend Hlabels [Hnext Hin]%lower_bound_Some. unfold weight.
  destruct Hlabels as [->| ->].
  - pose proof (above_elem label next labels Hin ltac:(lia)). lia.
  - pose proof (above_labels_insert next compile_end labels) as Hinsert.
    apply elem_of_labels_insert in Hin.
    destruct Hend as [->|[Hlabel Hahead]].
    + rewrite decide_False in Hinsert by lia.
      destruct Hin as [->|Hin]; [lia|].
      pose proof (above_elem label next labels Hin ltac:(lia)). lia.
    + destruct Hin as [->|Hin].
      * rewrite decide_False in Hinsert by lia.
        pose proof (above_mono label compile_end labels ltac:(lia)). lia.
      * pose proof (above_elem label next labels Hin ltac:(lia)).
        case_decide; lia.
Qed.

Lemma CompileLabels_stops fuel subroutine label labels g :
  forward ->
  (weight label labels + Z.to_nat MAX_PROGRAM_CODE_LENGTH + 1 < fuel)%nat ->
  Stops (CompileLabels_ fuel subroutine label labels g).
Proof.
  intros Hforward. revert label labels g.
  induction fuel as [|fuel IH]; intros label labels g Hfuel; [lia|].
  cbn [CompileLabels]. unfold CompileRange.
  match goal with
  | |- Stops (CompileRangeLoop_ fuel label ?bound ?g1 ≫= _) =>
      destruct (CompileRangeLoop_stops fuel label bound g1 Hforward)
        as [Hstops Hreturns]; [lia|];
      destruct (CompileRangeLoop_ fuel label bound g1)
        as [[compile_end g2]| | |]; cbn [mbind Result_bind]; try done
  end.
  cbn [Returns] in Hreturns.
  case_decide.
  - destruct (lower_bound (label + 1) _) as [next|] eqn:Hnext; [|done].
    apply IH.
    pose proof (weight_next _ _ _ _ _ Hreturns (or_intror eq_refl) Hnext). lia.
  - destruct (lower_bound (label + 1) _) as [next|] eqn:Hnext; [|done].
    apply IH.
    pose proof (weight_next _ _ _ _ _ Hreturns (or_introl eq_refl) Hnext). lia.
Qed.

Lemma weight_le label labels :
  (weight label labels
   <= length labels + Z.to_nat MAX_PROGRAM_CODE_LENGTH)%nat.
Proof. unfold weight. pose proof (above_le_length label labels). lia. Qed.

Lemma length_labels_insert label labels :
  (length (labels_insert label labels) <= S (length labels))%nat.
Proof.
  induction labels as [|l labels IH]; cbn; [done|].
  repeat case_decide; cbn; lia.
Qed.

(** The fuel one subroutine with at most [most_labels] labels needs. *)
Definition generator_fuel (most_labels : nat) : nat :=
  most_labels + 2 * Z.to_nat MAX_PROGRAM_CODE_LENGTH + 3.

Lemma GenerateSubroutine_stops fuel subroutine g most_labels :
  forward ->
  (length (labels subroutine) <= most_labels)%nat ->
  (generator_fuel most_labels <= fuel)%nat ->
  Stops (GenerateSubroutine_ fuel subroutine g).
Proof.
  intros Hforward Hlabels Hfuel. unfold generator_fuel in Hfuel.
  unfold GenerateSubroutine. apply Stops_bind; [|done].
  case_decide.
  - unfold CompileRange.
    match goal with
    | |- Stops (CompileRangeLoop_ fuel ?pc ?bound ?g1 ≫= _) =>
        destruct (CompileRangeLoop_stops fuel pc bound g1 Hforward)
          as [Hstops _]; [lia|];
        destruct (CompileRangeLoop_ fuel pc bound g1) as [[? ?]| | |];
          cbn [mbind Result_bind]; try done
    end.
    by case_decide.
  - apply Stops_bind; [|done].
    pose proof (length_labels_insert (begin subroutine) (labels subroutine)).
    destruct (labels_insert _ _) as [|first rest] eqn:Hinserted; [done|].
    apply CompileLabels_stops; [done|].
    pose proof (weight_le first (first :: rest)). lia.
Qed.

Lemma GenerateSubroutines_stops fuel subs g most_labels :
  forward ->
  (forall subroutine,
     subroutine ∈ subs -> (length (labels subroutine) <= most_labels)%nat) ->
  (generator_fuel most_labels <= fuel)%nat ->
  Stops (GenerateSubroutines_ fuel subs g).
Proof.
  intros Hforward Hlabels Hfuel. revert g.
  induction subs as [|subroutine rest IH]; intros g; [done|].
  cbn [GenerateSubroutines]. apply Stops_bind.
  - eapply GenerateSubroutine_stops; [done| |done].
    apply Hlabels, list_elem_of_here.
  - intros g'. apply IH. intros s Hs. by apply Hlabels, list_elem_of_further.
Qed.

End Forward.

(** ** The labels the analysis collects *)

(** A [std::set<u32>]: strictly increasing. *)
Fixpoint increasing (labels : list Z) : Prop :=
  match labels with
  | [] => True
  | l :: rest => Forall (fun x => l < x) rest /\ increasing rest
  end.

Lemma increasing_NoDup labels : increasing labels -> NoDup labels.
Proof.
  induction labels as [|l rest IH]; [constructor|].
  intros [Hl Hrest]. constructor; [|by apply IH].
  intros Hin. rewrite Forall_forall in Hl. specialize (Hl _ Hin). lia.
Qed.

Lemma increasing_labels_insert label labels :
  increasing labels -> increasing (labels_insert label labels).
Proof.
  induction labels as [|l rest IH]; [done|].
  intros [Hl Hrest]. cbn [labels_insert]. repeat case_decide.
  - split; [|done]. constructor; [done|].
    eapply Forall_impl; [exact Hl|]. cbn. lia.
  - done.
  - split; [|by apply IH].
    apply Forall_forall. intros x [->|Hx]%elem_of_labels_insert; [lia|].
    rewrite Forall_forall in Hl. by apply Hl.
Qed.

Section Labels.

Variable MAX_PROGRAM_CODE_LENGTH : Z.
Variable program_code : ProgramCode.

Local Abbreviation Scan_ := (Scan MAX_PROGRAM_CODE_LENGTH program_code).
Local Abbreviation ScanLoop_ := (ScanLoop MAX_PROGRAM_CODE_LENGTH program_code).
Local Abbreviation AddSubroutine_ :=
  (AddSubroutine MAX_PROGRAM_CODE_LENGTH program_code).

(** The labels are in increasing order and each is the [dest_offset] of a
    word of the program. *)
Definition tidy (labels : list Z) : Prop :=
  increasing labels /\
  forall label,
    label ∈ labels ->
    exists instr, instr ∈ program_code /\ dest_offset (flow_control instr) = label.

Lemma tidy_nil : tidy [].
Proof. split; [done|]. by intros label Hlabel%elem_of_nil. Qed.

Lemma tidy_labels_insert instr labels :
  instr ∈ program_code ->
  tidy labels ->
  tidy (labels_insert (dest_offset (flow_control instr)) labels).
Proof.
  intros Hinstr [Hincreasing Htargets].
  split; [by apply increasing_labels_insert|].
  intros label [->|Hlabel]%elem_of_labels_insert; [by exists instr|by apply Htargets].
Qed.

(** There are no more labels than words. *)
Lemma tidy_length labels : tidy labels -> (length labels <= length program_code)%nat.
Proof.
  intros [Hincreasing Htargets].
  rewrite <- (length_fmap (dest_offset ∘ flow_control) program_code).
  apply submseteq_length, NoDup_submseteq; [by apply increasing_NoDup|].
  intros label Hlabel. destruct (Htargets _ Hlabel) as (instr & Hinstr & <-).
  apply list_elem_of_fmap. by exists instr.
Qed.

Lemma code_at_elem_of offset instr :
  code_at MAX_PROGRAM_CODE_LENGTH program_code offset = Ok instr ->
  instr ∈ program_code.
Proof.
  unfold code_at. case_decide; [|done].
  destruct (program_code !! Z.to_nat offset) as [found|] eqn:Hfound; [|done].
  intros [= <-]. by eapply list_elem_of_lookup_2.
Qed.

Definition tidy_subroutines (st : Analyzer) : Prop :=
  forall sub, sub ∈ subroutines st -> tidy (labels sub).

Ltac tidy_up IHScan IHLoop IHAdd :=
  repeat first
    [ done
    | by apply IHLoop
    | match goal with
      | |- Returns _ ((if _ then _ else _) ≫= _) =>
          eapply (Returns_bind (fun p => tidy_subroutines (snd p)));
            [case_decide;
               [eapply Returns_bind;
                  [by apply IHAdd|by intros [? ?] ?]
               |done]
            |intros [? ?]; cbn; intros]
      end
    | eapply Returns_bind;
        [first [by apply IHScan
               |apply IHScan; [by apply tidy_labels_insert|done]
               |by apply IHAdd]
        |first [intros [[? ?] ?]|intros [? ?]|intros ?]; cbn; intros;
         destruct_and?]
    | case_decide
    | progress cbn [Returns]
    | split ].

Lemma analysis_tidy fuel :
  (forall begin end_ labels st,
     tidy labels -> tidy_subroutines st ->
     Returns (fun '(_, labels', st') => tidy labels' /\ tidy_subroutines st')
       (Scan_ fuel begin end_ labels st)) /\
  (forall key offset labels st,
     tidy labels -> tidy_subroutines st ->
     Returns (fun '(_, labels', st') => tidy labels' /\ tidy_subroutines st')
       (ScanLoop_ fuel key offset labels st)) /\
  (forall begin end_ st,
     tidy_subroutines st ->
     Returns (fun '(_, st') => tidy_subroutines st')
       (AddSubroutine_ fuel begin end_ st)).
Proof.
  induction fuel as [|fuel (IHScan & IHLoop & IHAdd)]; [done|].
  repeat split.
  - intros begin end_ labels st Hlabels Hst. cbn [Scan].
    destruct (exit_method_map st !! _); [done|]. by apply IHLoop.
  - intros key offset labels st Hlabels Hst. cbn [ScanLoop].
    case_decide as Hgo; [|done].
    destruct (code_at MAX_PROGRAM_CODE_LENGTH program_code offset)
      as [instr| | |] eqn:Hcode; cbn [mbind Result_bind]; try done.
    pose proof (code_at_elem_of _ _ Hcode) as Hinstr.
    destruct (Value (opcode instr)); tidy_up IHScan IHLoop IHAdd.
  - intros begin end_ st Hst. cbn [AddSubroutine].
    destruct (subroutines_find _ _) eqn:Hfound; [done|].
    eapply Returns_bind; [apply IHScan; [apply tidy_nil|done]|].
    intros [[exit_method labels] st'] [Hlabels Hst']. cbn.
    case_decide as Hexit; [done|].
    pose proof (subroutines_insert_find
                  {| begin := begin; end_ := end_;
                     exit_method := exit_method; labels := labels |}
                  (subroutines st')) as Hinsert.
    destruct (subroutines_insert _ _) as [found subs']. cbn.
    destruct Hinsert as (_ & _ & Hsubs).
    intros sub Hsub. destruct (Hsubs _ Hsub) as [->|Hold]; [done|by apply Hst'].
Qed.

(** No subroutine the analysis returns has more labels than the program
    has words. *)
Lemma ControlFlowAnalyzer_labels fuel main_offset subs sub :
  ControlFlowAnalyzer MAX_PROGRAM_CODE_LENGTH program_code fuel main_offset = Ok subs ->
  sub ∈ subs ->
  (length (labels sub) <= length program_code)%nat.
Proof.
  unfold ControlFlowAnalyzer.
  destruct (analysis_tidy fuel) as (_ & _ & HAdd).
  specialize (HAdd main_offset (PROGRAM_END MAX_PROGRAM_CODE_LENGTH)
                {| subroutines := []; exit_method_map := ∅ |}).
  destruct (AddSubroutine_ fuel main_offset _ _) as [[program_main st]| | |];
    cbn; try done.
  case_decide; [done|]. intros [= <-] Hsub.
  apply tidy_length, HAdd; [|done]. by intros s Hs%elem_of_nil.
Qed.

End Labels.

(** ** The decompiler returns *)

Section Returning.

Variable MAX_PROGRAM_CODE_LENGTH : Z.
Variable program_code : ProgramCode.
Variable swizzle_data : SwizzleData.
Variable main_offset : Z.
Variable inputreg_getter outputreg_getter : RegGetter.
Variable sanitize_mul : bool.

Hypothesis PROGRAM_END_u32 : MAX_PROGRAM_CODE_LENGTH < 2 ^ 32.

Lemma GLSLGenerator_stops subroutines fuel most_labels :
  forward MAX_PROGRAM_CODE_LENGTH program_code ->
  (forall subroutine,
     subroutine ∈ subroutines ->
     (length (labels subroutine) <= most_labels)%nat) ->
  (generator_fuel MAX_PROGRAM_CODE_LENGTH most_labels <= fuel)%nat ->
  Stops (GLSLGenerator MAX_PROGRAM_CODE_LENGTH subroutines program_code
           swizzle_data main_offset inputreg_getter outputreg_getter
           sanitize_mul fuel).
Proof.
  intros Hforward Hlabels Hfuel. unfold GLSLGenerator, Generate.
  apply Stops_bind; [|done].
  apply Stops_bind; [unfold GetSubroutine; by destruct (subroutines_find _ _)|].
  intros program_main. by eapply GenerateSubroutines_stops.
Qed.

(** The fuel that is enough for the analysis and for the generator. *)
Definition decompile_fuel : nat :=
  enough_fuel MAX_PROGRAM_CODE_LENGTH program_code
  `max` generator_fuel MAX_PROGRAM_CODE_LENGTH (length program_code).

(** X8.  [DecompileProgram] returns for every program none of whose IF and
    LOOP words closes its block at or before the word itself: given
    [decompile_fuel] it yields a string, unless it runs into one of the
    assertions or out of one of the arrays on the way. *)
Theorem DecompileProgram_returns_on_forward_programs fuel :
  forward MAX_PROGRAM_CODE_LENGTH program_code ->
  (decompile_fuel <= fuel)%nat ->
  let outcome :=
    DecompileProgram MAX_PROGRAM_CODE_LENGTH fuel program_code swizzle_data
      main_offset inputreg_getter outputreg_getter sanitize_mul in
  (exists source, outcome = Ok source) \/ (exists why, outcome = Undefined why).
Proof.
  intros Hforward Hfuel outcome. unfold decompile_fuel in Hfuel.
  pose proof (ControlFlowAnalyzer_terminates MAX_PROGRAM_CODE_LENGTH program_code
                PROGRAM_END_u32 main_offset fuel ltac:(lia)) as Hanalysis.
  pose proof (ControlFlowAnalyzer_labels MAX_PROGRAM_CODE_LENGTH program_code
                fuel main_offset) as Hlabels.
  unfold outcome, DecompileProgram.
  destruct (ControlFlowAnalyzer _ _ _ _) as [subs|what|why|];
    cbn [mbind Result_bind]; [|left; by eexists|right; by eexists|done].
  pose proof (GLSLGenerator_stops subs fuel (length program_code) Hforward
                (fun sub => Hlabels subs sub eq_refl) ltac:(lia)) as Hgenerator.
  destruct (GLSLGenerator _ _ _ _ _ _ _ _ _) as [source|what|why|];
    [left|left|right|done]; by eexists.
Qed.

End Returning.

(** *** A forward program, run *)

Lemma forward_array n words :
  (length words <= n)%nat ->
  (forall i instr,
     words !! i = Some instr -> steps_forward (Z.of_nat i) instr) ->
  forward (Z.of_nat n) (array n words).
Proof.
  intros Hlength Hwords offset instr. unfold code_at. case_decide as Hoffset; [|done].
  destruct (array n words !! Z.to_nat offset) as [found|] eqn:Hfound; [|done].
  intros [= <-]. unfold array in Hfound.
  apply lookup_app_Some in Hfound as [Hfound|[_ Hfound]].
  - apply Hwords in Hfound. by rewrite Z2Nat.id in Hfound by lia.
  - apply list_elem_of_lookup_2, list_elem_of_In, repeat_spec in Hfound.
    by subst found.
Qed.

Lemma forward_branching : forward 4096 branching.
Proof.
  apply (forward_array 4096
           [flow IFU "ifu" 2 1; arithmetic MUL "mul"; arithmetic ADD "add";
            flow END "end" 0 0]).
  - apply Nat.leb_le. reflexivity.
  - intros [|[|[|[|i]]]] instr; cbn; intros [= <-]; done.
Defined.

Lemma DecompileProgram_returns_on_forward_programs_witness :
  (exists source,
     DecompileProgram 4096 (decompile_fuel 4096 branching) branching
       [full_mask] 0 vs_in vs_out true = Ok source) \/
  (exists why,
     DecompileProgram 4096 (decompile_fuel 4096 branching) branching
       [full_mask] 0 vs_in vs_out true = Undefined why).
Proof.
  apply (DecompileProgram_returns_on_forward_programs 4096 branching
           [full_mask] 0 vs_in vs_out true eq_refl
           (decompile_fuel 4096 branching) forward_branching).
  apply Nat.le_refl.
Defined.

(** *** Subroutines are analysed once *)

Section Once.

Variable MAX_PROGRAM_CODE_LENGTH : Z.
Variable program_code : ProgramCode.

(** X16.  [AddSubroutine] hands out the subroutine of the range it is asked
    for, with a determined exit method, and stores it: asked again, it
    returns the stored subroutine and analyses nothing. *)
Theorem AddSubroutine_returns_the_stored_subroutine
    fuel begin_ end__ st sub st' :
  determined (subroutines st) ->
  AddSubroutine MAX_PROGRAM_CODE_LENGTH program_code fuel begin_ end__ st
  = Ok (sub, st') ->
  begin sub = begin_ /\ end_ sub = end__ /\
  exit_method sub <> Undetermined /\
  forall fuel',
    AddSubroutine MAX_PROGRAM_CODE_LENGTH program_code (S fuel') begin_ end__ st'
    = Ok (sub, st').
Proof.
  intros Hst Hadd.
  destruct (analysis_determined MAX_PROGRAM_CODE_LENGTH program_code fuel)
    as (_ & _ & HAdd).
  specialize (HAdd begin_ end__ st Hst). rewrite Hadd in HAdd.
  destruct HAdd as [Hst' Hfound].
  destruct (subroutines_find_Some _ _ _ Hfound) as [Hin [= Hbegin Hend]].
  repeat split; [done..|by apply Hst'|].
  intros fuel'. cbn [AddSubroutine]. by rewrite Hfound.
Qed.

End Once.

Lemma AddSubroutine_returns_the_stored_subroutine_witness :
  AddSubroutine 4096 branching 1 2 3
    {| subroutines :=
         [ {| begin := 2; end_ := 3; exit_method := AlwaysReturn; labels := [] |} ];
       exit_method_map := {[ (2, 3) := AlwaysReturn ]} |}
  = Ok ({| begin := 2; end_ := 3; exit_method := AlwaysReturn; labels := [] |},
        {| subroutines :=
             [ {| begin := 2; end_ := 3; exit_method := AlwaysReturn;
                  labels := [] |} ];
           exit_method_map := {[ (2, 3) := AlwaysReturn ]} |}).
Proof.
  destruct (AddSubroutine_returns_the_stored_subroutine 4096 branching 4 2 3
              start
              {| begin := 2; end_ := 3; exit_method := AlwaysReturn; labels := [] |}
              {| subroutines :=
                   [ {| begin := 2; end_ := 3; exit_method := AlwaysReturn;
                        labels := [] |} ];
                 exit_method_map := {[ (2, 3) := AlwaysReturn ]} |})
    as (_ & _ & _ & Hagain).
  - by intros sub Hsub%elem_of_nil.
  - vm_compute. reflexivity.
  - apply Hagain.
Defined.

(** *** Calls *)

Lemma append_not_empty a b : a <> "" -> a +:+ b <> "".
Proof. by destruct a. Qed.

Lemma EvaluateCondition_not_empty flow_control condition :
  EvaluateCondition flow_control = Ok condition -> condition <> "".
Proof.
  unfold EvaluateCondition.
  destruct (op flow_control), (refx flow_control), (refy flow_control); cbn;
    intros [= <-]; done.
Qed.

Section Calls.

Variable MAX_PROGRAM_CODE_LENGTH : Z.
Variable subroutines : list Subroutine.
Variable program_code : ProgramCode.
Variable swizzle_data : SwizzleData.
Variable inputreg_getter outputreg_getter : RegGetter.
Variable sanitize_mul : bool.

(** X17.  A conditional call is never written as a plain block: for a CALLC
    or CALLU word the lines of the call stand inside [if (condition) {],
    with a condition that is not empty, and the next instruction is the one
    after the word even when the callee always ends; for a CALL word they
    stand inside a bare [{], and the next offset is the one after
    [PROGRAM_END - 1] exactly when the callee always ends. *)
Theorem conditional_calls_are_guarded offset g instr next g' :
  code_at MAX_PROGRAM_CODE_LENGTH program_code offset = Ok instr ->
  type (GetInfo (opcode instr)) = OtherType ->
  CompileInstr MAX_PROGRAM_CODE_LENGTH subroutines program_code swizzle_data
    inputreg_getter outputreg_getter sanitize_mul offset g = Ok (next, g') ->
  let fc := flow_control instr in
  let called opening call_sub :=
    emit "}" (rescope (-1)
      (CallSubroutine call_sub
         (rescope 1 (emit opening (emit (comment offset instr) g))))) in
  (Value (opcode instr) = CALLC \/ Value (opcode instr) = CALLU ->
   exists condition call_sub,
     condition <> "" /\
     GetSubroutine subroutines (dest_offset fc)
       (u32 (dest_offset fc + num_instructions fc)) = Ok call_sub /\
     g' = called ("if (" +:+ condition +:+ ") {") call_sub /\
     next = u32 (offset + 1)) /\
  (Value (opcode instr) = CALL ->
   exists call_sub,
     GetSubroutine subroutines (dest_offset fc)
       (u32 (dest_offset fc + num_instructions fc)) = Ok call_sub /\
     g' = called "{" call_sub /\
     next = if decide (exit_method call_sub = AlwaysEnd)
            then u32 (u32 (PROGRAM_END MAX_PROGRAM_CODE_LENGTH - 1) + 1)
            else u32 (offset + 1)).
Proof.
  intros Hcode Htype. unfold CompileInstr. rewrite Hcode. cbn [mbind Result_bind].
  rewrite Htype.
  destruct (swizzle_at swizzle_data _) as [swizzle| | |]; cbn [mbind Result_bind];
    try done.
  fold (comment offset instr). unfold CompileFlowControl.
  intros Hcall. split.
  - intros [Hop|Hop]; rewrite Hop in Hcall; cbn [mbind Result_bind] in Hcall.
    + rewrite decide_True in Hcall by done.
      destruct (EvaluateCondition (flow_control instr)) as [condition| | |]
        eqn:Hcondition; cbn [mbind Result_bind] in Hcall; try done.
      pose proof (EvaluateCondition_not_empty _ _ Hcondition) as Hnot_empty.
      rewrite decide_False in Hcall by done.
      destruct (GetSubroutine _ _ _) as [call_sub| | |];
        cbn [mbind Result_bind] in Hcall; try done.
      rewrite decide_False in Hcall by (by intros [? _]).
      injection Hcall as <- <-. by exists condition, call_sub.
    + rewrite decide_False in Hcall by done.
      rewrite decide_True in Hcall by done.
      cbn [mbind Result_bind] in Hcall.
      rewrite decide_False in Hcall by done.
      destruct (GetSubroutine _ _ _) as [call_sub| | |];
        cbn [mbind Result_bind] in Hcall; try done.
      rewrite decide_False in Hcall by (by intros [? _]).
      injection Hcall as <- <-.
      by exists (GetUniformBool (bool_uniform_id (flow_control instr))), call_sub.
  - intros Hop. rewrite Hop in Hcall. cbn [mbind Result_bind] in Hcall.
    rewrite !decide_False in Hcall by done. cbn [mbind Result_bind] in Hcall.
    try rewrite decide_True in Hcall by done.
    destruct (GetSubroutine _ _ _) as [call_sub| | |];
      cbn [mbind Result_bind] in Hcall; try done.
    exists call_sub. split; [done|].
    destruct (decide (exit_method call_sub = AlwaysEnd)) as [Hend|Hend].
    + rewrite decide_True in Hcall by done. by injection Hcall as <- <-.
    + rewrite decide_False in Hcall by (by intros [_ ?]).
      by injection Hcall as <- <-.
Qed.

End Calls.

(** A CALLU at offset 0 of the subroutine that is the ADD at offset 2. *)
Definition calling : ProgramCode :=
  array 4096
    [flow CALLU "callu" 2 1; flow END "end" 0 0; arithmetic ADD "add"].

Definition callee : Subroutine :=
  {| begin := 2; end_ := 3; exit_method := AlwaysReturn; labels := [] |}.

Lemma conditional_calls_are_guarded_witness :
  exists condition call_sub,
    condition <> "" /\
    GetSubroutine [callee] 2 (u32 (2 + 1)) = Ok call_sub /\
    emit "}" (rescope (-1) (CallSubroutine callee
      (rescope 1 (emit "if (uniforms.b[0]) {" (emit "// 0: callu" fresh)))))
    = emit "}" (rescope (-1) (CallSubroutine call_sub
        (rescope 1 (emit ("if (" +:+ condition +:+ ") {")
                      (emit "// 0: callu" fresh))))) /\
    1 = u32 (0 + 1).
Proof.
  destruct (conditional_calls_are_guarded 4096 [callee] calling [full_mask]
              vs_in vs_out false 0 fresh (flow CALLU "callu" 2 1) 1
              (emit "}" (rescope (-1) (CallSubroutine callee
                 (rescope 1 (emit "if (uniforms.b[0]) {"
                               (emit "// 0: callu" fresh)))))))
    as [Hguarded _]; [reflexivity..|].
  apply Hguarded. by right.
Defined.

(** *** Declarations and definitions *)

(** What [emit] appends at the outermost level: the line and a line feed. *)
Lemma emit_outermost text g :
  scope (shader g) = 0 ->
  shader_source (shader (emit text g))
  = shader_source (shader g) +:+ text +:+ newline.
Proof.
  intros Hscope. unfold emit, AddLine, AddNewLine, AddExpression. cbn.
  rewrite Hscope. case_decide; cbn; by rewrite ?append_nil_r, append_assoc.
Qed.

Section Definitions.

Variable MAX_PROGRAM_CODE_LENGTH : Z.
Variable subroutines : list Subroutine.
Variable program_code : ProgramCode.
Variable swizzle_data : SwizzleData.
Variable main_offset : Z.
Variable inputreg_getter outputreg_getter : RegGetter.
Variable sanitize_mul : bool.

Local Abbreviation GenerateSubroutine_ :=
  (GenerateSubroutine MAX_PROGRAM_CODE_LENGTH subroutines program_code swizzle_data
     inputreg_getter outputreg_getter sanitize_mul).
Local Abbreviation GenerateSubroutines_ :=
  (GenerateSubroutines MAX_PROGRAM_CODE_LENGTH subroutines program_code swizzle_data
     inputreg_getter outputreg_getter sanitize_mul).

(** The line that declares a subroutine and the line that opens its
    definition. *)
Definition declaration (subroutine : Subroutine) : string :=
  "bool " +:+ GetName subroutine +:+ "();".

Definition opening (subroutine : Subroutine) : string :=
  "bool " +:+ GetName subroutine +:+ "() {".

Lemma declarations_declare subs subroutine g :
  scope (shader g) = 0 ->
  subroutine ∈ subs ->
  exists before declarations,
    shader_source
      (shader (foldl (fun g subroutine =>
                        emit ("bool " +:+ GetName subroutine +:+ "();") g) g subs))
    = before +:+ declaration subroutine +:+ newline +:+ declarations.
Proof.
  revert g. induction subs as [|s rest IH]; intros g Hscope Hin;
    [by apply elem_of_nil in Hin|].
  cbn [foldl].
  apply elem_of_cons in Hin as [->|Hin].
  - assert (extends (emit ("bool " +:+ GetName s +:+ "();") g)
              (foldl (fun g subroutine =>
                        emit ("bool " +:+ GetName subroutine +:+ "();") g)
                 (emit ("bool " +:+ GetName s +:+ "();") g) rest))
      as [[text Htext] _] by (by extended).
    rewrite emit_outermost in Htext by done.
    exists (shader_source (shader g)), text.
    unfold declaration. rewrite Htext. by rewrite !append_assoc.
  - apply IH; [|done]. by scopes.
Qed.

Lemma GenerateSubroutine_opens fuel subroutine g :
  Returns (fun g' => extends (emit (opening subroutine) g) g')
    (GenerateSubroutine_ fuel subroutine g).
Proof.
  unfold GenerateSubroutine. fold (opening subroutine).
  set (g0 := emit (opening subroutine) g).
  eapply (Returns_bind (fun g' => extends g0 g')).
  - case_decide.
    + eapply Returns_bind; [apply CompileRangeLoop_steady|].
      intros [compile_end g'] [_ Hextends].
      assert (extends g0 g') as Hg'.
      { eapply extends_trans; [|exact Hextends]. by extended. }
      case_decide; cbn [Returns]; by extended.
    + set (g1 := emit "switch (jmp_to) {" _).
      assert (extends g0 g1) as Hextends1 by (subst g1; by extended).
      clearbody g1.
      eapply (Returns_bind (fun g' => steady g1 g')).
      * destruct (labels_insert _ _); [apply steady_refl|].
        apply CompileLabels_steady.
      * intros g' [_ Hextends]. cbn [Returns].
        assert (extends g0 g') by by eapply extends_trans.
        by extended.
  - intros g' Hextends. cbn [Returns]. by extended.
Qed.

Lemma GenerateSubroutines_defines fuel subs subroutine g :
  scope (shader g) = 0 ->
  subroutine ∈ subs ->
  Returns (fun g' =>
             exists text rest,
               shader_source (shader g')
               = shader_source (shader g) +:+ text +:+
                 opening subroutine +:+ newline +:+ rest)
    (GenerateSubroutines_ fuel subs g).
Proof.
  revert g. induction subs as [|s rest IH]; intros g Hscope Hin;
    [by apply elem_of_nil in Hin|].
  cbn [GenerateSubroutines].
  pose proof (GenerateSubroutine_steady MAX_PROGRAM_CODE_LENGTH subroutines
                program_code swizzle_data inputreg_getter outputreg_getter
                sanitize_mul fuel s g) as Hsteady.
  pose proof (GenerateSubroutine_opens fuel s g) as Hopens.
  destruct (GenerateSubroutine_ fuel s g) as [g1| | |]; cbn [mbind Result_bind];
    try done.
  destruct Hsteady as [Hscope1 [[text1 Htext1] _]].
  destruct Hopens as [[opened Hopened] _].
  rewrite emit_outermost in Hopened by done.
  apply elem_of_cons in Hin as [->|Hin].
  - pose proof (GenerateSubroutines_steady MAX_PROGRAM_CODE_LENGTH subroutines
                  program_code swizzle_data inputreg_getter outputreg_getter
                  sanitize_mul fuel rest g1) as Hrest.
    destruct (GenerateSubroutines_ fuel rest g1) as [g'| | |]; try done.
    destruct Hrest as [_ [[text Htext] _]]. cbn [Returns].
    exists "", (opened +:+ text). rewrite Htext, Hopened.
    by rewrite !append_assoc.
  - eapply Returns_mono; [apply IH; [congruence|done]|].
    intros g' (text & definitions & Hg'). exists (text1 +:+ text), definitions.
    rewrite Hg', Htext1. by rewrite !append_assoc.
Qed.

(** X18.  Every subroutine of the set the generator is given is declared
    before the entry point [exec_shader] and defined after it in the shader
    the generator returns. *)
Theorem every_subroutine_is_declared_and_defined fuel source subroutine :
  GLSLGenerator MAX_PROGRAM_CODE_LENGTH subroutines program_code swizzle_data
    main_offset inputreg_getter outputreg_getter sanitize_mul fuel = Ok source ->
  subroutine ∈ subroutines ->
  exists before declarations entry definitions,
    source =
      before +:+ declaration subroutine +:+ newline +:+
      declarations +:+ "bool exec_shader() {" +:+ newline +:+
      entry +:+ opening subroutine +:+ newline +:+
      definitions.
Proof.
  unfold GLSLGenerator, Generate. intros Hsource Hin.
  set (registers := {| shader := AddNewLine (shader (declare_reg_tmp _));
                       log := _ |}) in Hsource.
  assert (scope (shader registers) = 0) as Hscope.
  { subst registers. unfold declare_reg_tmp. scopes. by destruct sanitize_mul. }
  clearbody registers.
  set (declared := foldl _ registers subroutines) in Hsource.
  assert (scope (shader declared) = 0) as Hdeclared_scope
    by (subst declared; by scopes).
  destruct (declarations_declare subroutines subroutine registers Hscope Hin)
    as (before & declarations & Hdeclared).
  fold declared in Hdeclared.
  clearbody declared.
  destruct (GetSubroutine _ _ _) as [program_main| | |];
    cbn [mbind Result_bind] in Hsource; try done.
  match type of Hsource with
  | context [GenerateSubroutines _ _ _ _ _ _ _ _ _ ?g] =>
      pose proof (GenerateSubroutines_defines fuel subroutines subroutine g)
        as Hdefined;
      assert (scope (shader g) = 0) as Hentry_scope
        by (scopes; cbn; lia);
      match g with
      | context [emit "bool exec_shader() {" ?blank] =>
          assert (extends (emit "bool exec_shader() {" blank) g)
            as [[entry Hentry] _] by (by extended);
          rewrite (emit_outermost "bool exec_shader() {") in Hentry
            by (cbn; exact Hdeclared_scope)
      end
  end.
  destruct (GenerateSubroutines _ _ _ _ _ _ _ _ _ _) as [g'| | |];
    cbn [mbind Result_bind] in Hsource; try done.
  injection Hsource as <-.
  destruct (Hdefined Hentry_scope Hin) as (text & definitions & Hg').
  exists before, (declarations +:+ newline), (entry +:+ text), definitions.
  rewrite Hg', Hentry. cbn [shader shader_source AddNewLine].
  rewrite Hdeclared. by rewrite !append_assoc.
Qed.

End Definitions.

Lemma every_subroutine_is_declared_and_defined_witness :
  exists before declarations entry definitions,
    branching_shader =
      before +:+ "bool sub_1_2();" +:+ newline +:+
      declarations +:+ "bool exec_shader() {" +:+ newline +:+
      entry +:+ "bool sub_1_2() {" +:+ newline +:+
      definitions.
Proof.
  apply (every_subroutine_is_declared_and_defined 4096 branching_subroutines
           branching [full_mask] 0 vs_in vs_out true 8 branching_shader
           {| begin := 1; end_ := 2; exit_method := AlwaysReturn; labels := [] |}
           branching_generated).
  apply list_elem_of_further, list_elem_of_here.
Defined.

End Legacy.

Module Spirv.

(** ** The SPIR-V floating point emitters

    An [Id] is the result id of an emitted instruction; it is represented by
    the instruction and the ids of its operands, so that an emitter returns
    the expression it has appended to the module. *)

Inductive TypeId : Type := U1 | F16 | F32 | F64.

Inductive Id : Type :=
| Operand (n : nat)
| Constant (type : TypeId) (value : spec_float)
| OpFMin (type : TypeId) (x y : Id)
| OpFMax (type : TypeId) (x y : Id)
| OpFClamp (type : TypeId) (x min_val max_val : Id)
| OpFOrdEqual (type : TypeId) (lhs rhs : Id)
| OpFUnordEqual (type : TypeId) (lhs rhs : Id)
| OpFOrdNotEqual (type : TypeId) (lhs rhs : Id)
| OpFUnordNotEqual (type : TypeId) (lhs rhs : Id)
| OpFOrdLessThan (type : TypeId) (lhs rhs : Id)
| OpFUnordLessThan (type : TypeId) (lhs rhs : Id)
| OpFOrdGreaterThan (type : TypeId) (lhs rhs : Id)
| OpFUnordGreaterThan (type : TypeId) (lhs rhs : Id)
| OpFOrdLessThanEqual (type : TypeId) (lhs rhs : Id)
| OpFUnordLessThanEqual (type : TypeId) (lhs rhs : Id)
| OpFOrdGreaterThanEqual (type : TypeId) (lhs rhs : Id)
| OpFUnordGreaterThanEqual (type : TypeId) (lhs rhs : Id)
| OpIsNan (type : TypeId) (operand : Id)
| OpLogicalNot (type : TypeId) (operand : Id)
| OpLogicalAnd (type : TypeId) (a b : Id)
| OpLogicalOr (type : TypeId) (a b : Id).

(** The two fields of [Profile] the emitters read. *)
Record Profile : Type := {
  ignore_nan_fp_comparisons : bool;
  has_broken_spirv_clamp : bool;
}.

Record EmitContext : Type := {
  profile : Profile;
}.

Definition Clamp (ctx : EmitContext) (type : TypeId) (value zero one : Id) : Id :=
  if has_broken_spirv_clamp (profile ctx) then
    OpFMin type (OpFMax type value zero) one
  else OpFClamp type value zero one.

Definition FPOrdNotEqual (ctx : EmitContext) (lhs rhs : Id) : Id :=
  if ignore_nan_fp_comparisons (profile ctx) then
    let comp := OpFOrdEqual U1 lhs rhs in
    let lhs_not_nan := OpLogicalNot U1 (OpIsNan U1 lhs) in
    let rhs_not_nan := OpLogicalNot U1 (OpIsNan U1 rhs) in
    OpLogicalAnd U1 (OpLogicalAnd U1 comp lhs_not_nan) rhs_not_nan
  else OpFOrdNotEqual U1 lhs rhs.

Definition FPUnordCompare (comp_func : TypeId -> Id -> Id -> Id)
    (ctx : EmitContext) (lhs rhs : Id) : Id :=
  if ignore_nan_fp_comparisons (profile ctx) then
    let lhs_nan := OpIsNan U1 lhs in
    let rhs_nan := OpIsNan U1 rhs in
    let comp := comp_func U1 lhs rhs in
    OpLogicalOr U1 (OpLogicalOr U1 comp lhs_nan) rhs_nan
  else comp_func U1 lhs rhs.

(** The floating point formats of the emitters' three variants
    ([...16], [...32] and [...64]). *)
Inductive Width : Type := W16 | W32 | W64.

Definition F (width : Width) : TypeId :=
  match width with W16 => F16 | W32 => F32 | W64 => F64 end.

(** [ctx.Constant(ctx.F16[1], u16{0})], [ctx.Const(f32{0.0})] and
    [ctx.Constant(ctx.F64[1], f64{0.0})]. *)
Definition zero (width : Width) : Id := Constant (F width) (S754_zero false).

(** [ctx.Constant(ctx.F16[1], u16{0x3c00})], [ctx.Const(f32{1.0})] and
    [ctx.Constant(ctx.F64[1], f64{1.0})]: the number one in each format. *)
Definition one_value (width : Width) : spec_float :=
  match width with
  | W16 => S754_finite false 1024 (-10)
  | W32 => S754_finite false 8388608 (-23)
  | W64 => S754_finite false 4503599627370496 (-52)
  end.

Definition one (width : Width) : Id := Constant (F width) (one_value width).

(** [EmitFPSaturate16], [EmitFPSaturate32], [EmitFPSaturate64]. *)
Definition EmitFPSaturate (width : Width) (ctx : EmitContext) (value : Id) : Id :=
  Clamp ctx (F width) value (zero width) (one width).

(** [EmitFPClamp16], [EmitFPClamp32], [EmitFPClamp64]. *)
Definition EmitFPClamp (width : Width) (ctx : EmitContext)
    (value min_value max_value : Id) : Id :=
  Clamp ctx (F width) value min_value max_value.

(** The comparison opcodes of the IR.  The three variants of each emitter
    have the same body. *)
Inductive FPCompare : Type :=
| FPOrdEqual | FPUnordEqual | FPOrdNotEqual_ | FPUnordNotEqual
| FPOrdLessThan | FPUnordLessThan | FPOrdGreaterThan | FPUnordGreaterThan
| FPOrdLessThanEqual | FPUnordLessThanEqual
| FPOrdGreaterThanEqual | FPUnordGreaterThanEqual.

(** [EmitFPOrdEqual16] ... [EmitFPUnordGreaterThanEqual64]. *)
Definition EmitFPCompare (opcode : FPCompare) (width : Width) (ctx : EmitContext)
    (lhs rhs : Id) : Id :=
  match opcode with
  | FPOrdEqual => OpFOrdEqual U1 lhs rhs
  | FPUnordEqual => FPUnordCompare OpFUnordEqual ctx lhs rhs
  | FPOrdNotEqual_ => FPOrdNotEqual ctx lhs rhs
  | FPUnordNotEqual => OpFUnordNotEqual U1 lhs rhs
  | FPOrdLessThan => OpFOrdLessThan U1 lhs rhs
  | FPUnordLessThan => FPUnordCompare OpFUnordLessThan ctx lhs rhs
  | FPOrdGreaterThan => OpFOrdGreaterThan U1 lhs rhs
  | FPUnordGreaterThan => FPUnordCompare OpFUnordGreaterThan ctx lhs rhs
  | FPOrdLessThanEqual => OpFOrdLessThanEqual U1 lhs rhs
  | FPUnordLessThanEqual => FPUnordCompare OpFUnordLessThanEqual ctx lhs rhs
  | FPOrdGreaterThanEqual => OpFOrdGreaterThanEqual U1 lhs rhs
  | FPUnordGreaterThanEqual => FPUnordCompare OpFUnordGreaterThanEqual ctx lhs rhs
  end.

(** ** What the emitted instructions compute

    The values are IEEE 754 numbers ([spec_float]); the comparisons follow
    the SPIR-V specification: an ordered comparison is false and an
    unordered one true as soon as an operand is a NaN. *)

Definition ordered (test : comparison -> bool) (a b : spec_float) : bool :=
  match SFcompare a b with Some c => test c | None => false end.

Definition unordered (test : comparison -> bool) (a b : spec_float) : bool :=
  match SFcompare a b with Some c => test c | None => true end.

Definition is_Eq (c : comparison) : bool := if c is Eq then true else false.
Definition is_Lt (c : comparison) : bool := if c is Lt then true else false.
Definition is_Gt (c : comparison) : bool := if c is Gt then true else false.

Definition is_nan (x : spec_float) : bool :=
  match x with S754_nan => true | _ => false end.

(** GLSL.std.450 FMin: the result is [y] if [y < x], otherwise [x]. *)
Definition FMin (x y : spec_float) : spec_float := if SFltb y x then y else x.

(** GLSL.std.450 FMax: the result is [y] if [x < y], otherwise [x]. *)
Definition FMax (x y : spec_float) : spec_float := if SFltb x y then y else x.

(** The value [x] brought into the range from [min_val] to [max_val]:
    [min_val] below the range, [max_val] above it, [x] itself otherwise.
    The instruction is specified for [min_val <= max_val] only. *)
Definition FClamp (x min_val max_val : spec_float) : spec_float :=
  if SFltb x min_val then min_val
  else if SFltb max_val x then max_val
  else x.

Fixpoint eval_float (env : nat -> spec_float) (id : Id) : option spec_float :=
  match id with
  | Operand n => Some (env n)
  | Constant _ value => Some value
  | OpFMin _ x y =>
      x ← eval_float env x; y ← eval_float env y; Some (FMin x y)
  | OpFMax _ x y =>
      x ← eval_float env x; y ← eval_float env y; Some (FMax x y)
  | OpFClamp _ x min_val max_val =>
      x ← eval_float env x;
      min_val ← eval_float env min_val;
      max_val ← eval_float env max_val;
      Some (FClamp x min_val max_val)
  | _ => None
  end.

Definition compare_with (env : nat -> spec_float)
    (test : spec_float -> spec_float -> bool) (lhs rhs : Id) : option bool :=
  a ← eval_float env lhs; b ← eval_float env rhs; Some (test a b).

Fixpoint eval_bool (env : nat -> spec_float) (id : Id) : option bool :=
  match id with
  | OpFOrdEqual _ lhs rhs => compare_with env (ordered is_Eq) lhs rhs
  | OpFUnordEqual _ lhs rhs => compare_with env (unordered is_Eq) lhs rhs
  | OpFOrdNotEqual _ lhs rhs =>
      compare_with env (ordered (negb ∘ is_Eq)) lhs rhs
  | OpFUnordNotEqual _ lhs rhs =>
      compare_with env (unordered (negb ∘ is_Eq)) lhs rhs
  | OpFOrdLessThan _ lhs rhs => compare_with env (ordered is_Lt) lhs rhs
  | OpFUnordLessThan _ lhs rhs => compare_with env (unordered is_Lt) lhs rhs
  | OpFOrdGreaterThan _ lhs rhs => compare_with env (ordered is_Gt) lhs rhs
  | OpFUnordGreaterThan _ lhs rhs => compare_with env (unordered is_Gt) lhs rhs
  | OpFOrdLessThanEqual _ lhs rhs =>
      compare_with env (ordered (negb ∘ is_Gt)) lhs rhs
  | OpFUnordLessThanEqual _ lhs rhs =>
      compare_with env (unordered (negb ∘ is_Gt)) lhs rhs
  | OpFOrdGreaterThanEqual _ lhs rhs =>
      compare_with env (ordered (negb ∘ is_Lt)) lhs rhs
  | OpFUnordGreaterThanEqual _ lhs rhs =>
      compare_with env (unordered (negb ∘ is_Lt)) lhs rhs
  | OpIsNan _ operand => is_nan <$> eval_float env operand
  | OpLogicalNot _ operand => negb <$> eval_bool env operand
  | OpLogicalAnd _ a b =>
      a ← eval_bool env a; b ← eval_bool env b; Some (a && b)
  | OpLogicalOr _ a b =>
      a ← eval_bool env a; b ← eval_bool env b; Some (a || b)
  | _ => None
  end.

Definition with_ignore_nan (flag : bool) : EmitContext :=
  {| profile := {| ignore_nan_fp_comparisons := flag;
                   has_broken_spirv_clamp := false |} |}.

Definition with_broken_clamp (flag : bool) : EmitContext :=
  {| profile := {| ignore_nan_fp_comparisons := false;
                   has_broken_spirv_clamp := flag |} |}.

(** The numbers one and two in the 32-bit format. *)
Definition f32_one : spec_float := S754_finite false 8388608 (-23).
Definition f32_two : spec_float := S754_finite false 8388608 (-22).

Definition operands (a b : spec_float) (n : nat) : spec_float :=
  match n with O => a | _ => b end.

Definition context (ignore_nan broken_clamp : bool) : EmitContext :=
  {| profile := {| ignore_nan_fp_comparisons := ignore_nan;
                   has_broken_spirv_clamp := broken_clamp |} |}.

(** ** Comparisons *)

Lemma SFcompare_nan_l b : SFcompare S754_nan b = None.
Proof. done. Qed.

Lemma SFcompare_nan_r a : SFcompare a S754_nan = None.
Proof. by destruct a. Qed.

Lemma unordered_absorbs_nan test a b :
  unordered test a b || is_nan a || is_nan b = unordered test a b.
Proof.
  unfold unordered. destruct a, b; cbn; try done;
    by rewrite ?orb_false_r, ?orb_true_r.
Qed.

(** Every synthesized unordered comparison computes what the native
    instruction computes. *)
Lemma FPUnordCompare_flag_independent comp_func test env lhs rhs :
  (forall type lhs rhs,
     eval_bool env (comp_func type lhs rhs)
     = compare_with env (unordered test) lhs rhs) ->
  eval_bool env (FPUnordCompare comp_func (with_ignore_nan true) lhs rhs)
  = eval_bool env (FPUnordCompare comp_func (with_ignore_nan false) lhs rhs).
Proof.
  intros Hcomp. unfold FPUnordCompare. cbn -[eval_float].
  rewrite !Hcomp. unfold compare_with.
  destruct (eval_float env lhs) as [a|]; [|done].
  destruct (eval_float env rhs) as [b|]; [|done].
  cbn. by rewrite unordered_absorbs_nan.
Qed.

(** All comparison opcodes but [FPOrdNotEqual] compute the same truth value
    with [ignore_nan_fp_comparisons] set as with it clear. *)
Lemma EmitFPCompare_flag_independent opcode width env lhs rhs :
  opcode <> FPOrdNotEqual_ ->
  eval_bool env (EmitFPCompare opcode width (with_ignore_nan true) lhs rhs)
  = eval_bool env (EmitFPCompare opcode width (with_ignore_nan false) lhs rhs).
Proof.
  intros Hopcode. destruct opcode; try done;
    unfold EmitFPCompare; by eapply FPUnordCompare_flag_independent.
Qed.

(** C5, on the code.  With [ignore_nan_fp_comparisons] set, the comparison
    emitted for [FPOrdNotEqual] computes the ordered EQUAL of its operands;
    on the operands one and two it is false, where the instruction emitted
    with the flag clear is true. *)
Theorem FPOrdNotEqual_synthesized_computes_equal :
  (forall env lhs rhs,
     eval_bool env (FPOrdNotEqual (with_ignore_nan true) lhs rhs)
     = eval_bool env (OpFOrdEqual U1 lhs rhs)) /\
  eval_bool (operands f32_one f32_two)
    (EmitFPCompare FPOrdNotEqual_ W32 (with_ignore_nan true) (Operand 0) (Operand 1))
  = Some false /\
  eval_bool (operands f32_one f32_two)
    (EmitFPCompare FPOrdNotEqual_ W32 (with_ignore_nan false) (Operand 0) (Operand 1))
  = Some true.
Proof.
  split; [|done].
  intros env lhs rhs. cbn -[eval_float]. unfold compare_with.
  destruct (eval_float env lhs) as [a|]; [|done].
  destruct (eval_float env rhs) as [b|]; [|done].
  cbn. unfold ordered. destruct a, b; cbn; try done;
    by rewrite ?andb_true_r.
Qed.

(** ** Clamping *)

Lemma FMin_FMax_FClamp x lo hi :
  SFltb hi lo = false -> FMin (FMax x lo) hi = FClamp x lo hi.
Proof.
  intros Hrange. unfold FMin, FMax, FClamp.
  destruct (SFltb x lo) eqn:Hlow; [by rewrite Hrange|].
  by destruct (SFltb hi x).
Qed.

Lemma Clamp_flag_independent ignore_nan type env value zero one lo hi :
  eval_float env zero = Some lo ->
  eval_float env one = Some hi ->
  SFltb hi lo = false ->
  eval_float env (Clamp (context ignore_nan true) type value zero one)
  = eval_float env (Clamp (context ignore_nan false) type value zero one).
Proof.
  intros Hlo Hhi Hrange. unfold Clamp. cbn. rewrite Hlo, Hhi.
  destruct (eval_float env value) as [x|]; [|done].
  cbn. by rewrite FMin_FMax_FClamp.
Qed.

Lemma SFltb_irrefl a : SFltb a a = false.
Proof.
  unfold SFltb, SFcompare.
  destruct a as [s|s| |s m e]; try done; try (by destruct s).
  change (IntDef.Z.compare e e) with (e ?= e)%Z.
  change (PosDef.Pos.compare_cont Eq m m) with (m ?= m)%positive.
  rewrite Z.compare_refl, Pos.compare_refl. by destruct s.
Qed.

(** [FClamp] yields a number that is neither below the lower end nor above
    the upper end of a range. *)
Lemma FClamp_in_range x lo hi :
  SFltb hi lo = false ->
  SFltb (FClamp x lo hi) lo = false /\ SFltb hi (FClamp x lo hi) = false.
Proof.
  intros Hrange. unfold FClamp.
  destruct (SFltb x lo) eqn:Hlow; [by rewrite SFltb_irrefl|].
  destruct (SFltb hi x) eqn:Hhigh; [by rewrite SFltb_irrefl|done].
Qed.

(** C9.  With [has_broken_spirv_clamp] set the Clamp and Saturate emitters
    emit [OpFMin (OpFMax value lo) hi], with it clear the single
    [OpFClamp value lo hi]; for the Saturate opcodes [lo] is the constant
    zero and [hi] the constant one of the format.  Either lowering computes
    the clamped value: [lo] for a value below [lo], [hi] for a value above
    [hi], and the value itself otherwise, on every value for the Saturate
    opcodes and on every value and every range whose upper end is not below
    its lower end for the Clamp opcodes.  So the two lowerings compute the
    same number, and the saturated value is neither below zero nor above
    one. *)
Theorem Clamp_lowerings_agree :
  (forall ignore_nan width value min_value max_value,
     EmitFPClamp width (context ignore_nan true) value min_value max_value
     = OpFMin (F width) (OpFMax (F width) value min_value) max_value /\
     EmitFPClamp width (context ignore_nan false) value min_value max_value
     = OpFClamp (F width) value min_value max_value) /\
  (forall ignore_nan width value,
     EmitFPSaturate width (context ignore_nan true) value
     = OpFMin (F width)
         (OpFMax (F width) value (Constant (F width) (S754_zero false)))
         (Constant (F width) (one_value width)) /\
     EmitFPSaturate width (context ignore_nan false) value
     = OpFClamp (F width) value (Constant (F width) (S754_zero false))
         (Constant (F width) (one_value width))) /\
  (one_value W16 = SFone 11 16 /\
   one_value W32 = SFone 24 128 /\
   one_value W64 = SFone 53 1024) /\
  (forall ignore_nan broken width env value min_value max_value x lo hi,
     eval_float env value = Some x ->
     eval_float env min_value = Some lo ->
     eval_float env max_value = Some hi ->
     SFltb hi lo = false ->
     eval_float env
       (EmitFPClamp width (context ignore_nan broken) value min_value max_value)
     = Some (if SFltb x lo then lo else if SFltb hi x then hi else x)) /\
  (forall ignore_nan broken width env value x,
     eval_float env value = Some x ->
     eval_float env (EmitFPSaturate width (context ignore_nan broken) value)
     = Some (if SFltb x (S754_zero false) then S754_zero false
             else if SFltb (one_value width) x then one_value width
             else x)) /\
  (forall ignore_nan width env value,
     eval_float env (EmitFPSaturate width (context ignore_nan true) value)
     = eval_float env (EmitFPSaturate width (context ignore_nan false) value)) /\
  (forall ignore_nan width env value min_value max_value lo hi,
     eval_float env min_value = Some lo ->
     eval_float env max_value = Some hi ->
     SFltb hi lo = false ->
     eval_float env
       (EmitFPClamp width (context ignore_nan true) value min_value max_value)
     = eval_float env
         (EmitFPClamp width (context ignore_nan false) value min_value max_value)) /\
  (forall ignore_nan broken width env value result,
     eval_float env (EmitFPSaturate width (context ignore_nan broken) value)
     = Some result ->
     SFltb result (S754_zero false) = false /\
     SFltb (one_value width) result = false).
Proof.
  split; [done|]. split; [done|]. split; [by vm_compute|].
  split; [|split; [|split; [|split]]].
  - intros ignore_nan broken width env value min_value max_value x lo hi
      Hx Hlo Hhi Hrange.
    unfold EmitFPClamp, Clamp. destruct broken; cbn; rewrite Hx, Hlo, Hhi; cbn;
      by rewrite ?FMin_FMax_FClamp.
  - intros ignore_nan broken width env value x Hx.
    assert (SFltb (one_value width) (S754_zero false) = false) as Hrange
      by (by destruct width).
    unfold EmitFPSaturate, Clamp. destruct broken; cbn; rewrite Hx; cbn;
      by rewrite ?FMin_FMax_FClamp.
  - intros ignore_nan width env value. unfold EmitFPSaturate.
    eapply Clamp_flag_independent; [done..|]. by destruct width.
  - intros ignore_nan width env value min_value max_value lo hi Hlo Hhi Hrange.
    by eapply Clamp_flag_independent.
  - intros ignore_nan broken width env value result.
    assert (SFltb (one_value width) (S754_zero false) = false) as Hrange
      by (by destruct width).
    unfold EmitFPSaturate, Clamp. destruct broken; cbn;
      (destruct (eval_float env value) as [x|]; [|done]); cbn;
      intros [= <-]; rewrite ?FMin_FMax_FClamp by done;
      by apply FClamp_in_range.
Qed.

Lemma Clamp_lowerings_agree_witness :
  eval_float (operands f32_two f32_one)
    (EmitFPClamp W32 (context false true) (Operand 0)
       (Constant F32 (S754_zero false)) (Operand 1))
  = Some f32_one /\
  eval_float (operands f32_two f32_one)
    (EmitFPClamp W32 (context false false) (Operand 0)
       (Constant F32 (S754_zero false)) (Operand 1))
  = Some f32_one.
Proof.
  destruct Clamp_lowerings_agree as (_ & _ & _ & Hclamp & _).
  split.
  - exact (Hclamp false true W32 (operands f32_two f32_one) (Operand 0)
             (Constant F32 (S754_zero false)) (Operand 1)
             f32_two (S754_zero false) f32_one eq_refl eq_refl eq_refl eq_refl).
  - exact (Hclamp false false W32 (operands f32_two f32_one) (Operand 0)
             (Constant F32 (S754_zero false)) (Operand 1)
             f32_two (S754_zero false) f32_one eq_refl eq_refl eq_refl eq_refl).
Defined.

(** ** The comparisons the opcodes stand for *)

(** The comparison an opcode of the IR names: ordered or unordered, and the
    relation between the operands. *)
Definition meaning (opcode : FPCompare) : spec_float -> spec_float -> bool :=
  match opcode with
  | FPOrdEqual => ordered is_Eq
  | FPUnordEqual => unordered is_Eq
  | FPOrdNotEqual_ => ordered (negb ∘ is_Eq)
  | FPUnordNotEqual => unordered (negb ∘ is_Eq)
  | FPOrdLessThan => ordered is_Lt
  | FPUnordLessThan => unordered is_Lt
  | FPOrdGreaterThan => ordered is_Gt
  | FPUnordGreaterThan => unordered is_Gt
  | FPOrdLessThanEqual => ordered (negb ∘ is_Gt)
  | FPUnordLessThanEqual => unordered (negb ∘ is_Gt)
  | FPOrdGreaterThanEqual => ordered (negb ∘ is_Lt)
  | FPUnordGreaterThanEqual => unordered (negb ∘ is_Lt)
  end.

(** The opcodes whose emitters go through [FPUnordCompare]. *)
Definition synthesized (opcode : FPCompare) : Prop :=
  opcode ∈ [FPUnordEqual; FPUnordLessThan; FPUnordGreaterThan;
            FPUnordLessThanEqual; FPUnordGreaterThanEqual].

(** *** A driver that ignores NaNs

    Such a driver evaluates a comparison instruction as the specification
    says when both operands are numbers; when one is a NaN the result is
    anything, here [on_nan].  [OpIsNan] and the logical instructions are
    evaluated as specified. *)
Section Driver.

Variable on_nan :
  (spec_float -> spec_float -> bool) -> spec_float -> spec_float -> bool.

Definition native (test : spec_float -> spec_float -> bool)
    (a b : spec_float) : bool :=
  if is_nan a || is_nan b then on_nan test a b else test a b.

Fixpoint eval_bool_native (env : nat -> spec_float) (id : Id) : option bool :=
  match id with
  | OpFOrdEqual _ lhs rhs => compare_with env (native (ordered is_Eq)) lhs rhs
  | OpFUnordEqual _ lhs rhs => compare_with env (native (unordered is_Eq)) lhs rhs
  | OpFOrdNotEqual _ lhs rhs =>
      compare_with env (native (ordered (negb ∘ is_Eq))) lhs rhs
  | OpFUnordNotEqual _ lhs rhs =>
      compare_with env (native (unordered (negb ∘ is_Eq))) lhs rhs
  | OpFOrdLessThan _ lhs rhs => compare_with env (native (ordered is_Lt)) lhs rhs
  | OpFUnordLessThan _ lhs rhs =>
      compare_with env (native (unordered is_Lt)) lhs rhs
  | OpFOrdGreaterThan _ lhs rhs =>
      compare_with env (native (ordered is_Gt)) lhs rhs
  | OpFUnordGreaterThan _ lhs rhs =>
      compare_with env (native (unordered is_Gt)) lhs rhs
  | OpFOrdLessThanEqual _ lhs rhs =>
      compare_with env (native (ordered (negb ∘ is_Gt))) lhs rhs
  | OpFUnordLessThanEqual _ lhs rhs =>
      compare_with env (native (unordered (negb ∘ is_Gt))) lhs rhs
  | OpFOrdGreaterThanEqual _ lhs rhs =>
      compare_with env (native (ordered (negb ∘ is_Lt))) lhs rhs
  | OpFUnordGreaterThanEqual _ lhs rhs =>
      compare_with env (native (unordered (negb ∘ is_Lt))) lhs rhs
  | OpIsNan _ operand => is_nan <$> eval_float env operand
  | OpLogicalNot _ operand => negb <$> eval_bool_native env operand
  | OpLogicalAnd _ a b =>
      a ← eval_bool_native env a; b ← eval_bool_native env b; Some (a && b)
  | OpLogicalOr _ a b =>
      a ← eval_bool_native env a; b ← eval_bool_native env b; Some (a || b)
  | _ => None
  end.

Lemma native_unordered_guarded test a b :
  native (unordered test) a b || is_nan a || is_nan b = unordered test a b.
Proof.
  unfold native, unordered.
  destruct a, b; cbn; try done; by rewrite ?orb_false_r, ?orb_true_r.
Qed.

Lemma FPUnordCompare_native comp_func test broken env lhs rhs :
  (forall type lhs rhs,
     eval_bool_native env (comp_func type lhs rhs)
     = compare_with env (native (unordered test)) lhs rhs) ->
  eval_bool_native env (FPUnordCompare comp_func (context true broken) lhs rhs)
  = compare_with env (unordered test) lhs rhs.
Proof.
  intros Hcomp. unfold FPUnordCompare. cbn -[eval_float].
  rewrite !Hcomp. unfold compare_with.
  destruct (eval_float env lhs) as [a|]; [|done].
  destruct (eval_float env rhs) as [b|]; [|done].
  cbn. by rewrite native_unordered_guarded.
Qed.

End Driver.

(** X9.  Whatever the two flags of the profile, the instructions emitted
    for a comparison opcode other than [FPOrdNotEqual] compute the
    comparison the opcode names. *)
Theorem comparison_emitters_compute_their_comparison
    opcode width ctx env lhs rhs :
  opcode <> FPOrdNotEqual_ ->
  eval_bool env (EmitFPCompare opcode width ctx lhs rhs)
  = compare_with env (meaning opcode) lhs rhs.
Proof.
  intros Hopcode. destruct ctx as [[ignore_nan broken]].
  destruct opcode; try done; unfold EmitFPCompare, FPUnordCompare; cbn -[eval_float];
    destruct ignore_nan; cbn -[eval_float]; try done;
    unfold compare_with;
    (destruct (eval_float env lhs) as [a|]; [|done]);
    (destruct (eval_float env rhs) as [b|]; [|done]);
    cbn; by rewrite unordered_absorbs_nan.
Qed.

Lemma comparison_emitters_compute_their_comparison_witness :
  eval_bool (operands S754_nan f32_one)
    (EmitFPCompare FPUnordLessThan W32 (context true true) (Operand 0) (Operand 1))
  = compare_with (operands S754_nan f32_one) (meaning FPUnordLessThan)
      (Operand 0) (Operand 1).
Proof.
  apply comparison_emitters_compute_their_comparison. discriminate.
Defined.

(** X10.  On a driver that ignores NaNs, the instructions emitted with
    [ignore_nan_fp_comparisons] set for an unordered comparison that goes
    through [FPUnordCompare] compute the comparison the opcode names,
    whatever the driver makes of a comparison with a NaN. *)
Theorem synthesized_comparisons_do_not_depend_on_the_driver
    on_nan opcode width broken env lhs rhs :
  synthesized opcode ->
  eval_bool_native on_nan env
    (EmitFPCompare opcode width (context true broken) lhs rhs)
  = compare_with env (meaning opcode) lhs rhs.
Proof.
  unfold synthesized. rewrite !elem_of_cons, elem_of_nil.
  intros [->|[->|[->|[->|[->|[]]]]]]; unfold EmitFPCompare, meaning;
    by apply FPUnordCompare_native.
Qed.

(** A driver that takes every comparison with a NaN for false. *)
Definition false_on_nan (test : spec_float -> spec_float -> bool)
    (a b : spec_float) : bool := false.

Lemma synthesized_comparisons_do_not_depend_on_the_driver_witness :
  eval_bool_native false_on_nan (operands S754_nan f32_one)
    (EmitFPCompare FPUnordEqual W32 (context true true) (Operand 0) (Operand 1))
  = Some true.
Proof.
  rewrite (synthesized_comparisons_do_not_depend_on_the_driver false_on_nan
             FPUnordEqual W32 true (operands S754_nan f32_one)
             (Operand 0) (Operand 1)).
  - reflexivity.
  - unfold synthesized. apply list_elem_of_here.
Defined.

End Spirv.

Module ShaderCache.

(** ** The OpenGL pipeline cache *)

Section Cache.

(** [GraphicsPipelineKey] is declared in [gl_graphics_pipeline.h], outside
    the sources at hand; the cache only compares keys and uses them to index
    [graphics_cache]. *)
Context `{Countable GraphicsPipelineKey}.

(** What the cache reads of a [GraphicsPipeline]: [Key()] and [IsBuilt()]. *)
Record GraphicsPipeline : Type := {
  Key : GraphicsPipelineKey;
  IsBuilt : bool;
}.

(** [maxwell3d->draw_manager->GetDrawState()]. *)
Record DrawState : Type := {
  index_buffer_count : Z;
  vertex_buffer_count : Z;
}.

(** The members [CurrentGraphicsPipeline] works on.  The cache owns the
    pipelines, so a [GraphicsPipeline*] is the key of the entry that holds
    the pipeline; a null [std::unique_ptr] entry is [None]. *)
Record ShaderCache : Type := {
  use_asynchronous_shaders : bool;
  zeta_enable : Z;
  draw_state : DrawState;
  graphics_key : GraphicsPipelineKey;
  current_pipeline : option GraphicsPipelineKey;
  graphics_cache : gmap GraphicsPipelineKey (option GraphicsPipeline);
}.

(** The pipeline a pointer refers to. *)
Definition pointee (cache : ShaderCache) (pointer : GraphicsPipelineKey)
  : option GraphicsPipeline :=
  mjoin (graphics_cache cache !! pointer).

(** [BuiltPipeline]; [None] is [nullptr]. *)
Definition BuiltPipeline (cache : ShaderCache) (pipeline : GraphicsPipeline)
  : option GraphicsPipeline :=
  if IsBuilt pipeline then Some pipeline
  else if negb (use_asynchronous_shaders cache) then Some pipeline
  (* If something is using depth, we can assume that games are not rendering
     anything which will be used one time. *)
  else if decide (zeta_enable cache <> 0) then None
  (* If games are using a small index count, we can assume these are full
     screen quads. Usually these shaders are only used once for building
     textures so we can assume they can't be built async *)
  else if decide (index_buffer_count (draw_state cache) <= 6
                  \/ vertex_buffer_count (draw_state cache) <= 6) then
    Some pipeline
  else None.

(** [RefreshStages] belongs to the base class [VideoCommon::ShaderCache] and
    the register file to [Maxwell3D], both outside the sources at hand:
    [refresh_key] stands for the first part of [CurrentGraphicsPipeline],
    which recomputes [graphics_key] from the registers, and is [None] when
    [RefreshStages] fails.  The parameterless [CreateGraphicsPipeline]
    translates the shaders; it returns a null pointer when that fails. *)
Variable refresh_key : ShaderCache -> option GraphicsPipelineKey.
Variable CreateGraphicsPipeline : ShaderCache -> option GraphicsPipeline.

Definition set_graphics_key (cache : ShaderCache) (key : GraphicsPipelineKey)
  : ShaderCache :=
  {| use_asynchronous_shaders := use_asynchronous_shaders cache;
     zeta_enable := zeta_enable cache;
     draw_state := draw_state cache;
     graphics_key := key;
     current_pipeline := current_pipeline cache;
     graphics_cache := graphics_cache cache |}.

Definition set_current_pipeline (cache : ShaderCache)
    (pointer : option GraphicsPipelineKey) : ShaderCache :=
  {| use_asynchronous_shaders := use_asynchronous_shaders cache;
     zeta_enable := zeta_enable cache;
     draw_state := draw_state cache;
     graphics_key := graphics_key cache;
     current_pipeline := pointer;
     graphics_cache := graphics_cache cache |}.

Definition set_graphics_cache (cache : ShaderCache)
    (entries : gmap GraphicsPipelineKey (option GraphicsPipeline)) : ShaderCache :=
  {| use_asynchronous_shaders := use_asynchronous_shaders cache;
     zeta_enable := zeta_enable cache;
     draw_state := draw_state cache;
     graphics_key := graphics_key cache;
     current_pipeline := current_pipeline cache;
     graphics_cache := entries |}.

Definition CurrentGraphicsPipelineSlowPath (cache : ShaderCache)
  : option GraphicsPipeline * ShaderCache :=
  (* graphics_cache.try_emplace(graphics_key) *)
  let '(pipeline, cache) :=
    match graphics_cache cache !! graphics_key cache with
    | Some pipeline => (pipeline, cache)
    | None =>
        let pipeline := CreateGraphicsPipeline cache in
        (pipeline,
         set_graphics_cache cache
           (<[graphics_key cache := pipeline]> (graphics_cache cache)))
    end in
  match pipeline with
  | None => (None, cache)
  | Some pipeline =>
      let cache := set_current_pipeline cache (Some (graphics_key cache)) in
      (BuiltPipeline cache pipeline, cache)
  end.

Definition CurrentGraphicsPipeline (cache : ShaderCache)
  : option GraphicsPipeline * ShaderCache :=
  match refresh_key cache with
  | None => (None, set_current_pipeline cache None)
  | Some key =>
      let cache := set_graphics_key cache key in
      match current_pipeline cache ≫= pointee cache with
      | Some current =>
          if decide (graphics_key cache = Key current) then
            (BuiltPipeline cache current, cache)
          else CurrentGraphicsPipelineSlowPath cache
      | None => CurrentGraphicsPipelineSlowPath cache
      end
  end.

(** Every pipeline sits in the entry of its own key. *)
Definition keyed (cache : ShaderCache) : Prop :=
  forall key pipeline,
    graphics_cache cache !! key = Some (Some pipeline) -> Key pipeline = key.

Lemma BuiltPipeline_not_built cache pipeline :
  use_asynchronous_shaders cache = true ->
  IsBuilt pipeline = false ->
  BuiltPipeline cache pipeline =
    if decide (zeta_enable cache = 0 /\
               (index_buffer_count (draw_state cache) <= 6
                \/ vertex_buffer_count (draw_state cache) <= 6))
    then Some pipeline else None.
Proof.
  intros Hasync Hbuilt. unfold BuiltPipeline. rewrite Hbuilt, Hasync. cbn.
  repeat case_decide; tauto.
Qed.

(** C4, as amended.  With asynchronous shaders enabled and a pipeline for
    the current key that is not built yet, [CurrentGraphicsPipeline] returns
    that pipeline (so that the caller waits for the build) exactly when the
    depth buffer is disabled and the index count or the vertex count is at
    most six, and returns null (so that the draw is skipped) when the depth
    buffer is enabled or both counts are above six. *)
Theorem not_yet_built_pipeline_policy cache key pipeline :
  refresh_key cache = Some key ->
  keyed cache ->
  graphics_cache cache !! key = Some (Some pipeline) ->
  use_asynchronous_shaders cache = true ->
  IsBuilt pipeline = false ->
  (CurrentGraphicsPipeline cache).1 =
    if decide (zeta_enable cache = 0 /\
               (index_buffer_count (draw_state cache) <= 6
                \/ vertex_buffer_count (draw_state cache) <= 6))
    then Some pipeline else None.
Proof.
  intros Hrefresh Hkeyed Hentry Hasync Hbuilt.
  unfold CurrentGraphicsPipeline. rewrite Hrefresh.
  assert ((CurrentGraphicsPipelineSlowPath (set_graphics_key cache key)).1
          = BuiltPipeline cache pipeline) as Hslow.
  { unfold CurrentGraphicsPipelineSlowPath. cbn. by rewrite Hentry. }
  destruct (current_pipeline (set_graphics_key cache key)
              ≫= pointee (set_graphics_key cache key)) as [current|] eqn:Hcurrent.
  - case_decide as Hsame; cbn in Hsame.
    + destruct (current_pipeline cache) as [pointer|] eqn:Hpointer;
        cbn in Hcurrent; rewrite Hpointer in Hcurrent; [|done].
      cbn in Hcurrent. unfold pointee in Hcurrent. cbn in Hcurrent.
      destruct (graphics_cache cache !! pointer) as [[found|]|] eqn:Hfound;
        cbn in Hcurrent; try done.
      injection Hcurrent as ->.
      pose proof (Hkeyed _ _ Hfound) as Hpointer_key.
      assert (current = pipeline) as -> by congruence.
      cbn [fst]. by rewrite BuiltPipeline_not_built.
    + rewrite Hslow. by apply BuiltPipeline_not_built.
  - rewrite Hslow. by apply BuiltPipeline_not_built.
Qed.

End Cache.

(** *** The policy, run *)

Definition pending : GraphicsPipeline (GraphicsPipelineKey := Z) :=
  {| Key := 7; IsBuilt := false |}.

(** A cache that holds the pipeline of key 7, still being built. *)
Definition building (zeta_enable index_count vertex_count : Z)
  : ShaderCache (GraphicsPipelineKey := Z) :=
  {| use_asynchronous_shaders := true;
     zeta_enable := zeta_enable;
     draw_state := {| index_buffer_count := index_count;
                      vertex_buffer_count := vertex_count |};
     graphics_key := 7;
     current_pipeline := None;
     graphics_cache := {[ 7 := Some pending ]} |}.

Definition same_key (cache : ShaderCache (GraphicsPipelineKey := Z)) : option Z :=
  Some 7.

Definition no_pipeline (cache : ShaderCache (GraphicsPipelineKey := Z))
  : option (GraphicsPipeline (GraphicsPipelineKey := Z)) := None.

(** A draw with the depth buffer enabled and a thousand indices and
    vertices gets null; a draw of three vertices without depth gets the
    pipeline. *)
Lemma depth_draw_is_skipped_and_small_draw_waits :
  (CurrentGraphicsPipeline same_key no_pipeline (building 1 1000 1000)).1 = None /\
  (CurrentGraphicsPipeline same_key no_pipeline (building 0 1000 1000)).1 = None /\
  (CurrentGraphicsPipeline same_key no_pipeline (building 0 3 3)).1 = Some pending.
Proof. by vm_compute. Qed.

Lemma keyed_building zeta_enable index_count vertex_count :
  keyed (building zeta_enable index_count vertex_count).
Proof.
  intros key pipeline. cbn. intros Hentry.
  apply lookup_singleton_Some in Hentry as [<- [= <-]]. done.
Defined.

Lemma not_yet_built_pipeline_policy_witness :
  (CurrentGraphicsPipeline same_key no_pipeline (building 0 3 1000)).1
  = Some pending.
Proof.
  rewrite (not_yet_built_pipeline_policy same_key no_pipeline
             (building 0 3 1000) 7 pending eq_refl (keyed_building _ _ _)
             eq_refl eq_refl eq_refl).
  reflexivity.
Defined.

(** ** The cache as a memo table *)

Section CacheFacts.

Context `{Countable GraphicsPipelineKey}.

Local Abbreviation Cache := (ShaderCache (GraphicsPipelineKey := GraphicsPipelineKey)).
Local Abbreviation Pipeline :=
  (GraphicsPipeline (GraphicsPipelineKey := GraphicsPipelineKey)).

(** [current_pipeline] is null or points to an entry that holds a
    pipeline: entries of [graphics_cache] are never erased. *)
Definition current_valid (cache : Cache) : Prop :=
  forall pointer,
    current_pipeline cache = Some pointer -> is_Some (pointee cache pointer).

(** The parameterless [CreateGraphicsPipeline] passes [graphics_key] on,
    and [std::make_unique<GraphicsPipeline>] receives it as the key of the
    new pipeline. *)
Definition creates_for_key (create : Cache -> option Pipeline) : Prop :=
  forall cache pipeline,
    create cache = Some pipeline -> Key pipeline = graphics_key cache.

(** The state [CurrentGraphicsPipelineSlowPath] leaves behind for an entry
    of the current key. *)
Definition made_current (cache : Cache) (entry : option Pipeline) : Cache :=
  match entry with
  | Some _ => set_current_pipeline cache (Some (graphics_key cache))
  | None => cache
  end.

Variable refresh_key : Cache -> option GraphicsPipelineKey.

(** The three ways through [CurrentGraphicsPipeline] once the stages have
    been refreshed: the current pipeline has the key, the cache has an
    entry for the key, or an entry is made. *)
Lemma CurrentGraphicsPipeline_cases create cache key :
  keyed cache ->
  refresh_key cache = Some key ->
  let refreshed := set_graphics_key cache key in
  (exists pipeline,
     graphics_cache cache !! key = Some (Some pipeline) /\
     current_pipeline cache = Some key /\
     CurrentGraphicsPipeline refresh_key create cache
     = (BuiltPipeline cache pipeline, refreshed)) \/
  (exists entry,
     graphics_cache cache !! key = Some entry /\
     CurrentGraphicsPipeline refresh_key create cache
     = (entry ≫= BuiltPipeline cache, made_current refreshed entry)) \/
  (graphics_cache cache !! key = None /\
   CurrentGraphicsPipeline refresh_key create cache
   = (create refreshed ≫= BuiltPipeline cache,
      made_current
        (set_graphics_cache refreshed
           (<[key := create refreshed]> (graphics_cache cache)))
        (create refreshed))).
Proof.
  intros Hkeyed Hrefresh refreshed.
  assert ((exists entry,
             graphics_cache cache !! key = Some entry /\
             CurrentGraphicsPipelineSlowPath create refreshed
             = (entry ≫= BuiltPipeline cache, made_current refreshed entry)) \/
          (graphics_cache cache !! key = None /\
           CurrentGraphicsPipelineSlowPath create refreshed
           = (create refreshed ≫= BuiltPipeline cache,
              made_current
                (set_graphics_cache refreshed
                   (<[key := create refreshed]> (graphics_cache cache)))
                (create refreshed)))) as Hslow.
  { unfold CurrentGraphicsPipelineSlowPath. cbn.
    destruct (graphics_cache cache !! key) as [[pipeline|]|];
      [left; by eexists..|right].
    by destruct (create refreshed). }
  unfold CurrentGraphicsPipeline. rewrite Hrefresh. fold refreshed.
  change (current_pipeline refreshed ≫= pointee refreshed)
    with (current_pipeline cache ≫= pointee cache).
  destruct (current_pipeline cache) as [pointer|] eqn:Hpointer;
    cbn [mbind option_bind]; [|by right].
  unfold pointee.
  destruct (graphics_cache cache !! pointer) as [[current|]|] eqn:Hfound;
    cbn [mjoin option_join]; [|by right..].
  case_decide as Hsame; cbn in Hsame; [|by right].
  left. exists current. pose proof (Hkeyed _ _ Hfound) as Hpointer_key.
  by simplify_eq.
Qed.

Lemma keyed_set_graphics_key (cache : Cache) key :
  keyed cache -> keyed (set_graphics_key cache key).
Proof. done. Qed.

Lemma keyed_made_current (cache : Cache) entry :
  keyed cache -> keyed (made_current cache entry).
Proof. by destruct entry. Qed.

Lemma keyed_insert create (cache : Cache) :
  creates_for_key create -> keyed cache ->
  keyed (set_graphics_cache cache
           (<[graphics_key cache := create cache]> (graphics_cache cache))).
Proof.
  intros Hcreate Hkeyed key pipeline. cbn.
  destruct (decide (key = graphics_key cache)) as [->|Hother].
  - rewrite lookup_insert_eq. intros [= Hcreated]. by apply Hcreate.
  - rewrite lookup_insert_ne by done. apply Hkeyed.
Qed.

(** [BuiltPipeline] returns the pipeline it is given or null. *)
Lemma BuiltPipeline_Some (cache : Cache) pipeline found :
  BuiltPipeline cache pipeline = Some found -> found = pipeline.
Proof. unfold BuiltPipeline. repeat case_match; congruence. Qed.

Lemma BuiltPipeline_ready (cache : Cache) pipeline :
  IsBuilt pipeline = true \/ use_asynchronous_shaders cache = false ->
  BuiltPipeline cache pipeline = Some pipeline.
Proof. unfold BuiltPipeline. by intros [-> | ->]; [|destruct (IsBuilt _)]. Qed.

(** X11.  A key that has an entry in [graphics_cache] is never built again:
    the call returns the same pipeline and leaves the same state whatever
    [CreateGraphicsPipeline] would do, the entries of the cache stay as they
    are, and a null entry, which a failed build has left, gives null. *)
Theorem cached_pipeline_is_not_rebuilt (cache : Cache) key entry :
  keyed cache ->
  refresh_key cache = Some key ->
  graphics_cache cache !! key = Some entry ->
  (forall create create',
     CurrentGraphicsPipeline refresh_key create cache
     = CurrentGraphicsPipeline refresh_key create' cache) /\
  (forall create,
     graphics_cache (CurrentGraphicsPipeline refresh_key create cache).2
     = graphics_cache cache) /\
  (forall create,
     entry = None ->
     (CurrentGraphicsPipeline refresh_key create cache).1 = None).
Proof.
  intros Hkeyed Hrefresh Hentry.
  assert (forall create,
            (exists pipeline,
               entry = Some pipeline /\
               CurrentGraphicsPipeline refresh_key create cache
               = (BuiltPipeline cache pipeline, set_graphics_key cache key)) \/
            CurrentGraphicsPipeline refresh_key create cache
            = (entry ≫= BuiltPipeline cache,
               made_current (set_graphics_key cache key) entry)) as Hcall.
  { intros create.
    destruct (CurrentGraphicsPipeline_cases create cache key Hkeyed Hrefresh)
      as [(pipeline & Hfound & _ & ->)|[(entry' & Hfound & ->)|[Hnone _]]];
      simplify_eq; [left; by eexists|by right]. }
  repeat split.
  - intros create create'. unfold CurrentGraphicsPipeline. rewrite Hrefresh.
    assert (CurrentGraphicsPipelineSlowPath create (set_graphics_key cache key)
            = CurrentGraphicsPipelineSlowPath create' (set_graphics_key cache key))
      as -> by (unfold CurrentGraphicsPipelineSlowPath; cbn; by rewrite Hentry).
    done.
  - intros create.
    destruct (Hcall create) as [(pipeline & -> & ->)| ->]; [done|].
    by destruct entry.
  - intros create ->.
    by destruct (Hcall create) as [(pipeline & ? & ?)| ->].
Qed.

(** A call for a key whose entry holds a pipeline that is current, or is a
    null entry, returns at once and changes nothing. *)
Lemma CurrentGraphicsPipeline_again create (cache : Cache) entry :
  keyed cache ->
  refresh_key cache = Some (graphics_key cache) ->
  graphics_cache cache !! graphics_key cache = Some entry ->
  (is_Some entry -> current_pipeline cache = Some (graphics_key cache)) ->
  CurrentGraphicsPipeline refresh_key create cache
  = (entry ≫= BuiltPipeline cache, cache).
Proof.
  intros Hkeyed Hrefresh Hentry Hcurrent.
  assert (set_graphics_key cache (graphics_key cache) = cache) as Hsame
    by by destruct cache.
  destruct (CurrentGraphicsPipeline_cases create cache _ Hkeyed Hrefresh)
    as [(pipeline & Hfound & _ & ->)|[(entry' & Hfound & ->)|[Hnone _]]];
    simplify_eq; rewrite Hsame; [done|].
  destruct entry as [pipeline|]; [|done]. cbn.
  f_equal. destruct cache; cbn in *. by rewrite Hcurrent.
Qed.

(** X12.  [CurrentGraphicsPipeline] keeps the cache consistent: every
    pipeline stays in the entry of its own key, [current_pipeline] stays
    null or a pointer to a pipeline, no entry is erased or replaced, and a
    pipeline that is returned is the one of the refreshed key, sits in the
    cache and has become the current pipeline. *)
Theorem CurrentGraphicsPipeline_keeps_cache_consistent create (cache : Cache) :
  keyed cache ->
  current_valid cache ->
  creates_for_key create ->
  let cache' := (CurrentGraphicsPipeline refresh_key create cache).2 in
  keyed cache' /\
  current_valid cache' /\
  graphics_cache cache ⊆ graphics_cache cache' /\
  (forall pipeline,
     (CurrentGraphicsPipeline refresh_key create cache).1 = Some pipeline ->
     refresh_key cache = Some (Key pipeline) /\
     graphics_key cache' = Key pipeline /\
     graphics_cache cache' !! Key pipeline = Some (Some pipeline) /\
     current_pipeline cache' = Some (Key pipeline)).
Proof.
  intros Hkeyed Hvalid Hcreate.
  destruct (refresh_key cache) as [key|] eqn:Hrefresh.
  - destruct (CurrentGraphicsPipeline_cases create cache key Hkeyed Hrefresh)
      as [(pipeline & Hfound & Hcurrent & ->)
         |[(entry & Hfound & ->)|[Hnone ->]]]; cbn [fst snd].
    + split; [done|]. split; [done|]. split; [done|].
      intros found Hbuilt%BuiltPipeline_Some. subst found.
      by rewrite (Hkeyed _ _ Hfound).
    + split; [by apply keyed_made_current|]. split; [|split].
      * destruct entry as [pipeline|]; [|done].
        intros pointer [= <-]. unfold pointee. cbn. by rewrite Hfound.
      * by destruct entry.
      * destruct entry as [pipeline|]; [|done]. cbn.
        intros found Hbuilt%BuiltPipeline_Some. subst found.
        by rewrite (Hkeyed _ _ Hfound).
    + set (refreshed := set_graphics_key cache key).
      pose proof (keyed_insert create refreshed Hcreate Hkeyed) as Hkeyed'.
      assert (graphics_cache cache
                ⊆ <[key := create refreshed]> (graphics_cache cache)) as Hgrown
        by by apply insert_subseteq.
      split; [by apply keyed_made_current|]. split; [|split].
      * destruct (create refreshed) as [pipeline|] eqn:Hcreated; cbn.
        -- intros pointer [= <-]. unfold pointee. cbn.
           by rewrite lookup_insert_eq.
        -- intros pointer Hpointer. cbn in Hpointer.
           destruct (Hvalid _ Hpointer) as [current Hcurrent].
           exists current. unfold pointee in *. cbn.
           destruct (graphics_cache cache !! pointer) as [found|] eqn:Hfound;
             [|done].
           by rewrite (lookup_weaken _ _ _ _ Hfound Hgrown).
      * by destruct (create refreshed).
      * destruct (create refreshed) as [pipeline|] eqn:Hcreated; [|done]. cbn.
        pose proof (Hcreate _ _ Hcreated) as Hkey. cbn in Hkey.
        intros found Hbuilt%BuiltPipeline_Some. subst found.
        rewrite Hkey. by rewrite lookup_insert_eq.
  - unfold CurrentGraphicsPipeline. rewrite Hrefresh. cbn.
    by repeat split.
Qed.

(** X13.  After a call that has refreshed the stages the key has an entry.
    A pipeline in it that is built, or any pipeline when asynchronous
    shaders are off, is returned; a null entry gives null. *)
Theorem pipeline_is_returned_when_built_or_synchronous create (cache : Cache) key :
  keyed cache ->
  creates_for_key create ->
  refresh_key cache = Some key ->
  let call := CurrentGraphicsPipeline refresh_key create cache in
  is_Some (graphics_cache call.2 !! key) /\
  (forall pipeline,
     graphics_cache call.2 !! key = Some (Some pipeline) ->
     IsBuilt pipeline = true \/ use_asynchronous_shaders cache = false ->
     call.1 = Some pipeline) /\
  (graphics_cache call.2 !! key = Some None -> call.1 = None).
Proof.
  intros Hkeyed Hcreate Hrefresh call. unfold call.
  destruct (CurrentGraphicsPipeline_cases create cache key Hkeyed Hrefresh)
    as [(pipeline & Hfound & Hcurrent & ->)
       |[(entry & Hfound & ->)|[Hnone ->]]]; cbn [fst snd].
  - cbn. rewrite Hfound. repeat split; [by eexists| |done].
    intros found [= <-]. apply BuiltPipeline_ready.
  - assert (graphics_cache (made_current (set_graphics_key cache key) entry)
            = graphics_cache cache) as -> by by destruct entry.
    rewrite Hfound. repeat split; [by eexists| |by intros [= ->]].
    intros found [= ->]. apply BuiltPipeline_ready.
  - set (refreshed := set_graphics_key cache key).
    assert (graphics_cache
              (made_current
                 (set_graphics_cache refreshed
                    (<[key := create refreshed]> (graphics_cache cache)))
                 (create refreshed))
            = <[key := create refreshed]> (graphics_cache cache)) as ->
      by by destruct (create refreshed).
    rewrite lookup_insert_eq. repeat split; [by eexists| |by intros [= ->]].
    intros found [= ->]. apply BuiltPipeline_ready.
Qed.

(** X14.  Asking again for the same key returns the same pipeline, builds
    nothing and leaves the state as it is. *)
Theorem CurrentGraphicsPipeline_idempotent create create' (cache : Cache) key :
  keyed cache ->
  creates_for_key create ->
  refresh_key cache = Some key ->
  refresh_key (CurrentGraphicsPipeline refresh_key create cache).2 = Some key ->
  CurrentGraphicsPipeline refresh_key create'
    (CurrentGraphicsPipeline refresh_key create cache).2
  = CurrentGraphicsPipeline refresh_key create cache.
Proof.
  intros Hkeyed Hcreate Hrefresh.
  destruct (CurrentGraphicsPipeline_cases create cache key Hkeyed Hrefresh)
    as [(pipeline & Hfound & Hcurrent & ->)
       |[(entry & Hfound & ->)|[Hnone ->]]]; cbn [fst snd]; intros Hrefresh'.
  - by rewrite (CurrentGraphicsPipeline_again create' _ (Some pipeline)).
  - rewrite (CurrentGraphicsPipeline_again create' _ entry);
      by destruct entry.
  - set (refreshed := set_graphics_key cache key) in *.
    rewrite (CurrentGraphicsPipeline_again create' _ (create refreshed)).
    all: try (by destruct (create refreshed)).
    + by apply keyed_made_current, (keyed_insert create refreshed).
    + destruct (create refreshed); cbn; by rewrite lookup_insert_eq.
Qed.

End CacheFacts.

(** *** The memo table, run *)

Lemma current_valid_building zeta_enable index_count vertex_count :
  current_valid (building zeta_enable index_count vertex_count).
Proof. intros pointer. cbn. discriminate. Defined.

Lemma creates_for_key_no_pipeline : creates_for_key no_pipeline.
Proof. intros cache pipeline. unfold no_pipeline. discriminate. Defined.

(** A build that would succeed, for the key the cache asks for. *)
Definition built_now (cache : ShaderCache (GraphicsPipelineKey := Z))
  : option (GraphicsPipeline (GraphicsPipelineKey := Z)) :=
  Some {| Key := graphics_key cache; IsBuilt := true |}.

Lemma cached_pipeline_is_not_rebuilt_witness :
  CurrentGraphicsPipeline same_key no_pipeline (building 0 3 1000)
  = CurrentGraphicsPipeline same_key built_now (building 0 3 1000).
Proof.
  destruct (cached_pipeline_is_not_rebuilt same_key (building 0 3 1000) 7
              (Some pending) (keyed_building _ _ _) eq_refl eq_refl)
    as (Hsame & _ & _).
  apply Hsame.
Defined.

Lemma CurrentGraphicsPipeline_keeps_cache_consistent_witness :
  keyed (CurrentGraphicsPipeline same_key no_pipeline (building 0 3 1000)).2 /\
  current_pipeline
    (CurrentGraphicsPipeline same_key no_pipeline (building 0 3 1000)).2
  = Some 7.
Proof.
  destruct (CurrentGraphicsPipeline_keeps_cache_consistent same_key no_pipeline
              (building 0 3 1000) (keyed_building _ _ _)
              (current_valid_building _ _ _) creates_for_key_no_pipeline)
    as (Hkeyed & _ & _ & Hreturned).
  split; [exact Hkeyed|].
  by destruct (Hreturned pending eq_refl) as (_ & _ & _ & Hcurrent).
Defined.

(** The pipeline of key 7 once it is built. *)
Definition ready : GraphicsPipeline (GraphicsPipelineKey := Z) :=
  {| Key := 7; IsBuilt := true |}.

(** A frame with the depth buffer enabled and many vertices, for which a
    pipeline that is still being built would be skipped. *)
Definition finished : ShaderCache (GraphicsPipelineKey := Z) :=
  {| use_asynchronous_shaders := true;
     zeta_enable := 1;
     draw_state := {| index_buffer_count := 1000; vertex_buffer_count := 1000 |};
     graphics_key := 7;
     current_pipeline := None;
     graphics_cache := {[ 7 := Some ready ]} |}.

Lemma keyed_finished : keyed finished.
Proof.
  intros key pipeline. cbn. intros Hentry.
  apply lookup_singleton_Some in Hentry as [<- [= <-]]. done.
Defined.

Lemma pipeline_is_returned_when_built_or_synchronous_witness :
  (CurrentGraphicsPipeline same_key no_pipeline finished).1 = Some ready.
Proof.
  destruct (pipeline_is_returned_when_built_or_synchronous same_key no_pipeline
              finished 7 keyed_finished creates_for_key_no_pipeline eq_refl)
    as (_ & Hready & _).
  apply Hready; [reflexivity|by left].
Defined.

(** A cache with no entry yet. *)
Definition cold : ShaderCache (GraphicsPipelineKey := Z) :=
  {| use_asynchronous_shaders := true;
     zeta_enable := 1;
     draw_state := {| index_buffer_count := 1000; vertex_buffer_count := 1000 |};
     graphics_key := 0;
     current_pipeline := None;
     graphics_cache := ∅ |}.

Lemma keyed_cold : keyed cold.
Proof. intros key pipeline. cbn. by rewrite lookup_empty. Defined.

Lemma creates_for_key_built_now : creates_for_key built_now.
Proof. intros cache pipeline [= <-]. reflexivity. Defined.

Lemma CurrentGraphicsPipeline_idempotent_witness :
  CurrentGraphicsPipeline same_key no_pipeline
    (CurrentGraphicsPipeline same_key built_now cold).2
  = CurrentGraphicsPipeline same_key built_now cold.
Proof.
  exact (CurrentGraphicsPipeline_idempotent same_key built_now no_pipeline
           cold 7 keyed_cold creates_for_key_built_now eq_refl eq_refl).
Defined.

(** ** Compute pipelines *)

(** What [CurrentComputePipeline] reads of [VideoCommon::ShaderInfo] and of
    the launch description of the compute engine. *)
Record ShaderInfo : Type := {
  unique_hash : Z;
  size_bytes : Z;
}.

Record LaunchDescription : Type := {
  shared_alloc : Z;
  block_dim_x : Z;
  block_dim_y : Z;
  block_dim_z : Z;
}.

(** [ComputePipelineKey], with the three members the initializer names:
    [unique_hash], [shared_memory_size] and [workgroup_size]. *)
Definition ComputePipelineKey : Type := Z * Z * (Z * Z * Z).

Section Compute.

(** [ComputePipeline] is declared in [gl_compute_pipeline.h], outside the
    sources at hand; the cache only stores and returns pipelines. *)
Variable ComputePipeline : Type.

(** The members [CurrentComputePipeline] works on; a null
    [std::unique_ptr] entry is [None]. *)
Record ComputeCache : Type := {
  launch_description : LaunchDescription;
  compute_cache : gmap ComputePipelineKey (option ComputePipeline);
}.

(** [ComputeShader] belongs to the base class; it returns null when no
    shader is bound.  [CreateComputePipeline] translates the shader and
    returns null when that fails. *)
Variable ComputeShader : ComputeCache -> option ShaderInfo.
Variable CreateComputePipeline :
  ComputeCache -> ComputePipelineKey -> ShaderInfo -> option ComputePipeline.

Definition compute_key (cache : ComputeCache) (shader : ShaderInfo)
  : ComputePipelineKey :=
  let qmd := launch_description cache in
  (unique_hash shader, shared_alloc qmd,
   (block_dim_x qmd, block_dim_y qmd, block_dim_z qmd)).

Definition CurrentComputePipeline (cache : ComputeCache)
  : option ComputePipeline * ComputeCache :=
  match ComputeShader cache with
  | None => (None, cache)
  | Some shader =>
      let key := compute_key cache shader in
      (* compute_cache.try_emplace(key) *)
      match compute_cache cache !! key with
      | Some pipeline => (pipeline, cache)
      | None =>
          let pipeline := CreateComputePipeline cache key shader in
          (pipeline,
           {| launch_description := launch_description cache;
              compute_cache := <[key := pipeline]> (compute_cache cache) |})
      end
  end.

End Compute.

Arguments launch_description {ComputePipeline} _.
Arguments compute_cache {ComputePipeline} _.
Arguments compute_key {ComputePipeline} _ _.
Arguments CurrentComputePipeline {ComputePipeline} _ _ _.

Section ComputeFacts.

Variable ComputePipeline : Type.
Variable ComputeShader : ComputeCache ComputePipeline -> option ShaderInfo.

(** X15.  A compute pipeline is built once for each shader, shared memory
    size and workgroup size: the call leaves an entry that holds what it
    returns and keeps the other entries, and a call for the same shader and
    launch afterwards returns the same pipeline, a null one included,
    builds nothing and changes nothing. *)
Theorem compute_pipeline_is_built_once create create' cache shader :
  ComputeShader cache = Some shader ->
  let call := CurrentComputePipeline ComputeShader create cache in
  compute_cache call.2 !! compute_key cache shader = Some call.1 /\
  compute_cache cache ⊆ compute_cache call.2 /\
  launch_description call.2 = launch_description cache /\
  (ComputeShader call.2 = Some shader ->
   CurrentComputePipeline ComputeShader create' call.2 = call).
Proof.
  intros Hshader call. unfold call, CurrentComputePipeline. rewrite Hshader.
  destruct (compute_cache cache !! compute_key cache shader)
    as [pipeline|] eqn:Hentry; cbn.
  - repeat split; [done..|]. intros ->. by rewrite Hentry.
  - rewrite lookup_insert_eq. repeat split; [by apply insert_subseteq|].
    intros ->. unfold compute_key. cbn. by rewrite lookup_insert_eq.
Qed.

(** Without a bound compute shader the call returns null and builds
    nothing. *)
Lemma CurrentComputePipeline_without_shader create cache :
  ComputeShader cache = None ->
  CurrentComputePipeline ComputeShader create cache = (None, cache).
Proof. intros Hshader. unfold CurrentComputePipeline. by rewrite Hshader. Qed.

End ComputeFacts.

(** *** A launch, run *)

(** A compute engine about to launch the shader of hash 42 in blocks of
    eight by eight threads, and a cache with no entry yet; a pipeline is
    represented by its GLSL source. *)
Definition idle : ComputeCache string :=
  {| launch_description :=
       {| shared_alloc := 0; block_dim_x := 8; block_dim_y := 8;
          block_dim_z := 1 |};
     compute_cache := ∅ |}.

Definition bound_shader (cache : ComputeCache string) : option ShaderInfo :=
  Some {| unique_hash := 42; size_bytes := 16 |}.

Definition compiled (cache : ComputeCache string) (key : ComputePipelineKey)
    (shader : ShaderInfo) : option string := Some "void main() {}".

Definition failing (cache : ComputeCache string) (key : ComputePipelineKey)
    (shader : ShaderInfo) : option string := None.

Lemma compute_pipeline_is_built_once_witness :
  CurrentComputePipeline bound_shader failing
    (CurrentComputePipeline bound_shader compiled idle).2
  = CurrentComputePipeline bound_shader compiled idle.
Proof.
  destruct (compute_pipeline_is_built_once string bound_shader compiled failing
              idle {| unique_hash := 42; size_bytes := 16 |} eq_refl)
    as (_ & _ & _ & Hagain).
  exact (Hagain eq_refl).
Defined.

End ShaderCache.
